(** * KEN assistant: weather-context pipeline

    A shallow embedding of [backend/main.py], [backend/weather.py] and
    [backend/database.py]: location extraction from a chat message, the four
    TTL caches in front of the weather provider, the daily forecast
    aggregation, the assembly of the message list sent to the model, the
    token relay loop, the user of a request and the connection pool.

    Conventions of the embedding.
    - A Python [str] is a list of characters ([str := list ascii]).  The
      character functions ([\w], [\s], [lower], [title]) are the ASCII
      fragment of Python's; code points above 127 are outside the model.
    - A Python [float] is a rational ([Q]): comparisons and means are exact.
    - [None] is [option]'s [None]; a dict with a fixed set of keys is a
      record whose nullable fields are options.
    - An exception is the [Raise] outcome of the monad [M]; [try/except
      Exception] is [try_except]. *)

From Stdlib Require Import Ascii String List ZArith QArith Lia Lqa Bool.
From stdpp Require Import base option list gmap strings sorting.

Local Open Scope nat_scope.

(** ** Python strings *)

Module PyStr.

Definition str : Type := list ascii.

(** A literal of the source. *)
Definition py (s : string) : str := list_ascii_of_string s.

Definition code (c : ascii) : N := N_of_ascii c.

Definition in_range (lo hi : N) (c : ascii) : bool :=
  (lo <=? code c)%N && (code c <=? hi)%N.

(** [str.isspace] on ASCII: tab, LF, VT, FF, CR, FS, GS, RS, US, space. *)
Definition is_space (c : ascii) : bool :=
  in_range 9 13 c || in_range 28 32 c.

Definition is_upper (c : ascii) : bool := in_range 65 90 c.
Definition is_lower (c : ascii) : bool := in_range 97 122 c.
Definition is_digit (c : ascii) : bool := in_range 48 57 c.
Definition is_cased (c : ascii) : bool := is_upper c || is_lower c.

(** The class [\w]. *)
Definition is_word (c : ascii) : bool :=
  is_cased c || is_digit c || (code c =? 95)%N.

Definition lower_char (c : ascii) : ascii :=
  if is_upper c then ascii_of_N (code c + 32) else c.

Definition upper_char (c : ascii) : ascii :=
  if is_lower c then ascii_of_N (code c - 32) else c.

(** [s.lower()] *)
Definition lower (s : str) : str := map lower_char s.

Fixpoint lstrip (s : str) : str :=
  match s with
  | c :: s' => if is_space c then lstrip s' else s
  | [] => []
  end.

Definition rstrip (s : str) : str := rev (lstrip (rev s)).

(** [s.strip()] *)
Definition strip (s : str) : str := rstrip (lstrip s).

(** [s.title()]: a character that follows a cased character is lowered,
    any other character is put in title case. *)
Fixpoint title_from (previous_is_cased : bool) (s : str) : str :=
  match s with
  | [] => []
  | c :: s' =>
      (if previous_is_cased then lower_char c else upper_char c)
        :: title_from (is_cased c) s'
  end.

Definition title (s : str) : str := title_from false s.

(** [s.split()]: the maximal runs of non-space characters; [w] is the word
    being read. *)
Fixpoint split_acc (w : str) (s : str) : list str :=
  match s with
  | [] => match w with [] => [] | _ => [w] end
  | c :: s' =>
      if is_space c
      then match w with [] => split_acc [] s' | _ => w :: split_acc [] s' end
      else split_acc (w ++ [c]) s'
  end.

Definition split (s : str) : list str := split_acc [] s.

(** [s.split(d)] for a one-character separator: empty pieces are kept. *)
Fixpoint split_on_acc (d : ascii) (w : str) (s : str) : list str :=
  match s with
  | [] => [w]
  | c :: s' =>
      if Ascii.eqb c d then w :: split_on_acc d [] s'
      else split_on_acc d (w ++ [c]) s'
  end.

Definition split_on (d : ascii) (s : str) : list str := split_on_acc d [] s.

(** [sep.join(l)] *)
Fixpoint join (sep : str) (l : list str) : str :=
  match l with
  | [] => []
  | [x] => x
  | x :: l' => x ++ sep ++ join sep l'
  end.

(** [l[-n:]] for [0 < n <= len(l)] *)
Definition last_n {A} (n : nat) (l : list A) : list A :=
  drop (length l - n) l.

Fixpoint starts_with (p s : str) : bool :=
  match p, s with
  | [], _ => true
  | a :: p', b :: s' => Ascii.eqb a b && starts_with p' s'
  | _ :: _, [] => false
  end.

(** [p in s] *)
Fixpoint contains (p s : str) : bool :=
  starts_with p s ||
  match s with
  | [] => false
  | _ :: s' => contains p s'
  end.

(** Truth value of a string, and of an optional string. *)
Definition truthy (s : str) : bool :=
  match s with [] => false | _ => true end.

Definition truthy_opt (o : option str) : bool :=
  match o with Some s => truthy s | None => false end.

(** Only whitespace. *)
Definition blank (s : str) : Prop := Forall (fun c => is_space c = true) s.

(** Not empty, and no whitespace at either end. *)
Definition trimmed (m : str) : Prop :=
  (exists c t, m = c :: t /\ is_space c = false) /\
  (exists t d, m = t ++ [d] /\ is_space d = false).

(** Already in lower case. *)
Definition lowered (s : str) : Prop := lower s = s.

End PyStr.

(** ** The fragment of [re] the source uses *)

Module Re.
Import PyStr.

(** Repetition is only ever applied to a single-character item
    ([.*], [[...]+], [\s+]), which is given as a predicate. *)
Inductive regex : Type :=
| Eps
| Lit (c : ascii)
| CharSet (p : ascii -> bool)
| WordBoundary
| Seq (r1 r2 : regex)
| Alt (r1 r2 : regex)
| Star (p : ascii -> bool)
| Plus (p : ascii -> bool)
| Group (n : nat) (r : regex).

(** Groups captured so far, most recent first. *)
Definition captures : Type := list (nat * str).

Fixpoint group (n : nat) (cs : captures) : str :=
  match cs with
  | [] => []
  | (m, s) :: cs' => if Nat.eqb m n then s else group n cs'
  end.

(** A match: the captures and the text left after it. *)
Definition matched : Type := captures * str.

(** The rest of the pattern: previous character, remaining text, captures. *)
Definition cont : Type := option ascii -> str -> captures -> option matched.

Definition char_eq (ignorecase : bool) (c d : ascii) : bool :=
  if ignorecase then Ascii.eqb (lower_char c) (lower_char d)
  else Ascii.eqb c d.

Definition word_before (prev : option ascii) : bool :=
  match prev with Some c => is_word c | None => false end.

Definition word_after (s : str) : bool :=
  match s with c :: _ => is_word c | [] => false end.

(** [\b] *)
Definition at_boundary (prev : option ascii) (s : str) : bool :=
  xorb (word_before prev) (word_after s).

(** Greedy repetition: take as many characters as possible, give one back
    each time the rest of the pattern fails. *)
Fixpoint star_loop (p : ascii -> bool) (prev : option ascii) (s : str)
    (cs : captures) (k : cont) : option matched :=
  match s with
  | c :: s' =>
      if p c then
        match star_loop p (Some c) s' cs k with
        | Some m => Some m
        | None => k prev s cs
        end
      else k prev s cs
  | [] => k prev [] cs
  end.

(** The text a group consumed: from [s] to the suffix [s']. *)
Definition consumed (s s' : str) : str := take (length s - length s') s.

(** Backtracking matcher at one position. *)
Fixpoint rmatch (ic : bool) (r : regex) (prev : option ascii) (s : str)
    (cs : captures) (k : cont) : option matched :=
  match r with
  | Eps => k prev s cs
  | Lit c =>
      match s with
      | d :: s' => if char_eq ic c d then k (Some d) s' cs else None
      | [] => None
      end
  | CharSet p =>
      match s with
      | d :: s' => if p d then k (Some d) s' cs else None
      | [] => None
      end
  | WordBoundary => if at_boundary prev s then k prev s cs else None
  | Seq r1 r2 =>
      rmatch ic r1 prev s cs (fun prev' s' cs' => rmatch ic r2 prev' s' cs' k)
  | Alt r1 r2 =>
      match rmatch ic r1 prev s cs k with
      | Some m => Some m
      | None => rmatch ic r2 prev s cs k
      end
  | Star p => star_loop p prev s cs k
  | Plus p =>
      match s with
      | d :: s' => if p d then star_loop p (Some d) s' cs k else None
      | [] => None
      end
  | Group n r =>
      rmatch ic r prev s cs
        (fun prev' s' cs' => k prev' s' ((n, consumed s s') :: cs'))
  end.

Definition accept : cont := fun _ s cs => Some (cs, s).

Definition match_here (ic : bool) (r : regex) (prev : option ascii)
    (s : str) : option matched :=
  rmatch ic r prev s [] accept.

(** [re.search]: the match at the leftmost position that has one. *)
Fixpoint search_from (ic : bool) (r : regex) (prev : option ascii)
    (s : str) : option matched :=
  match match_here ic r prev s with
  | Some m => Some m
  | None =>
      match s with
      | [] => None
      | c :: s' => search_from ic r (Some c) s'
      end
  end.

Definition search (ic : bool) (r : regex) (s : str) : option matched :=
  search_from ic r None s.

(** [re.sub(r, "", s)]: matches are looked for on the original text, left
    to right and without overlap; [skip] counts the characters of the
    current match still to be dropped. *)
Fixpoint sub_from (ic : bool) (r : regex) (prev : option ascii) (s : str)
    (skip : nat) : str :=
  match s with
  | [] => []
  | c :: s' =>
      match skip with
      | S n => sub_from ic r (Some c) s' n
      | O =>
          match match_here ic r prev s with
          | Some (_, rest) =>
              match length s - length rest with
              | S n => sub_from ic r (Some c) s' n
              | O => c :: sub_from ic r (Some c) s' 0
              end
          | None => c :: sub_from ic r (Some c) s' 0
          end
      end
  end.

Definition sub_empty (ic : bool) (r : regex) (s : str) : str :=
  sub_from ic r None s 0.

(** Patterns made of literals, [\b], sequence, alternation and groups. *)
Fixpoint literal_only (r : regex) : bool :=
  match r with
  | Eps | Lit _ | WordBoundary => true
  | Seq r1 r2 | Alt r1 r2 => literal_only r1 && literal_only r2
  | Group _ r1 => literal_only r1
  | CharSet _ | Star _ | Plus _ => false
  end.

(** Two attempts agree on whether they match and on where the match ends. *)
Definition same_extent (a b : option matched) : Prop :=
  match a, b with
  | Some (_, rest), Some (_, rest') => length rest = length rest'
  | None, None => True
  | _, _ => False
  end.

(** A literal piece of a pattern. *)
Fixpoint lits_of (s : str) : regex :=
  match s with
  | [] => Eps
  | [c] => Lit c
  | c :: s' => Seq (Lit c) (lits_of s')
  end.

Definition lits (s : string) : regex := lits_of (py s).

(** [(a|b|...)] *)
Fixpoint alts (l : list regex) : regex :=
  match l with
  | [] => Eps
  | [r] => r
  | r :: l' => Alt r (alts l')
  end.

End Re.

(** ** main.py: location extraction *)

Module Location.
Import PyStr Re.

(** [[\w\s,.'-]], on ASCII *)
Definition loc_class (c : ascii) : bool :=
  is_word c || is_space c
  || Ascii.eqb c "," || Ascii.eqb c "." || Ascii.eqb c "'" || Ascii.eqb c "-".

(** [.] (without DOTALL) *)
Definition dot (c : ascii) : bool := negb (Ascii.eqb c "010").

(** [prefix ([\w\s,.'-]+)] *)
Definition phrase (prefix : string) : regex :=
  Seq (lits prefix) (Group 1 (Plus loc_class)).

(** [head.*tail ([\w\s,.'-]+)] *)
Definition phrase_gap (head tail : string) : regex :=
  Seq (lits head) (Seq (Star dot) (Seq (lits tail) (Group 1 (Plus loc_class)))).

Definition patterns : list regex :=
  [ phrase "weather in ";
    phrase "weather at ";
    phrase "temperature in ";
    phrase "forecast for ";
    phrase_gap "what" "weather in ";
    phrase_gap "how" "weather in ";
    phrase "current weather in ";
    phrase "what's the weather in ";
    phrase "weather ";
    phrase "temperature " ].

(** [([\w\s,.'-]+)\s+(weather|temperature|forecast)] *)
Definition reverse_pattern : regex :=
  Seq (Group 1 (Plus loc_class))
    (Seq (Plus is_space)
       (Group 2 (alts [lits "weather"; lits "temperature"; lits "forecast"]))).

Definition stop_words (ws : list string) : regex :=
  Seq WordBoundary (Seq (Group 1 (alts (map lits ws))) WordBoundary).

(** [\b(the|at|in|for|near|th)\b] *)
Definition stop6 : regex :=
  stop_words ["the"; "at"; "in"; "for"; "near"; "th"]%string.

(** [\b(the|at|in|for|near|th|is|present)\b] *)
Definition stop8 : regex :=
  stop_words ["the"; "at"; "in"; "for"; "near"; "th"; "is"; "present"]%string.

(** The loop over [patterns]. *)
Fixpoint try_patterns (ps : list regex) (q : str) : option str :=
  match ps with
  | [] => None
  | p :: ps' =>
      match search true p q with
      | Some (m, _) =>
          let loc := strip (group 1 m) in
          let loc := strip (sub_empty true stop6 loc) in
          if 2 <? length loc then Some (title loc)
          else try_patterns ps' q
      | None => try_patterns ps' q
      end
  end.

Definition try_reverse (q : str) : option str :=
  match search false reverse_pattern q with
  | Some (m, _) =>
      let loc := strip (group 1 m) in
      let loc := strip (sub_empty true stop6 loc) in
      if 2 <? length loc then Some (title loc) else None
  | None => None
  end.

(** The loop [for size in [3, 2, 1]]. *)
Fixpoint try_sizes (sizes : list nat) (words : list str) : option str :=
  match sizes with
  | [] => None
  | size :: sizes' =>
      if size <=? length words then
        let candidate := join (py " ") (last_n size words) in
        let candidate := strip (sub_empty false stop8 candidate) in
        if 2 <? length candidate then Some (title candidate)
        else try_sizes sizes' words
      else try_sizes sizes' words
  end.

Definition try_fallback (q : str) : option str :=
  let words := split q in
  if 1 <=? length words then try_sizes [3; 2; 1] words else None.

Definition extract_location (query : str) : option str :=
  if negb (truthy query) then None
  else
    let q := lower (strip query) in
    match try_patterns patterns q with
    | Some loc => Some loc
    | None =>
        match try_reverse q with
        | Some loc => Some loc
        | None => try_fallback q
        end
    end.

Definition weather_terms : list string :=
  ["weather"; "temperature"; "forecast"; "rain"; "snow"; "wind";
   "sunrise"; "sunset"]%string.

Definition followup_terms : list string :=
  ["tomorrow"; "day after"; "next"; "again"; "same place"; "how about";
   "what about"; "later"; "today"]%string.

Definition is_weather_followup (query : str) : bool :=
  if negb (truthy query) then false
  else
    let q := lower query in
    existsb (fun w => contains (py w) q) weather_terms
    || existsb (fun f => contains (py f) q) followup_terms.

(** [stream], lines 330-333: the location of the turn. *)
Definition resolve_location (message : str)
    (chat_last_location : option str) : option str :=
  let location := extract_location message in
  if negb (truthy_opt location) && is_weather_followup message
  then chat_last_location
  else location.

End Location.

(** ** weather.py *)

Module Weather.
Import PyStr.

(** *** Provider payloads, as far as the code reads them *)

(** A coordinate as the geocoder's JSON gives it and as it is passed on,
    unvalidated: a number, or a value that the format specification [.4f] of
    the cache keys refuses: a string ([ValueError]), a list or an object
    ([TypeError]), an integer beyond the range of the floats
    ([OverflowError]). *)
Inductive coord : Type :=
| Number (x : Q)
| Text
| Structure
| Huge.

Coercion Number : Q >-> coord.

(** One geocoding result, and the dict [geocode_location] builds from it. *)
Record geo : Type := {
  geo_name : option str;
  geo_lat : option coord;
  geo_lon : option coord;
  geo_country : option str;
  geo_state : option str }.

(** Body of the current-conditions call: [d]. The entries of
    [d["weather"]] are given by their [description]. *)
Record current_raw : Type := {
  raw_name : option str;
  raw_weather : option (list (option str));
  raw_temp : option Q;
  raw_feels_like : option Q;
  raw_humidity : option Q;
  raw_pressure : option Q;
  raw_wind_speed : option Q;
  raw_clouds_all : option Q }.

(** One entry of the forecast [list]: [it], with the shape the provider
    documents: [dt] a timestamp that [time.gmtime] accepts, [main] and
    [wind] objects, [weather] a list of objects when it is there. What an
    entry of another shape makes the loop raise is outside the model; the
    empty [weather] list is inside. *)
Record fc_item : Type := {
  dt : Z;
  main_temp : option Q;
  main_humidity : option Q;
  weather : option (list (option str));
  wind_speed : option Q }.

(** One entry of the air-pollution [list]: [el]. *)
Record aqi_el : Type := {
  main_aqi : option Z;
  el_components : option (list (str * Q)) }.

Inductive body : Type :=
| NotJson
| GeoBody (data : list geo)
| CurrentBody (d : current_raw)
| ForecastBody (items : list fc_item)
| AqiBody (l : option (list aqi_el)).

Inductive request : Type :=
| GeoReq (q : str)
| CurrentReq (lat lon : coord)
| ForecastReq (lat lon : coord)
| AqiReq (lat lon : coord).

(** What [requests.get] does: raise, or hand back a response. *)
Inductive http_result : Type :=
| ConnectionFailed
| Response (status_code : Z) (json : body).

(** *** Results *)

Record current : Type := {
  provider : str;
  raw : current_raw;
  name : option str;
  description : option str;
  temp_c : option Q;
  feels_like_c : option Q;
  humidity : option Q;
  pressure : option Q;
  wind_speed_m_s : option Q;
  clouds_pct : option Q }.

Record daily_forecast : Type := {
  date : str;
  temp_min_c : option Q;
  temp_max_c : option Q;
  temp_avg_c : option Q;
  common_description : option str;
  wind_avg_m_s : option Q;
  humidity_avg : option Q }.

Record aqi : Type := {
  aqi_index : option Z;
  components : list (str * Q) }.

Record packet : Type := {
  location : str;
  country : option str;
  state : option str;
  lat : coord;
  lon : coord;
  pkt_current : option current;
  forecast : option (list daily_forecast);
  pkt_aqi : option aqi;
  fetched_at : Q }.

(** *** The process: caches, clock, upstream *)

Record world : Type := {
  _geo_cache : gmap str (geo * Q);
  _current_cache : gmap str (current * Q);
  _forecast_cache : gmap str (list daily_forecast * Q);
  _aqi_cache : gmap str (aqi * Q);
  (** readings of [time.time()] taken so far *)
  ticks : nat;
  (** requests sent upstream so far, latest first *)
  calls : list request }.

Definition fresh : world :=
  {| _geo_cache := ∅; _current_cache := ∅; _forecast_cache := ∅;
     _aqi_cache := ∅; ticks := 0; calls := [] |}.

(** What the code takes from outside: configuration, clock, network and
    the library functions that are not modelled in detail. *)
Class Platform : Type := {
  OWM_KEY : option str;
  (** the [n]-th reading of [time.time()] *)
  time_time : nat -> Q;
  (** the answer to a request that is the [n]-th one sent *)
  requests_get : nat -> request -> http_result;
  (** [f"{x:.4f}"] *)
  format_4f : Q -> str;
  (** [f"{x}"] for an int, for a float *)
  format_int : Z -> str;
  format_float : Q -> str;
  (** [time.strftime("%Y-%m-%d", time.gmtime(ts))] *)
  utc_day : Z -> str;
  (** position of a value in the iteration order of [set(l)] *)
  set_rank : list (option str) -> option str -> nat }.

Inductive exn : Type :=
| RequestException
| JSONDecodeError
| IndexError
| ValueError
| TypeError
| OverflowError.

Inductive outcome (A : Type) : Type :=
| Return (a : A)
| Raise (e : exn).
Arguments Return {A} a.
Arguments Raise {A} e.

Definition M (A : Type) : Type := world -> outcome A * world.

#[global] Instance M_ret : MRet M := fun A a w => (Return a, w).

#[global] Instance M_bind : MBind M := fun A B f m w =>
  match m w with
  | (Return a, w') => f a w'
  | (Raise e, w') => (Raise e, w')
  end.

Definition raise {A} (e : exn) : M A := fun w => (Raise e, w).

(** [try: body except Exception: handler] *)
Definition try_except {A} (body handler : M A) : M A := fun w =>
  match body w with
  | (Return a, w') => (Return a, w')
  | (Raise _, w') => handler w'
  end.

(** The computation returns, whatever the process and the provider do. *)
Definition returns {A} (m : M A) : Prop :=
  forall w, exists r w', m w = (Return r, w').


(** *** Python built-ins on numbers and lists *)

Definition Qltb (a b : Q) : bool :=
  match (a ?= b)%Q with Lt => true | _ => false end.

(** [min(l)]: the first smallest element. *)
Fixpoint min_from (cur : Q) (l : list Q) : Q :=
  match l with
  | [] => cur
  | x :: l' => min_from (if Qltb x cur then x else cur) l'
  end.

(** [max(l)]: the first largest element. *)
Fixpoint max_from (cur : Q) (l : list Q) : Q :=
  match l with
  | [] => cur
  | x :: l' => max_from (if Qltb cur x then x else cur) l'
  end.

(** [sum(l)] *)
Definition py_sum (l : list Q) : Q := fold_left Qplus l 0%Q.

(** [sum(l)/len(l)], exactly: the rounding of the float sum and division
    is outside the model. *)
Definition mean (l : list Q) : Q :=
  (py_sum l / inject_Z (Z.of_nat (length l)))%Q.

(** [min(l) if l else None], and the like *)
Definition min_or_none (l : list Q) : option Q :=
  match l with [] => None | x :: l' => Some (min_from x l') end.
Definition max_or_none (l : list Q) : option Q :=
  match l with [] => None | x :: l' => Some (max_from x l') end.
Definition mean_or_none (l : list Q) : option Q :=
  match l with [] => None | _ => Some (mean l) end.

(** [l.count(x)] *)
Fixpoint count `{EqDecision A} (x : A) (l : list A) : nat :=
  match l with
  | [] => 0
  | y :: l' => (if decide (y = x) then 1 else 0) + count x l'
  end.

(** [max(it, key=key)] over the elements [cur :: l] in iteration order:
    the first one whose key is largest. *)
Fixpoint max_key_from {A} (key : A -> nat) (cur : A) (l : list A) : A :=
  match l with
  | [] => cur
  | x :: l' => max_key_from key (if key cur <? key x then x else cur) l'
  end.

(** [[x for x in l if x is not None]] *)
Definition not_none {A} (l : list (option A)) : list A := omap id l.

(** [l[:n]] *)
Definition slice_to {A} (n : Z) (l : list A) : list A :=
  if (n <? 0)%Z then take (length l - Z.to_nat (- n)) l
  else take (Z.to_nat n) l.

(** Order of [str] values: by code point, a proper prefix first. *)
Fixpoint str_leb (a b : str) : bool :=
  match a, b with
  | [], _ => true
  | _ :: _, [] => false
  | x :: a', y :: b' =>
      if (code x <? code y)%N then true
      else if (code x =? code y)%N then str_leb a' b'
      else false
  end.

Definition str_le (a b : str) : Prop := str_leb a b = true.

#[global] Instance str_le_dec a b : Decision (str_le a b).
Proof. unfold str_le. apply _. Defined.

(** [sorted(l)] for a list of strings *)
Definition sorted (l : list str) : list str := merge_sort str_le l.

(** The per-day lists of the forecast loop. *)
Record slot : Type := {
  temps : list (option Q);
  desc : list (option str);
  winds : list (option Q);
  hum : list (option Q) }.

Definition empty_slot : slot :=
  {| temps := []; desc := []; winds := []; hum := [] |}.

Section Engine.
Context `{Platform}.

Definition GEO_TTL : Q := (24 * 3600)%Q.
Definition CURRENT_TTL : Q := (5 * 60)%Q.
Definition FORECAST_TTL : Q := (10 * 60)%Q.
Definition AQI_TTL : Q := (60 * 60)%Q.

Definition _now_ts : M Q := fun w =>
  (Return (time_time (ticks w)),
   {| _geo_cache := _geo_cache w; _current_cache := _current_cache w;
      _forecast_cache := _forecast_cache w; _aqi_cache := _aqi_cache w;
      ticks := S (ticks w); calls := calls w |}).

(** [requests.get(...)]: the request is logged; a failed connection
    raises. *)
Definition http_get (rq : request) : M (Z * body) := fun w =>
  let w' :=
    {| _geo_cache := _geo_cache w; _current_cache := _current_cache w;
       _forecast_cache := _forecast_cache w; _aqi_cache := _aqi_cache w;
       ticks := ticks w; calls := rq :: calls w |} in
  match requests_get (length (calls w)) rq with
  | ConnectionFailed => (Raise RequestException, w')
  | Response status_code json => (Return (status_code, json), w')
  end.

Definition get_geo_cache (key : str) : M (option (geo * Q)) :=
  fun w => (Return (_geo_cache w !! key), w).
Definition get_current_cache (key : str) : M (option (current * Q)) :=
  fun w => (Return (_current_cache w !! key), w).
Definition get_forecast_cache (key : str)
    : M (option (list daily_forecast * Q)) :=
  fun w => (Return (_forecast_cache w !! key), w).
Definition get_aqi_cache (key : str) : M (option (aqi * Q)) :=
  fun w => (Return (_aqi_cache w !! key), w).

Definition set_geo_cache (key : str) (e : geo * Q) : M unit := fun w =>
  (Return tt,
   {| _geo_cache := <[key := e]> (_geo_cache w);
      _current_cache := _current_cache w;
      _forecast_cache := _forecast_cache w; _aqi_cache := _aqi_cache w;
      ticks := ticks w; calls := calls w |}).
Definition set_current_cache (key : str) (e : current * Q) : M unit :=
  fun w =>
  (Return tt,
   {| _geo_cache := _geo_cache w;
      _current_cache := <[key := e]> (_current_cache w);
      _forecast_cache := _forecast_cache w; _aqi_cache := _aqi_cache w;
      ticks := ticks w; calls := calls w |}).
Definition set_forecast_cache (key : str)
    (e : list daily_forecast * Q) : M unit := fun w =>
  (Return tt,
   {| _geo_cache := _geo_cache w; _current_cache := _current_cache w;
      _forecast_cache := <[key := e]> (_forecast_cache w);
      _aqi_cache := _aqi_cache w;
      ticks := ticks w; calls := calls w |}).
Definition set_aqi_cache (key : str) (e : aqi * Q) : M unit := fun w =>
  (Return tt,
   {| _geo_cache := _geo_cache w; _current_cache := _current_cache w;
      _forecast_cache := _forecast_cache w;
      _aqi_cache := <[key := e]> (_aqi_cache w);
      ticks := ticks w; calls := calls w |}).

(** [cached and _now_ts() - cached[1] < ttl]: the clock is read only
    when there is an entry. *)
Definition still_fresh {V} (cached : option (V * Q)) (ttl : Q)
    : M (option V) :=
  match cached with
  | Some (value, fetched) =>
      now ← _now_ts;
      mret (if Qltb (now - fetched)%Q ttl then Some value else None)
  | None => mret None
  end.

(** **** Geocoding *)

Definition geocode_location (location : str) : M (option geo) :=
  if negb (truthy_opt OWM_KEY) then mret None
  else
    let key := lower (strip location) in
    cached ← get_geo_cache key;
    hit ← still_fresh cached GEO_TTL;
    match hit with
    | Some value => mret (Some value)
    | None =>
        try_except
          (r ← http_get (GeoReq location);
           if negb (r.1 =? 200)%Z then mret None
           else
             data ← match r.2 with
                    | GeoBody data => mret data
                    | _ => raise JSONDecodeError
                    end;
             match data with
             | [] => mret None
             | top :: _ =>
                 let result :=
                   {| geo_name := geo_name top; geo_lat := geo_lat top;
                      geo_lon := geo_lon top;
                      geo_country := geo_country top;
                      geo_state := geo_state top |} in
                 now ← _now_ts;
                 set_geo_cache key (result, now);;
                 mret (Some result)
             end)
          (mret None)
    end.

(** **** Current conditions *)

(** [x.get("weather", [{}])[0].get("description")] *)
Definition first_description (w : option (list (option str)))
    : M (option str) :=
  match w with
  | None => mret None
  | Some [] => raise IndexError
  | Some (d :: _) => mret d
  end.

(** The key of two numbers: [f"cur:{lat:.4f},{lon:.4f}"] and the like. *)
Definition coord_key (prefix : string) (lat lon : Q) : str :=
  py prefix ++ format_4f lat ++ py "," ++ format_4f lon.

(** [f"{c:.4f}"] for a coordinate: the format raises on what is not a
    number it can write. *)
Definition format_coord (c : coord) : M str :=
  match c with
  | Number x => mret (format_4f x)
  | Text => raise ValueError
  | Structure => raise TypeError
  | Huge => raise OverflowError
  end.

(** The f-string of a key: latitude first, then longitude. *)
Definition key_of (prefix : string) (lat lon : coord) : M str :=
  a ← format_coord lat;
  b ← format_coord lon;
  mret (py prefix ++ a ++ py "," ++ b).

(** What the format raises on a coordinate, and on a pair: the latitude
    is formatted first. *)
Definition format_error (c : coord) : option exn :=
  match c with
  | Number _ => None
  | Text => Some ValueError
  | Structure => Some TypeError
  | Huge => Some OverflowError
  end.

Definition key_error (lat lon : coord) : option exn :=
  match format_error lat with
  | Some e => Some e
  | None => format_error lon
  end.

Definition _fetch_current_weather_by_coord (lat lon : coord)
    : M (option current) :=
  if negb (truthy_opt OWM_KEY) then mret None
  else
    key ← key_of "cur:" lat lon;
    cached ← get_current_cache key;
    hit ← still_fresh cached CURRENT_TTL;
    match hit with
    | Some value => mret (Some value)
    | None =>
        try_except
          (r ← http_get (CurrentReq lat lon);
           if negb (r.1 =? 200)%Z then mret None
           else
             d ← match r.2 with
                 | CurrentBody d => mret d
                 | _ => raise JSONDecodeError
                 end;
             descr ← first_description (raw_weather d);
             let res :=
               {| provider := py "openweathermap";
                  raw := d;
                  name := raw_name d;
                  description := descr;
                  temp_c := raw_temp d;
                  feels_like_c := raw_feels_like d;
                  humidity := raw_humidity d;
                  pressure := raw_pressure d;
                  wind_speed_m_s := raw_wind_speed d;
                  clouds_pct := raw_clouds_all d |} in
             now ← _now_ts;
             set_current_cache key (res, now);;
             mret (Some res))
          (mret None)
    end.

(** **** Forecast: daily aggregate *)

(** One turn of [for it in items]. *)
Definition add_sample (daily : gmap str slot) (it : fc_item)
    : M (gmap str slot) :=
  let day_str := utc_day (dt it) in
  let e := default empty_slot (daily !! day_str) in
  d ← first_description (weather it);
  mret (<[day_str :=
            {| temps := temps e ++ [main_temp it];
               desc := desc e ++ [d];
               winds := winds e ++ [wind_speed it];
               hum := hum e ++ [main_humidity it] |}]> daily).

Fixpoint group_by_day (items : list fc_item) (daily : gmap str slot)
    : M (gmap str slot) :=
  match items with
  | [] => mret daily
  | it :: items' =>
      daily' ← add_sample daily it;
      group_by_day items' daily'
  end.

(** Iteration order of [set(l)]: the distinct values, by rank. *)
Definition rank_le (l : list (option str)) (a b : option str) : Prop :=
  set_rank l a <= set_rank l b.

#[global] Instance rank_le_dec l a b : Decision (rank_le l a b).
Proof. unfold rank_le. apply _. Defined.

Definition set_iter (l : list (option str)) : list (option str) :=
  merge_sort (rank_le l) (remove_dups l).

(** [max(set(l), key=l.count) if l else None] *)
Definition most_common (l : list (option str)) : option str :=
  match l with
  | [] => None
  | _ =>
      match set_iter l with
      | [] => None
      | x :: rest => max_key_from (fun v => count v l) x rest
      end
  end.

(** The dict appended to [result] for [day]. *)
Definition summarize (day : str) (e : slot) : daily_forecast :=
  let temps := not_none (temps e) in
  let winds := not_none (winds e) in
  let hums := not_none (hum e) in
  {| date := day;
     temp_min_c := min_or_none temps;
     temp_max_c := max_or_none temps;
     temp_avg_c := mean_or_none temps;
     common_description := most_common (desc e);
     wind_avg_m_s := mean_or_none winds;
     humidity_avg := mean_or_none hums |}.

Definition keys (daily : gmap str slot) : list str :=
  elements (dom daily).

(** The second loop: [for day in sorted(daily.keys())[:days]]. *)
Definition daily_result (daily : gmap str slot) (days : Z)
    : list daily_forecast :=
  map (fun day => summarize day (default empty_slot (daily !! day)))
    (slice_to days (sorted (keys daily))).

(** Lines 153-182: from the raw entries to [result]. *)
Definition aggregate (items : list fc_item) (days : Z)
    : M (list daily_forecast) :=
  daily ← group_by_day items ∅;
  mret (daily_result daily days).

Definition _fetch_forecast_by_coord (lat lon : coord) (days : Z)
    : M (option (list daily_forecast)) :=
  if negb (truthy_opt OWM_KEY) then mret None
  else
    k ← key_of "fc:" lat lon;
    let key := k ++ py ":" ++ format_int days in
    cached ← get_forecast_cache key;
    hit ← still_fresh cached FORECAST_TTL;
    match hit with
    | Some value => mret (Some value)
    | None =>
        try_except
          (r ← http_get (ForecastReq lat lon);
           if negb (r.1 =? 200)%Z then mret None
           else
             items ← match r.2 with
                     | ForecastBody items => mret items
                     | _ => raise JSONDecodeError
                     end;
             result ← aggregate items days;
             now ← _now_ts;
             set_forecast_cache key (result, now);;
             mret (Some result))
          (mret None)
    end.

(** **** Air quality *)

Definition _fetch_aqi_by_coord (lat lon : coord) : M (option aqi) :=
  if negb (truthy_opt OWM_KEY) then mret None
  else
    key ← key_of "aqi:" lat lon;
    cached ← get_aqi_cache key;
    hit ← still_fresh cached AQI_TTL;
    match hit with
    | Some value => mret (Some value)
    | None =>
        try_except
          (r ← http_get (AqiReq lat lon);
           if negb (r.1 =? 200)%Z then mret None
           else
             d ← match r.2 with
                 | AqiBody l => mret l
                 | _ => raise JSONDecodeError
                 end;
             match d with
             | Some (el :: _) =>
                 let result :=
                   {| aqi_index := main_aqi el;
                      components := default [] (el_components el) |} in
                 now ← _now_ts;
                 set_aqi_cache key (result, now);;
                 mret (Some result)
             | _ => mret None
             end)
          (mret None)
    end.

(** **** Final packet *)

(** [a or b] on strings, [a] nullable *)
Definition or_else (a : option str) (b : str) : str :=
  match a with
  | Some s => if truthy s then s else b
  | None => b
  end.

Definition build_weather_packet (location : str) (forecast_days : Z)
    : M (option packet) :=
  if negb (truthy location) then mret None
  else
    geo ← geocode_location location;
    match geo with
    | None => mret None
    | Some geo =>
        match geo_lat geo, geo_lon geo with
        | Some lat, Some lon =>
            current ← _fetch_current_weather_by_coord lat lon;
            forecast ← _fetch_forecast_by_coord lat lon forecast_days;
            aqi ← _fetch_aqi_by_coord lat lon;
            now ← _now_ts;
            mret (Some
              {| location := or_else (geo_name geo) location;
                 country := geo_country geo;
                 state := geo_state geo;
                 lat := lat;
                 lon := lon;
                 pkt_current := current;
                 forecast := forecast;
                 pkt_aqi := aqi;
                 fetched_at := now |})
        | _, _ => mret None
        end
    end.

(** **** Format for the model *)

(** [f"{x}"] for a nullable string, float, int *)
Definition show_str (o : option str) : str :=
  match o with Some s => s | None => py "None" end.
Definition show_float (o : option Q) : str :=
  match o with Some x => format_float x | None => py "None" end.
Definition show_int (o : option Z) : str :=
  match o with Some x => format_int x | None => py "None" end.

Definition degrees : str := py "°C".

Definition aqi_text (aqi_val : option Z) : str :=
  match aqi_val with
  | Some 1%Z => py "Good"
  | Some 2%Z => py "Fair"
  | Some 3%Z => py "Moderate"
  | Some 4%Z => py "Poor"
  | Some 5%Z => py "Very Poor"
  | _ => py "Unknown"
  end.

Definition current_lines (cur : option current) : list str :=
  match cur with
  | Some cur =>
      [ py "Current: " ++ show_str (description cur) ++ py ", "
          ++ show_float (temp_c cur) ++ degrees ++ py " (feels like "
          ++ show_float (feels_like_c cur) ++ degrees ++ py ")";
        py "Humidity: " ++ show_float (humidity cur) ++ py "% | "
          ++ py "Wind: " ++ show_float (wind_speed_m_s cur) ++ py " m/s | "
          ++ py "Clouds: " ++ show_float (clouds_pct cur) ++ py "%" ]
  | None => []
  end.

Definition aqi_lines (a : option aqi) : list str :=
  match a with
  | Some a =>
      let aqi_val := aqi_index a in
      [ py "AQI: " ++ show_int aqi_val ++ py " (" ++ aqi_text aqi_val
          ++ py ")" ]
  | None => []
  end.

Definition forecast_line (day : daily_forecast) : str :=
  date day ++ py ": " ++ show_str (common_description day) ++ py ", "
    ++ show_float (temp_min_c day) ++ degrees ++ py " - "
    ++ show_float (temp_max_c day) ++ degrees.

(** The packet is a dict with nine keys, hence true. *)
Definition format_packet_for_prompt (packet : packet) : str :=
  let loc := location packet in
  let first :=
    loc ++ (if truthy_opt (country packet)
            then py ", " ++ default [] (country packet) else []) in
  let fc := default [] (forecast packet) in
  join (py " | ")
    ([first] ++ current_lines (pkt_current packet)
       ++ aqi_lines (pkt_aqi packet)
       ++ map forecast_line (slice_to 3 fc)).

(** The result dict, as the pair (packet, summary). *)
Definition get_weather_summary_for_prompt (location : str)
    (forecast_days : Z) : M (option (packet * str)) :=
  pkt ← build_weather_packet location forecast_days;
  match pkt with
  | None => mret None
  | Some pkt => mret (Some (pkt, format_packet_for_prompt pkt))
  end.

End Engine.
End Weather.

(** ** main.py: the chat turn *)

Module Chat.
Import PyStr Location Weather.

Record message : Type := { role : str; content : str }.

Definition quote : ascii := "034"%char.

(** The triple-quoted rules block. *)
Definition system_prompt : str := py "
You are KEN ASSISTANT.

IMPORTANT RULES FOR WEATHER ANSWERS:
1. When WEATHER_PACKET_JSON is provided, you MUST use ONLY that data.
2. NEVER guess, assume, or fabricate any weather info.
3. NEVER use AccuWeather, Google, or any external sources.
4. ONLY use data explicitly given inside WEATHER_PACKET_JSON.
5. If something is missing in the packet, say " ++ [quote] ++ py "Weather data unavailable" ++ [quote] ++ py ".
6. Do NOT invent dates, temperatures, humidity, wind speeds, or conditions.
7. Your weather response MUST be based strictly on WEATHER_PACKET_JSON and/or the human-readable Weather Summary.

Respond clearly, accurately, and in Markdown format.
".

(** What [stream] knows about the weather once lines 330-353 have run. *)
Record turn_weather : Type := {
  location : option str;
  weather_summary : option str;
  weather_packet : option packet }.

(** [json.dumps(packet, indent=..., default=str)]; with [default=str] it
    serializes every value of the packet. *)
Class Json : Type := {
  json_dumps : option Z -> packet -> str }.

(** The lines of a chunk the relay reads: what [json.loads] and the two
    [get]s make of one. [Content t] is the value under
    [message.content] (the empty string when the key is missing or the value
    is false); [Unparsable] is any exception of the [try] block. *)
Inductive line_json : Type :=
| Unparsable
| Content (token : str).

Inductive net_error : Type :=
| RequestError (msg : str)
| OtherError (msg : str).

(** What the async iteration over [resp.aiter_bytes()] meets: a chunk,
    together with the answer [request.is_disconnected()] gives before it is
    processed, or an exception. *)
Inductive body_event : Type :=
| Chunk (disconnected : bool) (data : list Byte.byte)
| ReadError (e : net_error).

(** A chunk read while the client is still connected. *)
Definition live (ev : body_event) : Prop :=
  match ev with
  | Chunk false _ => True
  | _ => False
  end.

(** What [client.stream(...)] gives: an exception, or a response with its
    status, its error text when that can be read, and its body. *)
Inductive backend : Type :=
| ConnectError (e : net_error)
| Opened (status_code : Z) (text : option str) (chunks : list body_event).

(** What a run of [generate] does: the tokens it yields, in order, and the
    assistant message it hands to the storage for insertion, if any. *)
Record relay : Type := {
  yielded : list str;
  inserted : option str }.

Section Turn.
Context `{Platform} `{Json}.
(** [chunk.decode("utf-8", errors="ignore")] and [json.loads] with the
    extraction of the token. *)
Variable decode : list Byte.byte -> str.
Variable json_token : str -> line_json.

(** Lines 330-353. The [UPDATE] of [last_location] goes to the storage and
    is not part of the result. *)
Definition weather_for_turn (msg : str) (chat_last_location : option str)
    : M turn_weather :=
  let location := resolve_location msg chat_last_location in
  let nothing :=
    {| location := location; weather_summary := None;
       weather_packet := None |} in
  match location with
  | Some loc =>
      if truthy loc then
        try_except
          (res ← get_weather_summary_for_prompt loc 5;
           match res with
           | Some (pkt, summary) =>
               mret {| location := location;
                       weather_summary := Some summary;
                       weather_packet := Some pkt |}
           | None => mret nothing
           end)
          (mret nothing)
      else mret nothing
  | None => mret nothing
  end.

(** The fence around the serialized packet. *)
Definition packet_header : str := py "WEATHER_PACKET_JSON:
```json
".

Definition packet_footer : str := py "
```".

Definition dumps (indent : option Z) (pkt : packet) : M str :=
  mret (json_dumps indent pkt).

(** Lines 380-403: [history] holds the rows (message, role). *)
Definition build_messages (tw : turn_weather) (history : list (str * str))
    (msg : str) : M (list message) :=
  let messages := [] in
  let messages := messages ++ [{| role := py "system"; content := system_prompt |}] in
  messages ←
    match weather_packet tw with
    | Some pkt =>
        if truthy_opt (weather_summary tw) then
          let messages :=
            messages ++
              [{| role := py "system";
                  content := py "Weather summary for "
                               ++ show_str (location tw) ++ py ": "
                               ++ show_str (weather_summary tw) |}] in
          packet_json ← try_except (dumps (Some 2%Z) pkt) (dumps None pkt);
          mret (messages ++
                  [{| role := py "system";
                      content := packet_header ++ packet_json ++ packet_footer |}])
        else mret messages
    | None => mret messages
    end;
  let messages :=
    messages ++ map (fun row => {| role := row.2; content := row.1 |}) history in
  mret (messages ++ [{| role := py "user"; content := msg |}]).

(** Lines 330-403 of [stream]. *)
Definition prepare (msg : str) (chat_last_location : option str)
    (history : list (str * str)) : M (list message) :=
  tw ← weather_for_turn msg chat_last_location;
  build_messages tw history msg.

(** The loop over the lines of one chunk: [full_response] and the tokens
    yielded so far go in and come out. *)
Fixpoint relay_lines (lines : list str) (full_response : str)
    (out : list str) : str * list str :=
  match lines with
  | [] => (full_response, out)
  | line :: lines' =>
      if negb (truthy (strip line)) then relay_lines lines' full_response out
      else
        match json_token line with
        | Content token =>
            if truthy token
            then relay_lines lines' (full_response ++ token) (out ++ [token])
            else relay_lines lines' full_response out
        | Unparsable =>
            relay_lines lines' (full_response ++ line) (out ++ [line])
        end
  end.

Definition error_token (e : net_error) : str :=
  match e with
  | RequestError m => py "Network error: " ++ m
  | OtherError m => py "Unexpected error: " ++ m
  end.

(** [async for chunk in resp.aiter_bytes()], then the insert. *)
Fixpoint relay_chunks (chunks : list body_event) (full_response : str)
    (out : list str) : relay :=
  match chunks with
  | [] => {| yielded := out; inserted := Some full_response |}
  | Chunk disconnected data :: chunks' =>
      if disconnected then {| yielded := out; inserted := None |}
      else
        let text := decode data in
        let '(full_response', out') :=
          relay_lines (split_on "010" text) full_response out in
        relay_chunks chunks' full_response' out'
  | ReadError e :: _ =>
      {| yielded := out ++ [error_token e]; inserted := None |}
  end.

(** Lines 406-470. *)
Definition generate (b : backend) : relay :=
  match b with
  | ConnectError e => {| yielded := [error_token e]; inserted := None |}
  | Opened status_code text chunks =>
      if negb (status_code =? 200)%Z then
        let txt := default (py "Model error") text in
        {| yielded := [py "❌ LLM model error: " ++ txt]; inserted := None |}
      else relay_chunks chunks [] []
  end.

End Turn.
End Chat.

(** ** A concrete platform, for running the code on examples *)

Module Sample.
Import PyStr Weather Chat.

Definition digit (n : Z) : ascii := ascii_of_N (48 + Z.to_N (n mod 10)).

(** The last [width] decimal digits of [n], zero-padded. *)
Fixpoint zero_padded (width : nat) (n : Z) : str :=
  match width with
  | O => []
  | S w => zero_padded w (n / 10) ++ [digit n]
  end.

Fixpoint digits_fuel (fuel : nat) (n : Z) : str :=
  match fuel with
  | O => []
  | S f => if (n <? 10)%Z then [digit n] else digits_fuel f (n / 10) ++ [digit n]
  end.

Definition decimal (n : Z) : str :=
  if (n <? 0)%Z then py "-" ++ digits_fuel 64 (- n) else digits_fuel 64 n.

(** Proleptic Gregorian date of a day number counted from 1970-01-01. *)
Definition civil_from_days (days : Z) : Z * Z * Z :=
  let z := (days + 719468)%Z in
  let era := (z / 146097)%Z in
  let doe := (z - era * 146097)%Z in
  let yoe := ((doe - doe / 1460 + doe / 36524 - doe / 146096) / 365)%Z in
  let doy := (doe - (365 * yoe + yoe / 4 - yoe / 100))%Z in
  let mp := ((5 * doy + 2) / 153)%Z in
  let d := (doy - (153 * mp + 2) / 5 + 1)%Z in
  let m := (if (mp <? 10)%Z then mp + 3 else mp - 9)%Z in
  let y := (yoe + era * 400 + (if (m <=? 2)%Z then 1 else 0))%Z in
  (y, m, d).

(** [%Y-%m-%d] of [gmtime(ts)] *)
Definition iso_day (ts : Z) : str :=
  let '(y, m, d) := civil_from_days (ts / 86400) in
  zero_padded 4 y ++ py "-" ++ zero_padded 2 m ++ py "-" ++ zero_padded 2 d.

(** Fixed-point rendering, truncated: enough to tell keys apart. *)
Definition fixed4 (x : Q) : str :=
  let n := (Qnum (x * 10000) / Zpos (Qden (x * 10000)))%Z in
  decimal (n / 10000) ++ py "." ++ zero_padded 4 (n mod 10000).

Definition goa : geo :=
  {| geo_name := Some (py "Goa"); geo_lat := Some (Number 15.3%Q);
     geo_lon := Some (Number 74.08%Q); geo_country := Some (py "IN");
     geo_state := Some (py "Goa") |}.

Definition sample (ts : Z) (t : Q) (d : string) : fc_item :=
  {| dt := ts; main_temp := Some t; main_humidity := Some 70%Q;
     weather := Some [Some (py d)]; wind_speed := Some 3%Q |}.

(** Three samples on 2023-11-14 (UTC), one on the day after. *)
Definition forecast_items : list fc_item :=
  [ sample 1699963200 20 "clear sky";
    sample 1699974000 25 "light rain";
    sample 1699984800 30 "light rain";
    sample 1700049600 18 "clear sky" ].

(** The provider answers geocoding and forecast and fails on the rest. *)
Definition upstream (n : nat) (rq : request) : http_result :=
  match rq with
  | GeoReq _ => Response 200 (GeoBody [goa])
  | ForecastReq _ _ => Response 200 (ForecastBody forecast_items)
  | CurrentReq _ _ => Response 500 NotJson
  | AqiReq _ _ => ConnectionFailed
  end.

#[local] Instance platform : Platform := {|
  OWM_KEY := Some (py "key");
  time_time := fun n => inject_Z (1700000000 + Z.of_nat n);
  requests_get := upstream;
  format_4f := fixed4;
  format_int := decimal;
  format_float := fixed4;
  utc_day := iso_day;
  set_rank := fun _ _ => 0 |}.

(** A stand-in for the JSON decoding of a line: a line that opens with a
    brace carries the rest as its token, any other line does not parse. *)
Definition brace_token (line : str) : line_json :=
  match line with
  | "{"%char :: rest => Content rest
  | _ => Unparsable
  end.

Definition as_text (data : list Byte.byte) : str := map ascii_of_byte data.

Definition chunk_of (disconnected : bool) (s : string) : body_event :=
  Chunk disconnected (map byte_of_ascii (py s)).

(** Ten chunks; the client is found gone before the fourth. *)
Definition first_three : list body_event :=
  [ chunk_of false "{The
{ sky"; chunk_of false "{ is
"; chunk_of false "not json" ].

Definition last_six : list body_event :=
  [ chunk_of false "{ and"; chunk_of false "{ the"; chunk_of false "{ sea";
    chunk_of false "{ is"; chunk_of false "{ blue"; chunk_of false "{." ].

(** A stand-in for the serializer: it writes the location and the number
    of forecast days only. *)
Definition brief_json (indent : option Z) (pkt : packet) : str :=
  py "{location: " ++ Weather.location pkt ++ py ", days: "
    ++ decimal (Z.of_nat (length (default [] (forecast pkt)))) ++ py "}".

#[local] Instance json : Json := {| json_dumps := brief_json |}.

(** Two samples on one day with different descriptions, and a platform on
    which the set of the two iterates in the other order. *)
Definition tie_items : list fc_item :=
  [ sample 1699963200 20 "clear sky";
    sample 1699974000 25 "light rain" ].

Definition rain_first (l : list (option str)) (v : option str) : nat :=
  if decide (v = Some (py "light rain")) then 0 else 1.

#[local] Instance platform_rain_first : Platform := {|
  OWM_KEY := Some (py "key");
  time_time := fun n => inject_Z (1700000000 + Z.of_nat n);
  requests_get := upstream;
  format_4f := fixed4;
  format_int := decimal;
  format_float := fixed4;
  utc_day := iso_day;
  set_rank := rain_first |}.

End Sample.

(** ** The resolver in the words of the specification *)

Module Spec.
Import PyStr Re Location.

(** Normalization of a captured candidate: strip the stop-words, trim,
    reject a result of at most 2 characters, title-case. *)
Definition normalize (ic : bool) (stop : regex) (candidate : str)
    : option str :=
  let c := strip (sub_empty ic stop candidate) in
  if decide (length c <= 2) then None else Some (title c).

(** What the phrase patterns capture, in the order of the patterns. *)
Definition phrase_candidates (q : str) : list str :=
  omap (fun p => (fun m : matched => strip (group 1 m.1)) <$> search true p q)
    patterns.

(** What the reverse pattern captures. *)
Definition reverse_candidates (q : str) : list str :=
  option_list
    ((fun m : matched => strip (group 1 m.1)) <$> search false reverse_pattern q).

(** The trailing 3, then 2, then 1 words. *)
Definition trailing_candidates (q : str) : list str :=
  let words := split q in
  omap (fun size =>
          if decide (size <= length words)
          then Some (join (py " ") (last_n size words)) else None)
    [3; 2; 1].

(** First match wins. *)
Fixpoint first_surviving (l : list (option str)) : option str :=
  match l with
  | [] => None
  | Some x :: _ => Some x
  | None :: l' => first_surviving l'
  end.

(** The resolver with stop-word set [stop_p] for the pattern branches and
    [stop_t] for the trailing words. *)
Definition resolve_with (stop_p stop_t : regex) (query : str) : option str :=
  match query with
  | [] => None
  | _ =>
      let q := lower (strip query) in
      first_surviving
        (map (normalize true stop_p) (phrase_candidates q ++ reverse_candidates q)
           ++ map (normalize false stop_t) (trailing_candidates q))
  end.

(** A text with the stop-words the, at, in, for, near, th removed, in
    whatever case they are written, and trimmed. *)
Definition cleaned (x : str) : str :=
  strip (sub_empty true stop6 (strip x)).

End Spec.


(** ** The aggregation in the words of the specification *)

Module Stats.
Import PyStr Weather.


(** The samples that are there: the non-null ones, in their order. *)
Fixpoint non_null (l : list (option Q)) : list Q :=
  match l with
  | [] => []
  | Some x :: l' => x :: non_null l'
  | None :: l' => non_null l'
  end.




(** [x] occurs in [l] at least as often as any other value. *)
Definition is_mode (x : option str) (l : list (option str)) : Prop :=
  x ∈ l /\ forall y, count y l <= count x l.

(** [x] is a mode of [l], and the first of the modes in the enumeration
    [order]. *)
Definition is_first_mode_in (order : list (option str)) (x : option str)
    (l : list (option str)) : Prop :=
  is_mode x l /\
  exists l1 l2, order = l1 ++ x :: l2 /\
                forall y, y ∈ l1 -> count y l < count x l.

(** Strictly ascending order of date strings. *)
Definition str_lt (a b : str) : Prop := str_le a b /\ a <> b.

(** The description of one raw entry, when reading it does not fail. *)
Definition entry_description (it : fc_item) : option str :=
  match weather it with
  | Some (d :: _) => d
  | _ => None
  end.

(** Reading the description of the entry does not raise. *)
Definition readable (it : fc_item) : Prop := weather it <> Some [].


(** The slot of a day after the entries [its] were appended to [e]. *)
Definition appended (e : slot) (its : list fc_item) : slot :=
  {| temps := temps e ++ (main_temp <$> its);
     desc := desc e ++ (entry_description <$> its);
     winds := winds e ++ (wind_speed <$> its);
     hum := hum e ++ (main_humidity <$> its) |}.

(** What the dict holds for a day that had [o] and received [its]. *)
Definition merged (o : option slot) (its : list fc_item) : option slot :=
  match its with
  | [] => o
  | _ => Some (appended (default empty_slot o) its)
  end.

Section Days.
Context `{Platform}.

Definition day_of (it : fc_item) : str := utc_day (dt it).

(** The raw entries that fall on [day], in their order. *)
Definition samples_on (day : str) (items : list fc_item) : list fc_item :=
  filter (fun it => day_of it = day) items.

(** The days on which some entry falls. *)
Definition days_of (items : list fc_item) : gset str :=
  list_to_set (day_of <$> items).

End Days.
End Stats.

(** ** The cache contract in the words of the specification *)

Module Ttl.
Import PyStr Weather.

Section Tier.
Context `{Platform} {V : Type}.
(** The tier: its store and its time-to-live. *)
Variable cache : world -> gmap str (V * Q).
Variable ttl : Q.

(** The process after one more reading of the clock: same caches, same
    upstream requests. *)
Definition tick (w : world) : world :=
  {| _geo_cache := _geo_cache w; _current_cache := _current_cache w;
     _forecast_cache := _forecast_cache w; _aqi_cache := _aqi_cache w;
     ticks := S (ticks w); calls := calls w |}.

(** Within [ttl] of [fetched_at] the lookup returns the cached value and
    nothing is sent upstream. *)
Definition serves_fresh (get : M (option V)) (key : str) : Prop :=
  forall w v fetched_at,
    cache w !! key = Some (v, fetched_at) ->
    (time_time (ticks w) - fetched_at < ttl)%Q ->
    get w = (Return (Some v), tick w).

(** At or after [fetched_at + ttl] the lookup is a miss: the request [rq]
    goes upstream; a failed fetch leaves the stale entry in place, a
    successful one overwrites it with the value returned and the time of
    the next clock reading. *)
Definition refetches_stale (get : M (option V)) (key : str) (rq : request)
    : Prop :=
  forall w v fetched_at,
    cache w !! key = Some (v, fetched_at) ->
    (ttl <= time_time (ticks w) - fetched_at)%Q ->
    exists res w',
      get w = (Return res, w') /\
      calls w' = rq :: calls w /\
      match res with
      | None => cache w' = cache w
      | Some v' =>
          cache w' = <[key := (v', time_time (S (ticks w)))]> (cache w)
      end.

End Tier.
End Ttl.

(** ** main.py: chat titles *)

Module Title.
Import PyStr.

(** Lines 171-176. *)
Definition generate_chat_title (text : str) : str :=
  if negb (truthy text) then py "New Chat"
  else
    let w := take 4 (split text) in
    let t := join (py " ") w in
    if length t <=? 30 then t else take 27 t ++ py "...".

End Title.

(** ** main.py: the user of a request *)

Module Auth.
Import PyStr.

(** What the function reads of a request: cookies and headers by name. *)
Record request : Type := {
  cookies : str -> option str;
  headers : str -> option str }.

Inductive exn : Type :=
| HTTPException (status_code : Z) (detail : str)
| IndexError.

Inductive outcome : Type :=
| Return (uid : Z)
| Raise (e : exn).

(** What [jwt.decode] does with a token: one of its two exceptions, or the
    payload, of which only [sub] is read; [sub] is a string, as
    [create_access_token] writes it, or missing. *)
Inductive jwt_result : Type :=
| ExpiredSignatureError
| JWTError
| Payload (sub : option str).

(** The library calls: [jwt.decode(token, SECRET_KEY, algorithms=[ALGORITHM])]
    and [int(s)], [None] standing for its [ValueError]. *)
Class Jose : Type := {
  jwt_decode : str -> jwt_result;
  int_of_str : str -> option Z }.

(** [s.split(sep, 1)] for a one-character separator *)
Fixpoint split_once_acc (sep : ascii) (w : str) (s : str) : list str :=
  match s with
  | [] => [w]
  | c :: s' =>
      if Ascii.eqb c sep then [w; s'] else split_once_acc sep (w ++ [c]) s'
  end.

Definition split_once (sep : ascii) (s : str) : list str :=
  split_once_acc sep [] s.

(** [a or b] on nullable strings *)
Definition or_opt (a b : option str) : option str :=
  if truthy_opt a then a else b.

(** [token in ("", "null", "undefined")] *)
Definition placeholder (token : str) : bool :=
  bool_decide (token = py "") || bool_decide (token = py "null")
  || bool_decide (token = py "undefined").

Definition unauthorized (detail : string) : outcome :=
  Raise (HTTPException 401 (py detail)).

Section User.
Context `{Jose}.

(** Steps 1 and 2 of lines 132-167: the cookie, else the bearer header. *)
Definition find_token (request : request) : exn + option str :=
  let token := cookies request (py "access_token") in
  if negb (truthy_opt token) then
    let auth_header :=
      or_opt (headers request (py "authorization"))
        (headers request (py "Authorization")) in
    match auth_header with
    | Some h =>
        if truthy h && starts_with (py "bearer ") (lower h) then
          match split_once " " h with
          | _ :: rest :: _ => inr (Some (strip rest))
          | _ => inl IndexError
          end
        else inr token
    | None => inr token
    end
  else inr token.

(** Steps 3 to 6. *)
Definition check_token (token : option str) : outcome :=
  match token with
  | None => unauthorized "Not authenticated: token missing"
  | Some t =>
      if negb (truthy t) || placeholder t
      then unauthorized "Not authenticated: token missing"
      else
        match jwt_decode t with
        | ExpiredSignatureError => unauthorized "Token expired"
        | JWTError => unauthorized "Invalid token"
        | Payload uid =>
            match uid with
            | None => unauthorized "Invalid token payload: missing 'sub'"
            | Some u =>
                if negb (truthy u)
                then unauthorized "Invalid token payload: missing 'sub'"
                else
                  match int_of_str u with
                  | Some n => Return n
                  | None => unauthorized "Invalid user id in token"
                  end
            end
        end
  end.

Definition get_current_user_id (request : request) : outcome :=
  match find_token request with
  | inl e => Raise e
  | inr token => check_token token
  end.

End User.
End Auth.

(** ** database.py: the connection pool *)

Module Database.

(** Pools and connections are handles. *)
Definition pool : Type := nat.
Definition connection : Type := nat.

(** What a call into the driver does: a value, a [mysql.connector.Error],
    or some other exception. *)
Inductive attempt (A : Type) : Type :=
| Ok (a : A)
| Error
| Failure.
Arguments Ok {A} a.
Arguments Error {A}.
Arguments Failure {A}.

(** The driver: the [n]-th construction of a pool (with the settings of the
    environment), and the [n]-th request of a connection from a pool. *)
Class Driver : Type := {
  MySQLConnectionPool : nat -> attempt pool;
  pool_get_connection : pool -> nat -> attempt (option connection) }.

(** The module's global and the calls made into the driver so far. *)
Record process : Type := {
  POOL : option pool;
  pools_built : nat;
  connections_asked : nat }.

Section Pool.
Context `{Driver}.

(** Lines 13-30. *)
Definition init_pool (p : process) : attempt unit * process :=
  match POOL p with
  | Some _ => (Ok tt, p)
  | None =>
      let built := S (pools_built p) in
      match MySQLConnectionPool (pools_built p) with
      | Ok pl =>
          (Ok tt, {| POOL := Some pl; pools_built := built;
                     connections_asked := connections_asked p |})
      | Error =>
          (Error, {| POOL := None; pools_built := built;
                     connections_asked := connections_asked p |})
      | Failure =>
          (Failure, {| POOL := POOL p; pools_built := built;
                       connections_asked := connections_asked p |})
      end
  end.

(** The [except Error] clause of [get_db_connection]. *)
Definition on_error (p : process) : attempt (option connection) * process :=
  (Ok None, {| POOL := None; pools_built := pools_built p;
               connections_asked := connections_asked p |}).

(** Lines 33-50. *)
Definition get_db_connection (p : process)
    : attempt (option connection) * process :=
  match (match POOL p with None => init_pool p | Some _ => (Ok tt, p) end) with
  | (Ok _, p1) =>
      match POOL p1 with
      | Some pl =>
          let p2 :=
            {| POOL := POOL p1; pools_built := pools_built p1;
               connections_asked := S (connections_asked p1) |} in
          match pool_get_connection pl (connections_asked p1) with
          | Ok (Some conn) => (Ok (Some conn), p2)
          | Ok None => (Ok None, p2)
          | Error => on_error p2
          | Failure => (Failure, p2)
          end
      | None => (Failure, p1)
      end
  | (Error, p1) => on_error p1
  | (Failure, p1) => (Failure, p1)
  end.

(** The process after [n] calls of [get_db_connection]. *)
Fixpoint after_calls (n : nat) (p : process) : process :=
  match n with
  | O => p
  | S n' => after_calls n' (get_db_connection p).2
  end.

(** The driver raised its [Error] during the call made in [p]. *)
Definition driver_error (p : process) : Prop :=
  match POOL p with
  | Some pl => pool_get_connection pl (connections_asked p) = Error
  | None =>
      match MySQLConnectionPool (pools_built p) with
      | Ok pl => pool_get_connection pl (connections_asked p) = Error
      | Error => True
      | Failure => False
      end
  end.

End Pool.
End Database.

(** ** What a weather call may change *)

Module Frame.
Import PyStr Weather.

(** The four stores are as they were. *)
Definition same_caches (w w' : world) : Prop :=
  _geo_cache w' = _geo_cache w /\
  _current_cache w' = _current_cache w /\
  _forecast_cache w' = _forecast_cache w /\
  _aqi_cache w' = _aqi_cache w.

(** No key of the store was lost. *)
Definition keeps {V} (c c' : gmap str V) : Prop :=
  forall k, is_Some (c !! k) -> is_Some (c' !! k).

(** No store lost a key. *)
Definition caches_kept (w w' : world) : Prop :=
  keeps (_geo_cache w) (_geo_cache w') /\
  keeps (_current_cache w) (_current_cache w') /\
  keeps (_forecast_cache w) (_forecast_cache w') /\
  keeps (_aqi_cache w) (_aqi_cache w').

(** The requests sent between [w] and [w'], latest first. *)
Definition sent (new : list request) (w w' : world) : Prop :=
  calls w' = new ++ calls w.

(** What a lookup in one tier may do: send [rq] or nothing; leave the store
    as it is when it returns nothing; when it returns [v], hold [v] under
    [key], in the store as it was or with that one entry written. *)
Definition tier_effect {V} (cache : world -> gmap str (V * Q)) (key : str)
    (rq : request) (r : option V) (w w' : world) : Prop :=
  (sent [] w w' \/ sent [rq] w w') /\
  match r with
  | None => cache w' = cache w
  | Some v =>
      exists t, cache w' !! key = Some (v, t) /\
        (cache w' = cache w \/ cache w' = <[key := (v, t)]> (cache w))
  end.

End Frame.

(** ** More platforms for examples *)

Module Cases.
Import PyStr Weather Chat.

(** No provider key configured. *)
#[local] Instance keyless : Platform := {|
  OWM_KEY := None;
  time_time := fun n => inject_Z (1700000000 + Z.of_nat n);
  requests_get := Sample.upstream;
  format_4f := Sample.fixed4;
  format_int := Sample.decimal;
  format_float := Sample.fixed4;
  utc_day := Sample.iso_day;
  set_rank := fun _ _ => 0 |}.

(** A geocoder that sends the latitude as a string. *)
Definition upstream_text (n : nat) (rq : request) : http_result :=
  match rq with
  | GeoReq _ =>
      Response 200
        (GeoBody [ {| geo_name := Some (py "Goa"); geo_lat := Some Text;
                      geo_lon := Some (Number 74.08%Q);
                      geo_country := Some (py "IN");
                      geo_state := Some (py "Goa") |} ])
  | _ => Sample.upstream n rq
  end.

#[local] Instance text_latitude : Platform := {|
  OWM_KEY := Some (py "key");
  time_time := fun n => inject_Z (1700000000 + Z.of_nat n);
  requests_get := upstream_text;
  format_4f := Sample.fixed4;
  format_int := Sample.decimal;
  format_float := Sample.fixed4;
  utc_day := Sample.iso_day;
  set_rank := fun _ _ => 0 |}.

(** A forecast whose second entry has an empty [weather] list. *)
Definition broken_items : list fc_item :=
  [ Sample.sample 1699963200 20 "clear sky";
    {| dt := 1699974000; main_temp := Some 25%Q; main_humidity := None;
       weather := Some []; wind_speed := None |} ].

Definition upstream_broken (n : nat) (rq : request) : http_result :=
  match rq with
  | ForecastReq _ _ => Response 200 (ForecastBody broken_items)
  | _ => Sample.upstream n rq
  end.

#[local] Instance broken_forecast : Platform := {|
  OWM_KEY := Some (py "key");
  time_time := fun n => inject_Z (1700000000 + Z.of_nat n);
  requests_get := upstream_broken;
  format_4f := Sample.fixed4;
  format_int := Sample.decimal;
  format_float := Sample.fixed4;
  utc_day := Sample.iso_day;
  set_rank := fun _ _ => 0 |}.

(** A token store: "tok42" decodes to sub "42", "old" has expired. *)
Definition decode_sample (t : str) : Auth.jwt_result :=
  if bool_decide (t = py "tok42") then Auth.Payload (Some (py "42"))
  else if bool_decide (t = py "old") then Auth.ExpiredSignatureError
  else Auth.JWTError.

Definition int_sample (s : str) : option Z :=
  if bool_decide (s = py "42") then Some 42%Z else None.

#[local] Instance jose : Auth.Jose := {|
  Auth.jwt_decode := decode_sample;
  Auth.int_of_str := int_sample |}.

Definition with_cookie (t : string) : Auth.request :=
  {| Auth.cookies := fun name =>
       if bool_decide (name = py "access_token") then Some (py t) else None;
     Auth.headers := fun _ => None |}.

Definition with_header (h : string) : Auth.request :=
  {| Auth.cookies := fun _ => None;
     Auth.headers := fun name =>
       if bool_decide (name = py "authorization") then Some (py h) else None |}.

(** A driver whose first pool cannot be built and whose later ones work. *)
#[local] Instance flaky : Database.Driver := {|
  Database.MySQLConnectionPool := fun n =>
    match n with O => Database.Error | S _ => Database.Ok n end;
  Database.pool_get_connection := fun pl n => Database.Ok (Some (pl + n)) |}.

(** A driver that never fails. *)
#[local] Instance steady : Database.Driver := {|
  Database.MySQLConnectionPool := fun n => Database.Ok n;
  Database.pool_get_connection := fun pl n => Database.Ok (Some (pl + n)) |}.

(** A request with the cookie and, besides, an authorization header. *)
Definition with_both (t h : string) : Auth.request :=
  {| Auth.cookies := fun name =>
       if bool_decide (name = py "access_token") then Some (py t) else None;
     Auth.headers := fun name =>
       if bool_decide (name = py "authorization") then Some (py h) else None |}.

Definition cold : Database.process :=
  {| Database.POOL := None; Database.pools_built := 0;
     Database.connections_asked := 0 |}.

End Cases.

(** * Properties *)

Import PyStr Re Location Weather Chat.

(** ** Location resolution *)

(** C4. With last location "Pune", the query "what about tomorrow" is a
    follow-up by [is_weather_followup], yet the trailing-words fallback of
    [extract_location] already returns "What About Tomorrow", so the turn's
    location is that text and not "Pune". *)
Theorem followup_query_resolves_to_its_own_words :
  is_weather_followup (py "what about tomorrow") = true /\
  extract_location (py "what about tomorrow")
    = Some (py "What About Tomorrow") /\
  resolve_location (py "what about tomorrow") (Some (py "Pune"))
    = Some (py "What About Tomorrow").
Proof. by vm_compute. Qed.

Section Resolver.

Lemma first_surviving_app l1 l2 :
  Spec.first_surviving (l1 ++ l2) =
  match Spec.first_surviving l1 with
  | Some x => Some x
  | None => Spec.first_surviving l2
  end.
Proof.
  induction l1 as [|[x|] l1 IH]; simpl; auto.
Qed.

Lemma normalize_code ic stop c :
  Spec.normalize ic stop c =
  let c' := strip (sub_empty ic stop c) in
  if 2 <? length c' then Some (title c') else None.
Proof.
  unfold Spec.normalize. simpl.
  destruct (decide (length (strip (sub_empty ic stop c)) <= 2)) as [Hle|Hgt];
    destruct (Nat.ltb_spec 2 (length (strip (sub_empty ic stop c))));
    auto; lia.
Qed.

Lemma try_patterns_spec ps q :
  try_patterns ps q =
  Spec.first_surviving
    (map (Spec.normalize true stop6)
       (omap (fun p => (fun m : matched => strip (group 1 m.1))
                         <$> search true p q) ps)).
Proof.
  induction ps as [|p ps IH]; simpl; [reflexivity|].
  destruct (search true p q) as [[m rest]|]; simpl; [|exact IH].
  rewrite normalize_code. simpl.
  destruct (2 <? _); [reflexivity | exact IH].
Qed.

Lemma try_reverse_spec q :
  try_reverse q =
  Spec.first_surviving
    (map (Spec.normalize true stop6) (Spec.reverse_candidates q)).
Proof.
  unfold try_reverse, Spec.reverse_candidates.
  destruct (search false reverse_pattern q) as [[m rest]|]; simpl; [|reflexivity].
  rewrite normalize_code. simpl.
  by destruct (2 <? _).
Qed.

Lemma try_sizes_spec sizes words :
  try_sizes sizes words =
  Spec.first_surviving
    (map (Spec.normalize false stop8)
       (omap (fun size =>
                if decide (size <= length words)
                then Some (join (py " ") (last_n size words)) else None)
          sizes)).
Proof.
  induction sizes as [|size sizes IH]; simpl; [reflexivity|].
  destruct (decide (size <= length words)) as [Hle|Hgt];
    destruct (Nat.leb_spec size (length words)); try lia; simpl; [|exact IH].
  rewrite normalize_code. simpl.
  destruct (2 <? _); [reflexivity | exact IH].
Qed.

Lemma try_fallback_spec q :
  try_fallback q =
  Spec.first_surviving
    (map (Spec.normalize false stop8) (Spec.trailing_candidates q)).
Proof.
  unfold try_fallback, Spec.trailing_candidates.
  destruct (Nat.leb_spec 1 (length (split q))) as [Hle|Hlt].
  - apply try_sizes_spec.
  - assert (Hnil : split q = []) by (destruct (split q); simpl in *; [done | lia]).
    rewrite Hnil. reflexivity.
Qed.

Lemma extract_location_spec query :
  extract_location query = Spec.resolve_with stop6 stop8 query.
Proof.
  unfold extract_location, Spec.resolve_with.
  destruct query as [|c query]; [reflexivity|].
  cbn [truthy negb].
  set (q := lower (strip (c :: query))).
  rewrite first_surviving_app, map_app, first_surviving_app.
  unfold Spec.phrase_candidates.
  rewrite <- try_patterns_spec, <- try_reverse_spec, <- try_fallback_spec.
  destruct (try_patterns patterns q); [reflexivity|].
  by destruct (try_reverse q).
Qed.

Lemma first_surviving_title l r :
  Spec.first_surviving l = Some r ->
  exists o, o ∈ l /\ o = Some r.
Proof.
  induction l as [|[x|] l IH]; simpl; intros Hr; [done| |].
  - exists (Some x). split; [left | done].
  - destruct (IH Hr) as (o & Hin & Ho). exists o. split; [by right | done].
Qed.

Lemma normalize_title ic stop c r :
  Spec.normalize ic stop c = Some r ->
  exists c', r = title c' /\ 2 < length c'.
Proof.
  unfold Spec.normalize. simpl.
  destruct (decide _) as [|Hgt]; [done|].
  intros [= <-]. eexists. split; [reflexivity | lia].
Qed.

(** Whatever [extract_location] returns is a title-cased text of more than
    two characters. *)
Lemma extract_location_title query r :
  extract_location query = Some r ->
  exists c, r = title c /\ 2 < length c.
Proof.
  rewrite extract_location_spec. unfold Spec.resolve_with.
  destruct query as [|a query]; [done|].
  intros Hr. apply first_surviving_title in Hr as (o & Hin & ->).
  apply elem_of_app in Hin as [Hin|Hin];
    apply list_elem_of_fmap in Hin as (c & Hc & _);
    symmetry in Hc; eauto using normalize_title.
Qed.

Lemma last_n_1 {A} (l : list A) (x : A) :
  last l = Some x -> last_n 1 l = [x].
Proof.
  intros Hl. apply last_Some in Hl as [l' ->].
  unfold last_n. rewrite length_app. simpl.
  replace (length l' + 1 - 1) with (length l') by lia.
  by rewrite drop_app_length.
Qed.

Lemma try_sizes_last sizes words w :
  1 ∈ sizes ->
  last words = Some w ->
  2 < length (strip (sub_empty false stop8 w)) ->
  try_sizes sizes words <> None.
Proof.
  intros Hin Hlast Hlen.
  induction sizes as [|size sizes IH]; [by apply elem_of_nil in Hin|].
  cbn [try_sizes]. apply elem_of_cons in Hin as [<-|Hin].
  - assert (Hpos : 1 <= length words).
    { apply last_Some in Hlast as [l' ->]. rewrite length_app. simpl. lia. }
    destruct (Nat.leb_spec 1 (length words)); [|lia].
    rewrite (last_n_1 _ _ Hlast). cbn [join].
    by destruct (Nat.ltb_spec 2 (length (strip (sub_empty false stop8 w))));
      [|lia].
  - destruct (size <=? length words); [|by apply IH].
    destruct (2 <? _); [done | by apply IH].
Qed.

Lemma split_nil_query query :
  split (lower (strip query)) <> [] -> query <> [].
Proof. intros Hs ->. by apply Hs. Qed.

End Resolver.

(** C8, as stated: every branch would normalize with the eight stop-words.
    The phrase branch does not: in "weather in paris is" it keeps "is". *)
Lemma uniform_stop_words_refuted :
  ~ (forall query : str,
       extract_location query = Spec.resolve_with stop8 stop8 query).
Proof.
  intros Hall. specialize (Hall (py "weather in paris is")).
  vm_compute in Hall. discriminate Hall.
Qed.

(** C8, amended: a candidate captured by a phrase pattern or by the reverse
    pattern is stripped of the six stop-words the, at, in, for, near, th
    (case-insensitively); a trailing-words candidate is stripped of the
    eight the, at, in, for, near, th, is, present; either is then trimmed,
    rejected when at most 2 characters long, and title-cased; the first
    candidate that survives, in the order phrase patterns, reverse pattern,
    trailing 3, 2, 1 words, is the result. *)
Theorem candidates_normalized_per_branch (query : str) :
  extract_location query = Spec.resolve_with stop6 stop8 query.
Proof. apply extract_location_spec. Qed.

(** C10. When the last word of the query, stripped of the eight stop-words,
    is longer than 2 characters, [extract_location] returns a title-cased
    candidate, whatever the query is about; and when it returns nothing,
    each of the trailing 3, 2 and 1 words candidates was reduced to at most
    2 characters. *)
Theorem trailing_words_fallback_catches (query : str) :
  (forall w : str,
     last (split (lower (strip query))) = Some w ->
     2 < length (strip (sub_empty false stop8 w)) ->
     exists c, extract_location query = Some (title c) /\ 2 < length c) /\
  (extract_location query = None ->
   forall c, c ∈ Spec.trailing_candidates (lower (strip query)) ->
             length (strip (sub_empty false stop8 c)) <= 2).
Proof.
  split.
  - intros w Hlast Hlen.
    assert (Hq : query <> []).
    { apply split_nil_query. intros Hnil. by rewrite Hnil in Hlast. }
    destruct (extract_location query) as [r|] eqn:Hr.
    { destruct (extract_location_title _ _ Hr) as (c & -> & Hc). eauto. }
    exfalso. unfold extract_location in Hr.
    destruct query as [|a query]; [done|]. cbn [truthy negb] in Hr.
    set (q := lower (strip (a :: query))) in *.
    destruct (try_patterns patterns q); [done|].
    destruct (try_reverse q); [done|].
    unfold try_fallback in Hr.
    assert (Hpos : 1 <= length (split q)).
    { destruct (split q); simpl in *; [done | lia]. }
    destruct (Nat.leb_spec 1 (length (split q))); [|lia].
    revert Hr. apply (try_sizes_last _ _ w); [set_solver | done | done].
  - rewrite extract_location_spec. unfold Spec.resolve_with.
    destruct query as [|a query].
    { intros _ c Hc. vm_compute in Hc. by apply elem_of_nil in Hc. }
    set (q := lower (strip (a :: query))).
    rewrite first_surviving_app. intros Hnone c Hc.
    destruct (Spec.first_surviving
                (map (Spec.normalize true stop6)
                   (Spec.phrase_candidates q ++ Spec.reverse_candidates q)));
      [done|].
    destruct (decide (length (strip (sub_empty false stop8 c)) <= 2)) as [|Hgt];
      [done|].
    exfalso.
    assert (Hn : Spec.normalize false stop8 c
                 = Some (title (strip (sub_empty false stop8 c)))).
    { unfold Spec.normalize. simpl. by destruct (decide _). }
    clear -Hnone Hc Hn.
    induction (Spec.trailing_candidates q) as [|c0 l IH]; [by apply elem_of_nil in Hc|].
    simpl in Hnone. apply elem_of_cons in Hc as [->|Hc].
    + by rewrite Hn in Hnone.
    + destruct (Spec.normalize false stop8 c0); [done | by apply IH].
Qed.

Lemma trailing_words_fallback_catches_witness :
  exists c, extract_location (py "tell me a joke") = Some (title c)
            /\ 2 < length c.
Proof.
  apply (proj1 (trailing_words_fallback_catches (py "tell me a joke"))
           (py "joke")).
  - vm_compute. reflexivity.
  - vm_compute. lia.
Defined.

(** ** Forecast aggregation *)

Section Numbers.











(** [max(..., key=...)] returns the first element with the largest key. *)
Lemma max_key_from_first {A} (key : A -> nat) l seen cur l1 l2 :
  seen = l1 ++ cur :: l2 ->
  (forall y, y ∈ l1 -> key y < key cur) ->
  (forall y, y ∈ l2 -> key y <= key cur) ->
  exists r1 r2,
    seen ++ l = r1 ++ max_key_from key cur l :: r2 /\
    (forall y, y ∈ r1 -> key y < key (max_key_from key cur l)) /\
    (forall y, y ∈ r2 -> key y <= key (max_key_from key cur l)).
Proof.
  revert seen cur l1 l2. induction l as [|x l IH]; intros seen cur l1 l2 Hs H1 H2.
  - simpl. exists l1, l2. by rewrite app_nil_r.
  - simpl. destruct (Nat.ltb_spec (key cur) (key x)) as [Hlt|Hge].
    + destruct (IH (seen ++ [x]) x seen []) as (r1 & r2 & Hr & Hr1 & Hr2).
      * reflexivity.
      * intros y Hy. subst seen.
        apply elem_of_app in Hy as [Hy|Hy]; [specialize (H1 y Hy); lia|].
        apply elem_of_cons in Hy as [->|Hy]; [done|].
        specialize (H2 y Hy). lia.
      * intros y Hy. by apply elem_of_nil in Hy.
      * exists r1, r2. by rewrite <- Hr, <- app_assoc.
    + destruct (IH (seen ++ [x]) cur l1 (l2 ++ [x])) as (r1 & r2 & Hr & Hr1 & Hr2).
      * subst seen. by rewrite <- app_assoc.
      * done.
      * intros y Hy. apply elem_of_app in Hy as [Hy|Hy]; [by apply H2|].
        apply list_elem_of_singleton in Hy as ->. done.
      * exists r1, r2. by rewrite <- Hr, <- app_assoc.
Qed.

Lemma count_not_elem `{EqDecision A} (x : A) l : x ∉ l -> count x l = 0.
Proof.
  induction l as [|y l IH]; simpl; [done|]. intros Hn.
  apply not_elem_of_cons in Hn as [Hne Hn]. rewrite (IH Hn).
  by destruct (decide (y = x)) as [->|].
Qed.

End Numbers.

Section DateOrder.

Lemma code_inj a b : code a = code b -> a = b.
Proof.
  unfold code. intros Hc.
  rewrite <- (ascii_N_embedding a), <- (ascii_N_embedding b). by rewrite Hc.
Qed.

#[global] Instance str_le_total : Total str_le.
Proof.
  intros a. unfold str_le. induction a as [|x a IH]; intros [|y b]; simpl; auto.
  destruct (N.ltb_spec (code x) (code y)), (N.ltb_spec (code y) (code x));
    auto; try lia.
  destruct (N.eqb_spec (code x) (code y)), (N.eqb_spec (code y) (code x));
    auto; try lia.
Qed.

#[global] Instance str_le_trans : Transitive str_le.
Proof.
  intros a. unfold str_le.
  induction a as [|x a IH]; intros [|y b] [|z c]; simpl; auto; try discriminate.
  destruct (N.ltb_spec (code x) (code y)), (N.ltb_spec (code y) (code z)),
    (N.ltb_spec (code x) (code z)); auto; try lia;
  destruct (N.eqb_spec (code x) (code y)), (N.eqb_spec (code y) (code z)),
    (N.eqb_spec (code x) (code z)); auto; try lia; try discriminate.
  apply IH.
Qed.

#[global] Instance str_le_antisymm : AntiSymm (=) str_le.
Proof.
  intros a. unfold str_le.
  induction a as [|x a IH]; intros [|y b]; simpl; auto; try discriminate.
  destruct (N.ltb_spec (code x) (code y)), (N.ltb_spec (code y) (code x)),
    (N.eqb_spec (code x) (code y)) as [Hc|], (N.eqb_spec (code y) (code x));
    try lia; try discriminate.
  intros Hab Hba. f_equal; [by apply code_inj | by apply IH].
Qed.

Lemma sorted_perm l : sorted l ≡ₚ l.
Proof. apply merge_sort_Permutation. Qed.

Lemma sorted_ascending l : StronglySorted str_le (sorted l).
Proof. apply StronglySorted_merge_sort; apply _. Qed.

Lemma strongly_sorted_strict l :
  NoDup l -> StronglySorted str_le l -> StronglySorted Stats.str_lt l.
Proof.
  induction l as [|x l IH]; intros Hnd Hs; [constructor|].
  apply NoDup_cons in Hnd as [Hx Hnd].
  apply StronglySorted_cons in Hs as [Hall Hs].
  apply StronglySorted_cons. split; [|by apply IH].
  apply Forall_forall. intros y Hy. split.
  - by apply (proj1 (Forall_forall _ _) Hall).
  - intros ->. done.
Qed.

Lemma strongly_sorted_take {A} (R : relation A) n l :
  StronglySorted R l -> StronglySorted R (take n l).
Proof.
  intros Hs. rewrite <- (take_drop n l) in Hs.
  by apply StronglySorted_app_1_l in Hs.
Qed.


End DateOrder.

Section Aggregation.
Context `{Platform}.

Lemma add_sample_readable daily it w :
  Stats.readable it ->
  add_sample daily it w =
  (Return (<[Stats.day_of it :=
               Stats.appended (default empty_slot (daily !! Stats.day_of it)) [it]]>
             daily), w).
Proof.
  unfold Stats.readable, add_sample, Stats.appended, Stats.entry_description,
    Stats.day_of, first_description.
  cbn [fmap list_fmap].
  destruct (weather it) as [[|d l]|]; [done| |]; reflexivity.
Qed.

Lemma appended_cons e it its :
  Stats.appended e (it :: its) = Stats.appended (Stats.appended e [it]) its.
Proof.
  unfold Stats.appended. simpl. f_equal; by rewrite <- app_assoc.
Qed.

Lemma group_by_day_readable items daily w :
  Forall Stats.readable items ->
  exists D,
    group_by_day items daily w = (Return D, w) /\
    forall d, D !! d = Stats.merged (daily !! d) (Stats.samples_on d items).
Proof.
  intros Hall. revert daily.
  induction Hall as [|it items Hit Hall IH]; intros daily.
  - exists daily. split; [reflexivity | done].
  - cbn [group_by_day]. unfold mbind, M_bind at 1.
    rewrite (add_sample_readable _ _ _ Hit).
    destruct (IH (<[Stats.day_of it :=
                     Stats.appended
                       (default empty_slot (daily !! Stats.day_of it)) [it]]>
                    daily)) as (D & HD & Hlook).
    exists D. split; [exact HD|].
    intros d. rewrite Hlook. unfold Stats.samples_on.
    destruct (decide (Stats.day_of it = d)) as [<-|Hne].
    + rewrite lookup_insert_eq, filter_cons_True by done.
      unfold Stats.merged.
      destruct (filter _ items) as [|it' rest]; [done|].
      rewrite (appended_cons _ it (it' :: rest)). reflexivity.
    + by rewrite lookup_insert_ne, filter_cons_False.
Qed.

Lemma merged_empty its :
  Stats.merged None its =
  match its with
  | [] => None
  | _ =>
      Some {| temps := main_temp <$> its;
              desc := Stats.entry_description <$> its;
              winds := wind_speed <$> its;
              hum := main_humidity <$> its |}
  end.
Proof. by destruct its. Qed.

Lemma samples_on_nonempty d items :
  Stats.samples_on d items <> [] <-> d ∈ Stats.days_of items.
Proof.
  unfold Stats.days_of, Stats.samples_on.
  rewrite elem_of_list_to_set, list_elem_of_fmap. split.
  - intros Hne. destruct (filter _ items) as [|it l] eqn:E; [done|].
    assert (Hin : it ∈ filter (fun it => Stats.day_of it = d) items)
      by (rewrite E; left).
    apply list_elem_of_filter in Hin as [Hd Hin]. eauto.
  - intros (it & -> & Hin) Hnil.
    assert (Hf : it ∈ filter (fun it' => Stats.day_of it' = Stats.day_of it) items)
      by (by apply list_elem_of_filter).
    rewrite Hnil in Hf. by apply elem_of_nil in Hf.
Qed.

(** The dict after the first loop, started empty. *)
Lemma group_by_day_from_empty items w :
  Forall Stats.readable items ->
  exists D,
    group_by_day items ∅ w = (Return D, w) /\
    dom D = Stats.days_of items /\
    forall d, d ∈ Stats.days_of items ->
      D !! d =
      Some {| temps := main_temp <$> Stats.samples_on d items;
              desc := Stats.entry_description <$> Stats.samples_on d items;
              winds := wind_speed <$> Stats.samples_on d items;
              hum := main_humidity <$> Stats.samples_on d items |}.
Proof.
  intros Hall.
  destruct (group_by_day_readable items ∅ w Hall) as (D & HD & Hlook).
  exists D. split; [exact HD|].
  assert (Hl : forall d, D !! d = Stats.merged None (Stats.samples_on d items)).
  { intros d. by rewrite Hlook, lookup_empty. }
  split.
  - apply set_eq. intros d. rewrite elem_of_dom, Hl, merged_empty.
    rewrite <- samples_on_nonempty.
    destruct (Stats.samples_on d items); split; intros Hx;
      try done; try by destruct Hx.
  - intros d Hd. rewrite Hl, merged_empty.
    apply samples_on_nonempty in Hd. by destruct (Stats.samples_on d items).
Qed.

Lemma keys_sorted_strict (D : gmap str slot) :
  StronglySorted Stats.str_lt (sorted (keys D)).
Proof.
  apply strongly_sorted_strict; [|apply sorted_ascending].
  rewrite sorted_perm. unfold keys. apply NoDup_elements.
Qed.

Lemma elem_of_sorted_keys (D : gmap str slot) d :
  d ∈ sorted (keys D) <-> d ∈ dom D.
Proof. rewrite sorted_perm. unfold keys. apply elem_of_elements. Qed.

Lemma length_sorted_keys (D : gmap str slot) :
  length (sorted (keys D)) = size (dom D).
Proof. rewrite sorted_perm. reflexivity. Qed.

Lemma slice_to_subset {A} (n : Z) (l : list A) x :
  x ∈ slice_to n l -> x ∈ l.
Proof.
  unfold slice_to. destruct (n <? 0)%Z; intros Hx;
    by apply subseteq_take in Hx.
Qed.

Lemma dates_of_result (D : gmap str slot) days :
  date <$> daily_result D days = slice_to days (sorted (keys D)).
Proof.
  unfold daily_result.
  induction (slice_to days (sorted (keys D))) as [|d l IH]; [done|].
  simpl. f_equal. exact IH.
Qed.

(** The iteration order of [set(l)] lists the distinct values of [l]. *)
Lemma set_iter_enumerates l :
  NoDup (set_iter l) /\ forall x, x ∈ set_iter l <-> x ∈ l.
Proof.
  unfold set_iter. split.
  - rewrite merge_sort_Permutation. apply NoDup_remove_dups.
  - intros x. rewrite merge_sort_Permutation. apply elem_of_remove_dups.
Qed.

Lemma most_common_first_mode l :
  l <> [] -> Stats.is_first_mode_in (set_iter l) (most_common l) l.
Proof.
  intros Hne. destruct (set_iter_enumerates l) as [_ Hin].
  unfold most_common. destruct l as [|a l]; [done|].
  destruct (set_iter (a :: l)) as [|x rest] eqn:E.
  { exfalso. assert (Ha : a ∈ a :: l) by left.
    apply Hin in Ha. by apply elem_of_nil in Ha. }
  set (key := fun v => count v (a :: l)).
  destruct (max_key_from_first key rest [x] x [] [] eq_refl)
    as (r1 & r2 & Hr & Hr1 & Hr2).
  { intros y Hy. by apply elem_of_nil in Hy. }
  { intros y Hy. by apply elem_of_nil in Hy. }
  simpl in Hr.
  assert (Hmem : max_key_from key x rest ∈ x :: rest).
  { rewrite Hr. apply elem_of_app. right. left. }
  split; [split|].
  - by apply Hin.
  - intros y. destruct (decide (y ∈ a :: l)) as [Hy|Hy].
    + apply Hin in Hy. rewrite Hr in Hy.
      apply elem_of_app in Hy as [Hy|Hy].
      * apply Nat.lt_le_incl, (Hr1 y Hy).
      * apply elem_of_cons in Hy as [->|Hy]; [done|]. apply (Hr2 y Hy).
    + rewrite (count_not_elem _ _ Hy). lia.
  - exists r1, r2. split; [exact Hr | exact Hr1].
Qed.

(** What [aggregate] returns, entry by entry. *)
Lemma aggregate_readable items days w :
  Forall Stats.readable items ->
  exists result,
    aggregate items days w = (Return result, w) /\
    (exists D : gmap str slot,
        dom D = Stats.days_of items /\
        date <$> result = slice_to days (sorted (keys D))) /\
    forall e, e ∈ result ->
      date e ∈ Stats.days_of items /\
      e = summarize (date e)
            {| temps := main_temp <$> Stats.samples_on (date e) items;
               desc := Stats.entry_description
                         <$> Stats.samples_on (date e) items;
               winds := wind_speed <$> Stats.samples_on (date e) items;
               hum := main_humidity <$> Stats.samples_on (date e) items |}.
Proof.
  intros Hall.
  destruct (group_by_day_from_empty items w Hall) as (D & HD & Hdom & Hlook).
  exists (daily_result D days). split; [|split].
  - unfold aggregate, mbind, M_bind. by rewrite HD.
  - exists D. split; [done | apply dates_of_result].
  - intros e He. unfold daily_result in He.
    apply list_elem_of_In, in_map_iff in He as (d & <- & Hd).
    apply list_elem_of_In in Hd.
    apply slice_to_subset, elem_of_sorted_keys in Hd.
    rewrite Hdom in Hd. cbn [date summarize]. split; [done|].
    by rewrite (Hlook d Hd).
Qed.

End Aggregation.

Section AggregationClaims.
Context `{Platform}.


(** C9, amended. [common_description] is a statistical mode of the day's
    per-entry descriptions: it occurs among them at least as often as any
    other value. Among the values that tie, the one returned is the first in
    the iteration order of the set of distinct descriptions, an enumeration
    without repetition whose order the platform chooses; it need not be the
    first encountered. *)
Theorem common_description_is_a_mode (items : list fc_item) (days : Z)
    (w : world) :
  Forall Stats.readable items ->
  exists result,
    aggregate items days w = (Return result, w) /\
    forall e, e ∈ result ->
      let D := Stats.entry_description <$> Stats.samples_on (date e) items in
      NoDup (set_iter D) /\
      (forall x, x ∈ set_iter D <-> x ∈ D) /\
      Stats.is_first_mode_in (set_iter D) (common_description e) D.
Proof.
  intros Hall.
  destruct (aggregate_readable items days w Hall)
    as (result & Hagg & _ & Hentries).
  exists result. split; [exact Hagg|].
  intros e He. destruct (Hentries e He) as [Hday He'].
  cbn zeta.
  destruct (set_iter_enumerates
              (Stats.entry_description <$> Stats.samples_on (date e) items))
    as [Hnd Hin].
  split; [exact Hnd|]. split; [exact Hin|].
  apply samples_on_nonempty in Hday.
  clear He Hnd Hin. set (d := date e) in *. clearbody d. subst e.
  cbn [summarize common_description desc].
  apply most_common_first_mode.
  by destruct (Stats.samples_on d items).
Qed.

End AggregationClaims.


(** Samples 20, 25 and 30 on one UTC day give minimum 20, maximum 30 and
    mean 25. *)
Example three_samples_one_day :
  exists e rest,
    (aggregate (H := Sample.platform) Sample.forecast_items 5 fresh).1
      = Return (e :: rest) /\
    Stats.non_null
      (main_temp <$> Stats.samples_on (H := Sample.platform) (date e)
                       Sample.forecast_items) = [20; 25; 30]%Q /\
    temp_min_c e = Some 20%Q /\ temp_max_c e = Some 30%Q /\
    option_relation Qeq (fun _ => False) (fun _ => False) (temp_avg_c e) (Some 25%Q).
Proof.
  vm_compute. do 2 eexists. split; [reflexivity|].
  repeat split; reflexivity.
Qed.


(** C9, as stated: ties would go to the first-encountered description. With
    "clear sky" then "light rain" on one day, and a platform whose set
    iterates "light rain" first, the entry says "light rain". *)
Lemma first_encountered_tie_break_refuted :
  ~ (forall (P : Platform) (items : list fc_item) (days : Z) (w : world)
            (result : list daily_forecast) (e : daily_forecast),
       aggregate (H := P) items days w = (Return result, w) ->
       e ∈ result ->
       let D := Stats.entry_description
                  <$> Stats.samples_on (H := P) (date e) items in
       Stats.is_first_mode_in D (common_description e) D).
Proof.
  intros Hall.
  assert (Hrun : exists e,
             aggregate (H := Sample.platform_rain_first) Sample.tie_items 5 fresh
               = (Return [e], fresh) /\
             common_description e = Some (py "light rain") /\
             Stats.entry_description
               <$> Stats.samples_on (H := Sample.platform_rain_first) (date e)
                     Sample.tie_items
             = [Some (py "clear sky"); Some (py "light rain")]).
  { vm_compute. eexists. split; [reflexivity|]. split; reflexivity. }
  destruct Hrun as (e & Hagg & Hdesc & HD).
  specialize (Hall _ _ _ _ _ e Hagg (list_elem_of_here _ _)).
  cbn zeta in Hall. rewrite HD, Hdesc in Hall.
  destruct Hall as [_ (l1 & l2 & Heq & Hlt)].
  destruct l1 as [|a [|b l1]].
  - apply (f_equal head) in Heq. vm_compute in Heq. discriminate Heq.
  - specialize (Hlt a (list_elem_of_here _ _)).
    apply (f_equal head) in Heq. cbn [head app] in Heq.
    injection Heq as <-. vm_compute in Hlt. lia.
  - apply (f_equal length) in Heq. cbn [length app] in Heq.
    rewrite length_app in Heq. cbn [length] in Heq. lia.
Qed.

Lemma common_description_is_a_mode_witness :
  exists result,
    aggregate (H := Sample.platform_rain_first) Sample.tie_items 5 fresh
      = (Return result, fresh) /\
    forall e, e ∈ result ->
      let D := Stats.entry_description
                 <$> Stats.samples_on (H := Sample.platform_rain_first) (date e)
                       Sample.tie_items in
      NoDup (set_iter (H := Sample.platform_rain_first) D) /\
      (forall x, x ∈ set_iter (H := Sample.platform_rain_first) D <-> x ∈ D) /\
      Stats.is_first_mode_in (set_iter (H := Sample.platform_rain_first) D)
        (common_description e) D.
Proof.
  apply (common_description_is_a_mode (H := Sample.platform_rain_first)).
  unfold Sample.tie_items, Stats.readable.
  repeat constructor; discriminate.
Defined.

(** ** The caches *)

Section Caches.
Context `{Platform}.

Lemma Qltb_of_lt a b : (a < b)%Q -> Qltb a b = true.
Proof. intros Hlt. unfold Qltb. by rewrite (proj1 (Qlt_alt a b) Hlt). Qed.

Lemma Qltb_of_le a b : (b <= a)%Q -> Qltb a b = false.
Proof.
  intros Hle. unfold Qltb. destruct (a ?= b)%Q eqn:E; try reflexivity.
  apply (proj2 (Qlt_alt a b)) in E. exfalso. by apply (Qlt_not_le a b).
Qed.

(** The first loop leaves the process as it is, also when it raises. *)
Lemma group_by_day_world items daily w : (group_by_day items daily w).2 = w.
Proof.
  revert daily. induction items as [|it items IH]; intros daily; [done|].
  cbn [group_by_day]. unfold mbind, M_bind at 1.
  unfold add_sample, first_description.
  destruct (weather it) as [[|d l]|]; simpl; try done; apply IH.
Qed.

Lemma aggregate_world items days w : (aggregate items days w).2 = w.
Proof.
  unfold aggregate, mbind, M_bind.
  pose proof (group_by_day_world items ∅ w) as Hw.
  destruct (group_by_day items ∅ w) as [[D|e] w']; simpl in *; by subst.
Qed.

Lemma run_bind {A B} (m : M A) (f : A -> M B) w :
  (m ≫= f) w =
  match m w with
  | (Return a, w') => f a w'
  | (Raise e, w') => (Raise e, w')
  end.
Proof. reflexivity. Qed.

Lemma run_try {A} (body handler : M A) w :
  try_except body handler w =
  match body w with
  | (Return a, w') => (Return a, w')
  | (Raise _, w') => handler w'
  end.
Proof. reflexivity. Qed.

Lemma run_ret {A} (a : A) w : (mret a : M A) w = (Return a, w).
Proof. reflexivity. Qed.

Lemma run_http rq w :
  http_get rq w =
  match requests_get (length (calls w)) rq with
  | ConnectionFailed =>
      (Raise RequestException,
       {| _geo_cache := _geo_cache w; _current_cache := _current_cache w;
          _forecast_cache := _forecast_cache w; _aqi_cache := _aqi_cache w;
          ticks := ticks w; calls := rq :: calls w |})
  | Response status_code json =>
      (Return (status_code, json),
       {| _geo_cache := _geo_cache w; _current_cache := _current_cache w;
          _forecast_cache := _forecast_cache w; _aqi_cache := _aqi_cache w;
          ticks := ticks w; calls := rq :: calls w |})
  end.
Proof. unfold http_get. by destruct (requests_get _ _). Qed.

Lemma run_key prefix (lat lon : Q) w :
  key_of prefix lat lon w = (Return (coord_key prefix lat lon), w).
Proof. reflexivity. Qed.

Ltac run_monad :=
  repeat first
    [ rewrite run_bind
    | rewrite run_try
    | rewrite run_ret
    | rewrite run_http
    | rewrite run_key
    | progress cbn [raise still_fresh _now_ts
        http_get get_geo_cache get_current_cache get_forecast_cache
        get_aqi_cache set_geo_cache set_current_cache set_forecast_cache
        set_aqi_cache first_description fst snd negb
        _geo_cache _current_cache _forecast_cache _aqi_cache ticks calls] ].

Lemma geocode_serves_fresh location :
  truthy_opt OWM_KEY = true ->
  Ttl.serves_fresh _geo_cache GEO_TTL (geocode_location location)
    (lower (strip location)).
Proof.
  intros Hkey w v fetched_at Hlook Hlt.
  unfold geocode_location. rewrite Hkey. run_monad.
  rewrite Hlook. run_monad. by rewrite (Qltb_of_lt _ _ Hlt).
Qed.

Lemma geocode_refetches_stale location :
  truthy_opt OWM_KEY = true ->
  Ttl.refetches_stale _geo_cache GEO_TTL (geocode_location location)
    (lower (strip location)) (GeoReq location).
Proof.
  intros Hkey w v fetched_at Hlook Hle.
  unfold geocode_location. rewrite Hkey. run_monad.
  rewrite Hlook. run_monad. rewrite (Qltb_of_le _ _ Hle). run_monad.
  destruct (requests_get (length (calls w)) (GeoReq location))
    as [|status [|[|top data]|d|items|l]];
    run_monad; try destruct (status =? 200)%Z; run_monad;
    eexists _, _; (split; [reflexivity|]); run_monad; done.
Qed.

Lemma current_serves_fresh (lat lon : Q) :
  truthy_opt OWM_KEY = true ->
  Ttl.serves_fresh _current_cache CURRENT_TTL
    (_fetch_current_weather_by_coord lat lon) (coord_key "cur:" lat lon).
Proof.
  intros Hkey w v fetched_at Hlook Hlt.
  unfold _fetch_current_weather_by_coord. rewrite Hkey. run_monad.
  rewrite Hlook. run_monad. by rewrite (Qltb_of_lt _ _ Hlt).
Qed.

Lemma current_refetches_stale (lat lon : Q) :
  truthy_opt OWM_KEY = true ->
  Ttl.refetches_stale _current_cache CURRENT_TTL
    (_fetch_current_weather_by_coord lat lon) (coord_key "cur:" lat lon)
    (CurrentReq lat lon).
Proof.
  intros Hkey w v fetched_at Hlook Hle.
  unfold _fetch_current_weather_by_coord. rewrite Hkey. run_monad.
  rewrite Hlook. run_monad. rewrite (Qltb_of_le _ _ Hle). run_monad.
  destruct (requests_get (length (calls w)) (CurrentReq lat lon))
    as [|status [|data|d|items|l]];
    run_monad; try destruct (status =? 200)%Z; run_monad;
    try destruct (raw_weather d) as [[|d0 ds]|]; run_monad;
    eexists _, _; (split; [reflexivity|]); run_monad; done.
Qed.

Lemma forecast_serves_fresh (lat lon : Q) days :
  truthy_opt OWM_KEY = true ->
  Ttl.serves_fresh _forecast_cache FORECAST_TTL
    (_fetch_forecast_by_coord lat lon days)
    (coord_key "fc:" lat lon ++ py ":" ++ format_int days).
Proof.
  intros Hkey w v fetched_at Hlook Hlt.
  unfold _fetch_forecast_by_coord. rewrite Hkey. run_monad.
  rewrite Hlook. run_monad. by rewrite (Qltb_of_lt _ _ Hlt).
Qed.

Lemma forecast_refetches_stale (lat lon : Q) days :
  truthy_opt OWM_KEY = true ->
  Ttl.refetches_stale _forecast_cache FORECAST_TTL
    (_fetch_forecast_by_coord lat lon days)
    (coord_key "fc:" lat lon ++ py ":" ++ format_int days)
    (ForecastReq lat lon).
Proof.
  intros Hkey w v fetched_at Hlook Hle.
  unfold _fetch_forecast_by_coord. rewrite Hkey. run_monad.
  rewrite Hlook. run_monad. rewrite (Qltb_of_le _ _ Hle). run_monad.
  destruct (requests_get (length (calls w)) (ForecastReq lat lon))
    as [|status [|data|d|items|l]];
    run_monad; try destruct (status =? 200)%Z; run_monad;
    try (match goal with
         | |- context [aggregate ?i ?d ?w0] =>
             pose proof (aggregate_world i d w0) as Hw;
             destruct (aggregate i d w0) as [[result|e] w1];
             cbn [snd] in Hw; subst w1
         end; run_monad);
    eexists _, _; (split; [reflexivity|]); run_monad; done.
Qed.

Lemma aqi_serves_fresh (lat lon : Q) :
  truthy_opt OWM_KEY = true ->
  Ttl.serves_fresh _aqi_cache AQI_TTL
    (_fetch_aqi_by_coord lat lon) (coord_key "aqi:" lat lon).
Proof.
  intros Hkey w v fetched_at Hlook Hlt.
  unfold _fetch_aqi_by_coord. rewrite Hkey. run_monad.
  rewrite Hlook. run_monad. by rewrite (Qltb_of_lt _ _ Hlt).
Qed.

Lemma aqi_refetches_stale (lat lon : Q) :
  truthy_opt OWM_KEY = true ->
  Ttl.refetches_stale _aqi_cache AQI_TTL
    (_fetch_aqi_by_coord lat lon) (coord_key "aqi:" lat lon)
    (AqiReq lat lon).
Proof.
  intros Hkey w v fetched_at Hlook Hle.
  unfold _fetch_aqi_by_coord. rewrite Hkey. run_monad.
  rewrite Hlook. run_monad. rewrite (Qltb_of_le _ _ Hle). run_monad.
  destruct (requests_get (length (calls w)) (AqiReq lat lon))
    as [|status [|data|d|items|[[|el l]|]]];
    run_monad; try destruct (status =? 200)%Z; run_monad;
    eexists _, _; (split; [reflexivity|]); run_monad; done.
Qed.

(** C3. With a provider key configured, in each of the four tiers: a lookup
    within the tier's TTL of the entry's [fetched_at] returns the cached
    value, sends nothing upstream and changes no cache; a lookup at or after
    [fetched_at + TTL] goes upstream, and the stale entry stays unless the
    fetch succeeds, in which case it is overwritten. *)
Theorem cache_tiers_honour_ttl :
  truthy_opt OWM_KEY = true ->
  (forall location,
     Ttl.serves_fresh _geo_cache GEO_TTL (geocode_location location)
       (lower (strip location)) /\
     Ttl.refetches_stale _geo_cache GEO_TTL (geocode_location location)
       (lower (strip location)) (GeoReq location)) /\
  (forall lat lon : Q,
     Ttl.serves_fresh _current_cache CURRENT_TTL
       (_fetch_current_weather_by_coord lat lon) (coord_key "cur:" lat lon) /\
     Ttl.refetches_stale _current_cache CURRENT_TTL
       (_fetch_current_weather_by_coord lat lon) (coord_key "cur:" lat lon)
       (CurrentReq lat lon)) /\
  (forall (lat lon : Q) days,
     Ttl.serves_fresh _forecast_cache FORECAST_TTL
       (_fetch_forecast_by_coord lat lon days)
       (coord_key "fc:" lat lon ++ py ":" ++ format_int days) /\
     Ttl.refetches_stale _forecast_cache FORECAST_TTL
       (_fetch_forecast_by_coord lat lon days)
       (coord_key "fc:" lat lon ++ py ":" ++ format_int days)
       (ForecastReq lat lon)) /\
  (forall lat lon : Q,
     Ttl.serves_fresh _aqi_cache AQI_TTL
       (_fetch_aqi_by_coord lat lon) (coord_key "aqi:" lat lon) /\
     Ttl.refetches_stale _aqi_cache AQI_TTL
       (_fetch_aqi_by_coord lat lon) (coord_key "aqi:" lat lon)
       (AqiReq lat lon)).
Proof.
  intros Hkey. repeat split;
    auto using geocode_serves_fresh, geocode_refetches_stale,
      current_serves_fresh, current_refetches_stale,
      forecast_serves_fresh, forecast_refetches_stale,
      aqi_serves_fresh, aqi_refetches_stale.
Qed.

End Caches.

(** The first call on a fresh process fetches and fills the cache; the
    second, one clock reading later, returns the same value and sends
    nothing more upstream. *)
Example second_lookup_served_from_cache :
  let first := geocode_location (H := Sample.platform) (py "Goa") fresh in
  let second := geocode_location (H := Sample.platform) (py " goa ") first.2 in
  first.1 = Return (Some Sample.goa) /\
  calls first.2 = [GeoReq (py "Goa")] /\
  second.1 = Return (Some Sample.goa) /\
  calls second.2 = [GeoReq (py "Goa")].
Proof. vm_compute. repeat split; reflexivity. Qed.

Section SampleCaches.
#[local] Existing Instance Sample.platform.

Lemma cache_tiers_honour_ttl_witness :
  (forall location,
     Ttl.serves_fresh _geo_cache GEO_TTL
       (geocode_location location) (lower (strip location)) /\
     Ttl.refetches_stale _geo_cache GEO_TTL
       (geocode_location location) (lower (strip location))
       (GeoReq location)) /\
  (forall lat lon : Q,
     Ttl.serves_fresh _current_cache CURRENT_TTL
       (_fetch_current_weather_by_coord lat lon) (coord_key "cur:" lat lon) /\
     Ttl.refetches_stale _current_cache CURRENT_TTL
       (_fetch_current_weather_by_coord lat lon) (coord_key "cur:" lat lon)
       (CurrentReq lat lon)) /\
  (forall (lat lon : Q) days,
     Ttl.serves_fresh _forecast_cache FORECAST_TTL
       (_fetch_forecast_by_coord lat lon days)
       (coord_key "fc:" lat lon ++ py ":" ++ format_int days) /\
     Ttl.refetches_stale _forecast_cache FORECAST_TTL
       (_fetch_forecast_by_coord lat lon days)
       (coord_key "fc:" lat lon ++ py ":" ++ format_int days)
       (ForecastReq lat lon)) /\
  (forall lat lon : Q,
     Ttl.serves_fresh _aqi_cache AQI_TTL
       (_fetch_aqi_by_coord lat lon) (coord_key "aqi:" lat lon) /\
     Ttl.refetches_stale _aqi_cache AQI_TTL
       (_fetch_aqi_by_coord lat lon) (coord_key "aqi:" lat lon)
       (AqiReq lat lon)).
Proof.
  apply (cache_tiers_honour_ttl (H := Sample.platform)). reflexivity.
Defined.

End SampleCaches.

(** ** The packet *)

Section Packet.
Context `{Platform}.

Lemma returns_ret {A} (a : A) : returns (mret a : M A).
Proof. intros w. by exists a, w. Qed.

Lemma returns_bind {A B} (m : M A) (f : A -> M B) :
  returns m -> (forall a, returns (f a)) -> returns (m ≫= f).
Proof.
  intros Hm Hf w. destruct (Hm w) as (a & w1 & Ha).
  destruct (Hf a w1) as (b & w2 & Hb).
  exists b, w2. by rewrite run_bind, Ha.
Qed.

Lemma returns_try {A} (body : M (option A)) :
  returns (try_except body (mret None)).
Proof.
  intros w. rewrite run_try.
  destruct (body w) as [[a|e] w']; [by exists a, w' | by exists None, w'].
Qed.

Lemma returns_still_fresh {V} (cached : option (V * Q)) ttl :
  returns (still_fresh cached ttl).
Proof.
  intros w. destruct cached as [[v t]|]; cbn [still_fresh]; [|by eexists _, _].
  rewrite run_bind. cbn [_now_ts]. by eexists _, _.
Qed.

Lemma returns_geocode location : returns (geocode_location location).
Proof.
  unfold geocode_location.
  destruct (negb (truthy_opt OWM_KEY)); [apply returns_ret|].
  apply returns_bind; [intros w; by eexists _, _|]. intros cached.
  apply returns_bind; [apply returns_still_fresh|].
  intros [v|]; [apply returns_ret | apply returns_try].
Qed.

Lemma returns_key prefix (lat lon : Q) : returns (key_of prefix lat lon).
Proof. intros w. by eexists _, _. Qed.

Lemma returns_current (lat lon : Q) :
  returns (_fetch_current_weather_by_coord lat lon).
Proof.
  unfold _fetch_current_weather_by_coord.
  destruct (negb (truthy_opt OWM_KEY)); [apply returns_ret|].
  apply returns_bind; [apply returns_key|]. intros key.
  apply returns_bind; [intros w; by eexists _, _|]. intros cached.
  apply returns_bind; [apply returns_still_fresh|].
  intros [v|]; [apply returns_ret | apply returns_try].
Qed.

Lemma returns_forecast (lat lon : Q) days :
  returns (_fetch_forecast_by_coord lat lon days).
Proof.
  unfold _fetch_forecast_by_coord.
  destruct (negb (truthy_opt OWM_KEY)); [apply returns_ret|].
  apply returns_bind; [apply returns_key|]. intros key.
  apply returns_bind; [intros w; by eexists _, _|]. intros cached.
  apply returns_bind; [apply returns_still_fresh|].
  intros [v|]; [apply returns_ret | apply returns_try].
Qed.

Lemma returns_aqi (lat lon : Q) : returns (_fetch_aqi_by_coord lat lon).
Proof.
  unfold _fetch_aqi_by_coord.
  destruct (negb (truthy_opt OWM_KEY)); [apply returns_ret|].
  apply returns_bind; [apply returns_key|]. intros key.
  apply returns_bind; [intros w; by eexists _, _|]. intros cached.
  apply returns_bind; [apply returns_still_fresh|].
  intros [v|]; [apply returns_ret | apply returns_try].
Qed.

(** The two coordinates are numbers, or the key cannot be written. *)
Lemma key_of_cases prefix lat lon w :
  match key_error lat lon with
  | None =>
      exists la lo : Q, lat = Number la /\ lon = Number lo /\
        key_of prefix lat lon w = (Return (coord_key prefix la lo), w)
  | Some e => key_of prefix lat lon w = (Raise e, w)
  end.
Proof. destruct lat, lon; cbn; eauto. Qed.

(** With a provider key, a lookup at coordinates whose key cannot be
    written raises before it reads or sends anything. *)
Lemma fetch_raises_on_key lat lon days e w :
  truthy_opt OWM_KEY = true ->
  key_error lat lon = Some e ->
  _fetch_current_weather_by_coord lat lon w = (Raise e, w) /\
  _fetch_forecast_by_coord lat lon days w = (Raise e, w) /\
  _fetch_aqi_by_coord lat lon w = (Raise e, w).
Proof.
  intros Hkey He.
  unfold _fetch_current_weather_by_coord, _fetch_forecast_by_coord,
    _fetch_aqi_by_coord.
  rewrite Hkey. cbn [negb]. rewrite !run_bind.
  pose proof (key_of_cases "cur:" lat lon w) as H1.
  pose proof (key_of_cases "fc:" lat lon w) as H2.
  pose proof (key_of_cases "aqi:" lat lon w) as H3.
  rewrite He in H1, H2, H3. by rewrite H1, H2, H3.
Qed.

(** A place comes from the geocoder only when there is a provider key. *)
Lemma geocode_some_key location w g w1 :
  geocode_location location w = (Return (Some g), w1) ->
  truthy_opt OWM_KEY = true.
Proof.
  unfold geocode_location. destruct (truthy_opt OWM_KEY); [done|].
  cbn [negb]. by rewrite run_ret.
Qed.

(** What [build_weather_packet] does, step by step. *)
Lemma build_weather_packet_steps location days w :
  exists o w',
    build_weather_packet location days w = (o, w') /\
    (truthy location = false -> o = Return None) /\
    (truthy location = true ->
     exists geo w1,
       geocode_location location w = (Return geo, w1) /\
       match geo with
       | Some g =>
           match geo_lat g, geo_lon g with
           | Some la, Some lo =>
               match key_error la lo with
               | None =>
                   exists cur w2 fc w3 aq w4,
                     _fetch_current_weather_by_coord la lo w1
                       = (Return cur, w2) /\
                     _fetch_forecast_by_coord la lo days w2
                       = (Return fc, w3) /\
                     _fetch_aqi_by_coord la lo w3 = (Return aq, w4) /\
                     o = Return (Some
                           {| Weather.location := or_else (geo_name g) location;
                              country := geo_country g;
                              state := geo_state g;
                              lat := la;
                              lon := lo;
                              pkt_current := cur;
                              forecast := fc;
                              pkt_aqi := aq;
                              fetched_at := time_time (ticks w4) |})
               | Some e => o = Raise e /\ w' = w1
               end
           | _, _ => o = Return None
           end
       | None => o = Return None
       end).
Proof.
  unfold build_weather_packet.
  destruct (truthy location) eqn:Hloc; cbn [negb].
  2:{ exists (Return None), w. split; [reflexivity|].
      split; [done | discriminate]. }
  destruct (returns_geocode location w) as (geo & w1 & Hgeo).
  rewrite run_bind, Hgeo.
  destruct geo as [g|].
  2:{ exists (Return None), w1. split; [reflexivity|]. split; [discriminate|].
      intros _. by exists None, w1. }
  destruct (geo_lat g) as [la|] eqn:Hla, (geo_lon g) as [lo|] eqn:Hlo;
    try (exists (Return None), w1; split; [reflexivity|];
         split; [discriminate|];
         intros _; exists (Some g), w1; split; [reflexivity|];
         by rewrite Hla, ?Hlo).
  destruct (key_error la lo) as [e|] eqn:Herr.
  - destruct (fetch_raises_on_key la lo days e w1
                (geocode_some_key _ _ _ _ Hgeo) Herr) as (Hcur & _).
    rewrite run_bind, Hcur.
    exists (Raise e), w1. split; [reflexivity|]. split; [discriminate|].
    intros _. exists (Some g), w1. split; [reflexivity|].
    by rewrite Hla, Hlo, Herr.
  - pose proof (key_of_cases "" la lo w1) as Hnum. rewrite Herr in Hnum.
    destruct Hnum as (x & y & -> & -> & _).
    destruct (returns_current x y w1) as (cur & w2 & Hcur).
    destruct (returns_forecast x y days w2) as (fc & w3 & Hfc).
    destruct (returns_aqi x y w3) as (aq & w4 & Haq).
    rewrite run_bind, Hcur, run_bind, Hfc, run_bind, Haq, run_bind.
    cbn [_now_ts]. eexists _, _. split; [reflexivity|].
    split; [discriminate|]. intros _. exists (Some g), w1.
    split; [reflexivity|]. rewrite Hla, Hlo, Herr.
    by exists cur, w2, fc, w3, aq, w4.
Qed.

End Packet.

(** C6, as stated: [build_weather_packet] would never raise. When the
    geocoder sends the latitude as a string, the key of the first lookup
    cannot be written and the [ValueError] reaches the caller. *)
Lemma build_weather_packet_never_raises_refuted :
  ~ (forall (P : Platform) (location : str) (days : Z) (w : world),
       exists r w', build_weather_packet location days w = (Return r, w')).
Proof.
  intros Hall.
  destruct (Hall Cases.text_latitude (py "Goa") 5%Z fresh) as (r & w' & Hrun).
  vm_compute in Hrun. discriminate Hrun.
Qed.

(** C6, amended. [build_weather_packet] raises in one case only: the
    geocoder gave both coordinates and the cache key of the first lookup
    cannot be written from them, because one of them is not a number that
    the format accepts; the error is that of the format, and nothing was
    sent after the geocoding request. In every other case it returns:
    absent without a usable location or without a coordinate; otherwise a
    packet whose [current], [forecast] and [aqi] are whatever the three
    lookups return, run one after the other, each of them returning
    (possibly absent) on its own. On the sample provider the
    current-conditions call answers 500 and the air-quality call fails to
    connect, and the packet still carries the forecast. *)
Theorem build_weather_packet_outcomes :
  (forall (P : Platform) (location : str) (days : Z) (w : world),
     exists o w',
       build_weather_packet location days w = (o, w') /\
       (truthy location = false -> o = Return None) /\
       (truthy location = true ->
        exists geo w1,
          geocode_location location w = (Return geo, w1) /\
          match geo with
          | Some g =>
              match geo_lat g, geo_lon g with
              | Some la, Some lo =>
                  match key_error la lo with
                  | None =>
                      exists cur w2 fc w3 aq w4,
                        _fetch_current_weather_by_coord la lo w1
                          = (Return cur, w2) /\
                        _fetch_forecast_by_coord la lo days w2
                          = (Return fc, w3) /\
                        _fetch_aqi_by_coord la lo w3 = (Return aq, w4) /\
                        o = Return (Some
                              {| Weather.location :=
                                   or_else (geo_name g) location;
                                 country := geo_country g;
                                 state := geo_state g;
                                 lat := la;
                                 lon := lo;
                                 pkt_current := cur;
                                 forecast := fc;
                                 pkt_aqi := aq;
                                 fetched_at := time_time (ticks w4) |})
                  | Some e => o = Raise e /\ w' = w1
                  end
              | _, _ => o = Return None
              end
          | None => o = Return None
          end)) /\
  (exists (pkt : packet) (w' : world) (day : daily_forecast)
          (rest : list daily_forecast),
     build_weather_packet (H := Sample.platform) (py "Goa") 5 fresh
       = (Return (Some pkt), w') /\
     pkt_current pkt = None /\
     pkt_aqi pkt = None /\
     forecast pkt = Some (day :: rest)).
Proof.
  split.
  - intros P location days w. apply build_weather_packet_steps.
  - vm_compute. do 4 eexists. split; [reflexivity|]. by repeat split.
Qed.

(** ** The message list *)

Section Messages.
Context `{Platform} `{Json}.

Lemma truthy_app_l x y : truthy x = true -> truthy (x ++ y) = true.
Proof. by destruct x. Qed.

Lemma truthy_join sep x l : truthy x = true -> truthy (join sep (x :: l)) = true.
Proof. destruct x; [done|]. by destruct l. Qed.

Lemma truthy_or_else a b : truthy b = true -> truthy (or_else a b) = true.
Proof.
  intros Hb. unfold or_else. destruct a as [s|]; [|done].
  by destruct (truthy s) eqn:E.
Qed.

Lemma truthy_summary pkt :
  truthy (Weather.location pkt) = true ->
  truthy (format_packet_for_prompt pkt) = true.
Proof.
  intros Hloc. unfold format_packet_for_prompt.
  cbn [app]. by apply truthy_join, truthy_app_l.
Qed.

(** A packet always names a location. *)
Lemma packet_has_location loc days w pkt w' :
  build_weather_packet loc days w = (Return (Some pkt), w') ->
  truthy (Weather.location pkt) = true.
Proof.
  intros Hb.
  destruct (build_weather_packet_steps loc days w) as (o & w1 & Hr & Hno & Hyes).
  rewrite Hr in Hb. injection Hb as -> ->.
  destruct (truthy loc) eqn:Hloc; [|by specialize (Hno eq_refl)].
  destruct (Hyes eq_refl) as (geo & w2 & _ & Hgeo).
  destruct geo as [g|]; [|done].
  destruct (geo_lat g) as [la|], (geo_lon g) as [lo|]; try done.
  destruct (key_error la lo); [by destruct Hgeo|].
  destruct Hgeo as (cur & ? & fc & ? & aq & ? & _ & _ & _ & [= ->]).
  cbn [Weather.location]. by apply truthy_or_else.
Qed.

(** Lines 330-353 return; when they leave a packet they also leave its
    summary, which is not empty, and the location it was fetched for. *)
Lemma weather_for_turn_returns msg last w :
  exists tw w',
    weather_for_turn msg last w = (Return tw, w') /\
    match weather_packet tw with
    | Some pkt =>
        weather_summary tw = Some (format_packet_for_prompt pkt) /\
        truthy (format_packet_for_prompt pkt) = true /\
        exists loc, Chat.location tw = Some loc /\ truthy loc = true
    | None => True
    end.
Proof.
  unfold weather_for_turn.
  destruct (resolve_location msg last) as [loc|]; [|by eexists _, _].
  destruct (truthy loc) eqn:Hloc; [|by eexists _, _].
  rewrite run_try, run_bind. unfold get_weather_summary_for_prompt.
  rewrite run_bind.
  destruct (build_weather_packet loc 5 w) as [[[pkt|]|e] w1] eqn:Hb;
    try by eexists _, _.
  rewrite !run_ret. eexists _, _. split; [reflexivity|].
  cbn [weather_packet weather_summary Chat.location].
  split; [done|]. split; [|by eauto].
  by apply truthy_summary, (packet_has_location _ _ _ _ _ Hb).
Qed.

End Messages.

(** C2. Whatever the message, the stored last location, the history rows
    and the state of the caches and the provider, the list sent to the
    model is: the rules block as a system message; then, exactly when the
    turn has a weather packet, the one-line summary and the fenced JSON of
    that packet, as two system messages in that order; then one message per
    history row, in the order of the rows and with the row's role; then the
    current message with role user. *)
Theorem messages_in_fixed_order `{Platform} `{Json} (msg : str)
    (chat_last_location : option str) (history : list (str * str))
    (w : world) :
  exists tw w',
    weather_for_turn msg chat_last_location w = (Return tw, w') /\
    prepare msg chat_last_location history w =
    (Return
       ([{| role := py "system"; content := system_prompt |}]
          ++ match weather_packet tw with
             | Some pkt =>
                 [ {| role := py "system";
                      content := py "Weather summary for "
                                   ++ show_str (Chat.location tw) ++ py ": "
                                   ++ format_packet_for_prompt pkt |};
                   {| role := py "system";
                      content := packet_header ++ json_dumps (Some 2%Z) pkt
                                   ++ packet_footer |} ]
             | None => []
             end
          ++ map (fun row => {| role := row.2; content := row.1 |}) history
          ++ [{| role := py "user"; content := msg |}]),
     w').
Proof.
  destruct (weather_for_turn_returns msg chat_last_location w)
    as (tw & w' & Hrun & Hpkt).
  exists tw, w'. split; [exact Hrun|].
  unfold prepare. rewrite run_bind, Hrun. unfold build_messages.
  destruct (weather_packet tw) as [pkt|].
  - destruct Hpkt as (Hsum & Htruthy & _). rewrite Hsum.
    cbn [truthy_opt show_str]. rewrite Htruthy.
    rewrite run_bind, run_bind, run_try. unfold dumps at 1.
    rewrite !run_ret. reflexivity.
  - rewrite run_bind, !run_ret. reflexivity.
Qed.

(** "weather in Goa" on a fresh process, after one earlier exchange: rules,
    summary, fenced packet, the two history rows, the message itself. *)
Example goa_turn_messages :
  exists messages w',
    prepare (H := Sample.platform) (H0 := Sample.json) (py "weather in Goa") None
      [(py "hello", py "user"); (py "Hi!", py "assistant")] fresh
      = (Return messages, w') /\
    map role messages
      = [py "system"; py "system"; py "system"; py "user"; py "assistant";
         py "user"] /\
    map content (drop 3 messages)
      = [py "hello"; py "Hi!"; py "weather in Goa"] /\
    (content <$> messages !! 2)
      = Some (packet_header ++ py "{location: Goa, days: 2}" ++ packet_footer).
Proof.
  vm_compute. do 2 eexists. split; [reflexivity|]. by repeat split.
Qed.

(** ** The relay *)

Section Relay.
Variable decode : list Byte.byte -> str.
Variable json_token : str -> line_json.

Lemma concat_snoc (out : list str) (t : str) :
  concat (out ++ [t]) = concat out ++ t.
Proof. rewrite concat_app. simpl. by rewrite app_nil_r. Qed.

(** The accumulator stays the concatenation of what was yielded, and
    nothing yielded is taken back. *)
Lemma relay_lines_invariant lines full out :
  full = concat out ->
  (relay_lines json_token lines full out).1
    = concat (relay_lines json_token lines full out).2 /\
  exists more, (relay_lines json_token lines full out).2 = out ++ more.
Proof.
  revert full out. induction lines as [|line lines IH]; intros full out Hc.
  - simpl. split; [done|]. exists []. by rewrite app_nil_r.
  - cbn [relay_lines]. destruct (negb (truthy (strip line))); [by apply IH|].
    destruct (json_token line) as [|token].
    + destruct (IH (full ++ line) (out ++ [line])) as [H1 [more H2]].
      { by rewrite concat_snoc, Hc. }
      split; [exact H1|]. exists (line :: more).
      etrans; [exact H2|]. by rewrite <- app_assoc.
    + destruct (truthy token); [|by apply IH].
      destruct (IH (full ++ token) (out ++ [token])) as [H1 [more H2]].
      { by rewrite concat_snoc, Hc. }
      split; [exact H1|]. exists (token :: more).
      etrans; [exact H2|]. by rewrite <- app_assoc.
Qed.

Lemma relay_chunks_inserted chunks full out t :
  full = concat out ->
  inserted (relay_chunks decode json_token chunks full out) = Some t ->
  t = concat (yielded (relay_chunks decode json_token chunks full out)) /\
  Forall live chunks.
Proof.
  revert full out. induction chunks as [|ev chunks IH]; intros full out Hc.
  - simpl. intros [= <-]. by split.
  - cbn [relay_chunks]. destruct ev as [[|] data|e]; try discriminate.
    pose proof (relay_lines_invariant (split_on "010" (decode data)) full out Hc)
      as [Hinv _].
    destruct (relay_lines json_token (split_on "010" (decode data)) full out)
      as [full' out'].
    intros Hins. destruct (IH full' out' Hinv Hins) as [Ht Hlive].
    split; [exact Ht|]. by constructor.
Qed.

Lemma relay_chunks_completed chunks full out :
  full = concat out ->
  Forall live chunks ->
  inserted (relay_chunks decode json_token chunks full out)
    = Some (concat (yielded (relay_chunks decode json_token chunks full out))).
Proof.
  intros Hc Hlive. revert full out Hc.
  induction Hlive as [|ev chunks Hev Hlive IH]; intros full out Hc.
  - simpl. by rewrite Hc.
  - cbn [relay_chunks]. destruct ev as [[|] data|e]; try done.
    pose proof (relay_lines_invariant (split_on "010" (decode data)) full out Hc)
      as [Hinv _].
    destruct (relay_lines json_token (split_on "010" (decode data)) full out)
      as [full' out'].
    by apply IH.
Qed.

Lemma relay_chunks_cancelled pre data post full out :
  Forall live pre ->
  relay_chunks decode json_token (pre ++ Chunk true data :: post) full out =
  {| yielded := yielded (relay_chunks decode json_token pre full out);
     inserted := None |}.
Proof.
  intros Hlive. revert full out.
  induction Hlive as [|ev pre Hev Hlive IH]; intros full out; [done|].
  cbn [app relay_chunks]. destruct ev as [[|] d|e]; try done.
  destruct (relay_lines json_token (split_on "010" (decode d)) full out)
    as [full' out'].
  apply IH.
Qed.

(** Tokens already yielded stay yielded: a run over more chunks extends the
    output of a run over fewer. *)
Lemma relay_chunks_extends chunks full out :
  exists more,
    yielded (relay_chunks decode json_token chunks full out) = out ++ more.
Proof.
  revert full out. induction chunks as [|ev chunks IH]; intros full out.
  - exists []. simpl. by rewrite app_nil_r.
  - cbn [relay_chunks]. destruct ev as [[|] d|e].
    + exists []. simpl. by rewrite app_nil_r.
    + pose proof (relay_lines_invariant (split_on "010" (decode d)) full out)
        as Hinv.
      assert (Hmore : exists more,
                 (relay_lines json_token (split_on "010" (decode d)) full out).2
                 = out ++ more).
      { clear. generalize (split_on "010" (decode d)). intros lines.
        revert full out. induction lines as [|line lines IH]; intros full out.
        - exists []. simpl. by rewrite app_nil_r.
        - cbn [relay_lines]. destruct (negb (truthy (strip line))); [apply IH|].
          destruct (json_token line) as [|token].
          + destruct (IH (full ++ line) (out ++ [line])) as [more Hm].
            exists (line :: more).
            etrans; [exact Hm|]. by rewrite <- app_assoc.
          + destruct (truthy token); [|apply IH].
            destruct (IH (full ++ token) (out ++ [token])) as [more Hm].
            exists (token :: more).
            etrans; [exact Hm|]. by rewrite <- app_assoc. }
      destruct Hmore as [m1 Hm1].
      destruct (relay_lines json_token (split_on "010" (decode d)) full out)
        as [full' out']. cbn [snd] in Hm1. subst out'.
      destruct (IH full' (out ++ m1)) as [m2 Hm2].
      exists (m1 ++ m2). etrans; [exact Hm2|]. by rewrite <- app_assoc.
    + by exists [error_token e].
Qed.

(** C1. When the client is found disconnected before a chunk, after the
    chunks [pre] were relayed: the run yields exactly what the run over
    [pre] alone yields, whatever follows in the body, and inserts no
    assistant message. A run inserts a message only when the backend
    answered 200 and every chunk of the body was read with the client
    connected, and the message is then the concatenation of the tokens
    yielded; and every such run does insert it. *)
Theorem disconnect_discards_partial_response :
  (forall text pre data post,
     Forall live pre ->
     generate decode json_token
       (Opened 200 text (pre ++ Chunk true data :: post)) =
     {| yielded := yielded (generate decode json_token (Opened 200 text pre));
        inserted := None |}) /\
  (forall b t,
     inserted (generate decode json_token b) = Some t ->
     t = concat (yielded (generate decode json_token b)) /\
     exists text chunks, b = Opened 200 text chunks /\ Forall live chunks) /\
  (forall text chunks,
     Forall live chunks ->
     inserted (generate decode json_token (Opened 200 text chunks)) =
     Some (concat (yielded (generate decode json_token (Opened 200 text chunks))))).
Proof.
  split; [|split].
  - intros text pre data post Hlive. cbn [generate Z.eqb Pos.eqb negb].
    by apply relay_chunks_cancelled.
  - intros [e|status text chunks] t; cbn [generate]; [discriminate|].
    destruct (Z.eqb_spec status 200) as [->|Hne]; cbn [negb]; [|discriminate].
    intros Hins. destruct (relay_chunks_inserted chunks [] [] t eq_refl Hins).
    split; [done|]. by exists text, chunks.
  - intros text chunks Hlive. cbn [generate Z.eqb Pos.eqb negb].
    by apply relay_chunks_completed.
Qed.

End Relay.

(** Disconnect found after 3 of 10 chunks: the client got the tokens of the
    three, nothing is inserted. *)
Lemma disconnect_discards_partial_response_witness :
  generate Sample.as_text Sample.brace_token
    (Opened 200 None
       (Sample.first_three
          ++ Chunk true [] :: Sample.last_six)) =
  {| yielded :=
       yielded (generate Sample.as_text Sample.brace_token
                  (Opened 200 None Sample.first_three));
     inserted := None |}.
Proof.
  apply (proj1 (disconnect_discards_partial_response
                  Sample.as_text Sample.brace_token)).
  unfold Sample.first_three, Sample.chunk_of. repeat constructor.
Defined.

Example three_of_ten_chunks :
  generate Sample.as_text Sample.brace_token
    (Opened 200 None
       (Sample.first_three ++ Chunk true [] :: Sample.last_six)) =
  {| yielded := [py "The"; py " sky"; py " is"; py "not json"];
     inserted := None |} /\
  generate Sample.as_text Sample.brace_token
    (Opened 200 None (Sample.first_three ++ Sample.last_six)) =
  {| yielded := [py "The"; py " sky"; py " is"; py "not json"; py " and";
                 py " the"; py " sea"; py " is"; py " blue"; py "."];
     inserted := Some (py "The sky isnot json and the sea is blue.") |}.
Proof. by vm_compute. Qed.

(** ** Phrase queries *)

Section Strings.

Lemma lstrip_skip a t : blank a -> lstrip (a ++ t) = lstrip t.
Proof.
  induction 1 as [|c a Hc Ha IH]; [done|]. simpl. by rewrite Hc.
Qed.

Lemma lstrip_stop c t : is_space c = false -> lstrip (c :: t) = c :: t.
Proof. intros Hc. simpl. by rewrite Hc. Qed.

Lemma lstrip_decompose s :
  exists a, s = a ++ lstrip s /\ blank a /\
            (lstrip s = [] \/ exists c t, lstrip s = c :: t /\ is_space c = false).
Proof.
  induction s as [|c s (a & Heq & Ha & Hl)].
  - exists []. simpl. repeat split; [constructor | by left].
  - destruct (is_space c) eqn:Hc.
    + exists (c :: a). simpl. rewrite Hc. repeat split.
      * by rewrite <- Heq.
      * by constructor.
      * exact Hl.
    + exists []. rewrite (lstrip_stop _ _ Hc). repeat split; [constructor|].
      right. by exists c, s.
Qed.

Lemma blank_rev a : blank a -> blank (rev a).
Proof. apply List.Forall_rev. Qed.

Lemma rstrip_skip t b : blank b -> rstrip (t ++ b) = rstrip t.
Proof.
  intros Hb. unfold rstrip. rewrite rev_app_distr.
  by rewrite lstrip_skip by by apply blank_rev.
Qed.

Lemma rstrip_stop t d : is_space d = false -> rstrip (t ++ [d]) = t ++ [d].
Proof.
  intros Hd. unfold rstrip. rewrite rev_app_distr. simpl. rewrite Hd.
  simpl. by rewrite rev_involutive.
Qed.

Lemma rstrip_decompose s :
  exists b, s = rstrip s ++ b /\ blank b /\
            (rstrip s = [] \/ exists t d, rstrip s = t ++ [d] /\ is_space d = false).
Proof.
  destruct (lstrip_decompose (rev s)) as (a & Heq & Ha & Hl).
  exists (rev a). unfold rstrip. repeat split.
  - rewrite <- rev_app_distr, <- Heq. by rewrite rev_involutive.
  - by apply blank_rev.
  - destruct Hl as [->|(c & t & -> & Hc)]; [by left|].
    right. exists (rev t), c. by simpl.
Qed.

(** Trimming a text whose core [m] is wrapped in whitespace. *)
Lemma strip_sandwich a m b :
  blank a -> blank b -> trimmed m ->
  strip (a ++ m ++ b) = m.
Proof.
  intros Ha Hb [(c & t & Hm & Hc) (t' & d & Hm' & Hd)].
  unfold strip. rewrite (lstrip_skip _ _ Ha).
  rewrite Hm at 1. cbn [app]. rewrite (lstrip_stop _ _ Hc).
  change (c :: t ++ b) with ((c :: t) ++ b). rewrite <- Hm.
  rewrite (rstrip_skip _ _ Hb), Hm'. by apply rstrip_stop.
Qed.

Lemma blank_strip s : blank s -> strip s = [].
Proof.
  intros Hs. unfold strip.
  rewrite <- (app_nil_r s), (lstrip_skip _ _ Hs). reflexivity.
Qed.

(** Every text is blank or a trimmed core wrapped in whitespace. *)
Lemma strip_decompose s :
  blank s \/
  exists a m b, s = a ++ m ++ b /\ blank a /\ blank b /\ trimmed m.
Proof.
  destruct (lstrip_decompose s) as (a & Heq & Ha & [Hnil|(c & t & Hl & Hc)]).
  { left. rewrite Heq, Hnil, app_nil_r. exact Ha. }
  right.
  destruct (rstrip_decompose (lstrip s)) as (b & Heq' & Hb & [Hnil|(t' & d & Hr & Hd)]).
  { exfalso. rewrite Hnil in Heq'. simpl in Heq'. rewrite Hl in Heq'.
    rewrite <- Heq' in Hb. apply Forall_cons in Hb as [Hb _]. congruence. }
  exists a, (rstrip (lstrip s)), b. repeat split; try done.
  - by rewrite <- Heq', <- Heq.
  - rewrite Hr. rewrite Hr, Hl in Heq'.
    destruct t' as [|c' t'']; simpl in Heq'; injection Heq' as -> _.
    + by exists d, [].
    + by exists c', (t'' ++ [d]).
  - by exists t', d.
Qed.

Lemma code_lower_space c : is_space (lower_char c) = is_space c.
Proof. destruct c as [[] [] [] [] [] [] [] []]; reflexivity. Qed.

Lemma lower_char_idem c : lower_char (lower_char c) = lower_char c.
Proof. destruct c as [[] [] [] [] [] [] [] []]; reflexivity. Qed.

Lemma loc_class_lower c : loc_class (lower_char c) = loc_class c.
Proof. destruct c as [[] [] [] [] [] [] [] []]; reflexivity. Qed.

Lemma blank_lower s : blank s -> blank (lower s).
Proof.
  unfold blank, lower. intros Hs. apply Forall_fmap.
  eapply Forall_impl; [exact Hs|]. intros c Hc. simpl.
  by rewrite code_lower_space.
Qed.

Lemma trimmed_lower m : trimmed m -> trimmed (lower m).
Proof.
  intros [(c & t & -> & Hc) (t' & d & Hm & Hd)]. split.
  - exists (lower_char c), (lower t). by rewrite code_lower_space.
  - exists (lower t'), (lower_char d). rewrite Hm. unfold lower.
    rewrite map_app. by rewrite code_lower_space.
Qed.

Lemma lower_app a b : lower (a ++ b) = lower a ++ lower b.
Proof. apply map_app. Qed.

Lemma lowered_lower s : lowered (lower s).
Proof.
  unfold lowered, lower. rewrite map_map. apply map_ext.
  intros c. apply lower_char_idem.
Qed.

Lemma strip_lower s : strip (lower s) = lower (strip s).
Proof.
  destruct (strip_decompose s) as [Hb|(a & m & b & -> & Ha & Hb & Hm)].
  - by rewrite (blank_strip _ Hb), (blank_strip _ (blank_lower _ Hb)).
  - rewrite !lower_app, (strip_sandwich a m b) by done.
    apply strip_sandwich; auto using blank_lower, trimmed_lower.
Qed.

End Strings.

Section Matching.

Lemma char_eq_refl ic c : char_eq ic c c = true.
Proof. unfold char_eq. destruct ic; apply Ascii.eqb_refl. Qed.

(** A literal matches at the front of a text that starts with it. *)
Lemma rmatch_lits_ok ic L prev rest cs k :
  exists prev', rmatch ic (lits_of L) prev (L ++ rest) cs k = k prev' rest cs.
Proof.
  revert prev. induction L as [|c L IH]; intros prev.
  - by exists prev.
  - destruct L as [|c' L'].
    + exists (Some c). simpl. by rewrite char_eq_refl.
    + destruct (IH (Some c)) as [prev' Hp]. exists prev'.
      change (lits_of (c :: c' :: L')) with (Seq (Lit c) (lits_of (c' :: L'))).
      cbn [rmatch app]. rewrite char_eq_refl. exact Hp.
Qed.

(** A literal either fails or hands over the text a few characters on. *)
Lemma rmatch_lits_result ic L prev s cs k :
  rmatch ic (lits_of L) prev s cs k = None \/
  exists prev' n, rmatch ic (lits_of L) prev s cs k = k prev' (drop n s) cs.
Proof.
  revert prev s. induction L as [|c L IH]; intros prev s.
  - right. by exists prev, 0.
  - destruct L as [|c' L'].
    + simpl. destruct s as [|d s]; [by left|].
      destruct (char_eq ic c d); [|by left]. right. by exists (Some d), 1.
    + change (lits_of (c :: c' :: L')) with (Seq (Lit c) (lits_of (c' :: L'))).
      cbn [rmatch]. destruct s as [|d s]; [by left|].
      destruct (char_eq ic c d); [|by left].
      destruct (IH (Some d) s) as [Hn|(prev' & n & Hs)]; [by left|].
      right. by exists prev', (S n).
Qed.

Lemma lowered_cons c s : lowered (c :: s) -> lower_char c = c /\ lowered s.
Proof. unfold lowered. simpl. by intros [= ? ?]. Qed.

Lemma lowered_drop n s : lowered s -> lowered (drop n s).
Proof.
  revert s. induction n as [|n IH]; intros s Hs; [done|].
  destruct s as [|c s]; [done|]. simpl. apply IH.
  by apply lowered_cons in Hs as [_ Hs].
Qed.

Lemma lowered_app_r a b : lowered (a ++ b) -> lowered b.
Proof.
  intros Hab. replace b with (drop (length a) (a ++ b)).
  - by apply lowered_drop.
  - by rewrite drop_app_length.
Qed.

(** On lower-case text a lower-case literal matches only where the text
    starts with it. *)
Lemma rmatch_lits_fail L prev s cs k :
  lowered L -> lowered s -> starts_with L s = false ->
  rmatch true (lits_of L) prev s cs k = None.
Proof.
  revert prev s. induction L as [|c L IH]; intros prev s HL Hs Hst; [done|].
  apply lowered_cons in HL as [Hc HL].
  destruct s as [|d s].
  { destruct L; reflexivity. }
  apply lowered_cons in Hs as [Hd Hs].
  assert (Heq : char_eq true c d = Ascii.eqb c d).
  { unfold char_eq. by rewrite Hc, Hd. }
  simpl in Hst. destruct L as [|c' L'].
  - cbn [lits_of rmatch]. rewrite Heq. destruct (Ascii.eqb c d); [|done].
    simpl in Hst. discriminate.
  - change (lits_of (c :: c' :: L')) with (Seq (Lit c) (lits_of (c' :: L'))).
    cbn [rmatch]. rewrite Heq. destruct (Ascii.eqb c d); [|done].
    apply IH; done.
Qed.

Lemma contains_cons L c s :
  contains L (c :: s) = starts_with L (c :: s) || contains L s.
Proof. reflexivity. Qed.

Lemma contains_false_starts L s :
  contains L s = false -> starts_with L s = false.
Proof. destruct s; simpl; intros Hc; by apply orb_false_elim in Hc as [? ?]. Qed.

Lemma contains_false_tail L c s :
  contains L (c :: s) = false -> contains L s = false.
Proof. rewrite contains_cons. intros Hc. by apply orb_false_elim in Hc as [? ?]. Qed.

Lemma contains_false_drop L n s :
  contains L s = false -> contains L (drop n s) = false.
Proof.
  revert s. induction n as [|n IH]; intros s Hs; [done|].
  destruct s as [|c s]; [done|]. simpl. apply IH.
  by apply contains_false_tail in Hs.
Qed.

Lemma starts_with_app_l P R s :
  starts_with (P ++ R) s = true -> starts_with P s = true.
Proof.
  revert s. induction P as [|a P IH]; intros s; [done|].
  destruct s as [|b s]; simpl; [done|].
  intros Hs. apply andb_true_iff in Hs as [-> Hs]. simpl. by apply IH.
Qed.

Lemma contains_app_l P R s :
  contains (P ++ R) s = true -> contains P s = true.
Proof.
  induction s as [|c s IH].
  - simpl. rewrite !orb_false_r. apply starts_with_app_l.
  - rewrite !contains_cons. intros Hc.
    apply orb_true_iff in Hc as [Hc|Hc]; apply orb_true_iff.
    + left. by apply starts_with_app_l in Hc.
    + right. by apply IH.
Qed.

Lemma starts_with_app_r A B s :
  starts_with (A ++ B) s = true -> starts_with B (drop (length A) s) = true.
Proof.
  revert s. induction A as [|a A IH]; intros s; [done|].
  destruct s as [|b s]; simpl; [done|].
  intros Hs. apply andb_true_iff in Hs as [_ Hs]. by apply IH.
Qed.

Lemma starts_contains L s : starts_with L s = true -> contains L s = true.
Proof. destruct s; simpl; intros ->; reflexivity. Qed.

Lemma contains_app_r A B s :
  contains (A ++ B) s = true -> contains B s = true.
Proof.
  intros Hc. destruct (contains B s) eqn:E; [done|]. exfalso.
  induction s as [|c s IH].
  - simpl in Hc. rewrite orb_false_r in Hc.
    apply starts_with_app_r, starts_contains in Hc.
    rewrite (contains_false_drop _ _ _ E) in Hc. discriminate.
  - rewrite contains_cons in Hc. apply orb_true_iff in Hc as [Hc|Hc].
    + apply starts_with_app_r, starts_contains in Hc.
      rewrite (contains_false_drop _ _ _ E) in Hc. discriminate.
    + apply IH; [done|]. by apply contains_false_tail in E.
Qed.

Lemma starts_with_grow P u v :
  starts_with P u = true -> starts_with P (u ++ v) = true.
Proof.
  revert u. induction P as [|a P IH]; intros u; [done|].
  destruct u as [|b u]; simpl; [done|].
  intros Hs. apply andb_true_iff in Hs as [-> Hs]. simpl. by apply IH.
Qed.

Lemma contains_grow P u v :
  contains P u = true -> contains P (u ++ v) = true.
Proof.
  induction u as [|c u IH].
  - simpl. rewrite orb_false_r. intros Hs.
    apply starts_contains. by apply (starts_with_grow P [] v).
  - cbn [app]. rewrite !contains_cons. intros Hc.
    apply orb_true_iff in Hc as [Hc|Hc]; apply orb_true_iff.
    + left. by apply (starts_with_grow P (c :: u) v).
    + right. by apply IH.
Qed.

Lemma contains_suffix P u v :
  contains P v = true -> contains P (u ++ v) = true.
Proof.
  intros Hv. induction u as [|c u IH]; [done|].
  cbn [app]. rewrite contains_cons, IH. apply orb_true_r.
Qed.

(** A word without [sep] that is found in [s ++ sep :: t], followed by
    more, lies within [s] or the whole find starts in [sep :: t]. *)
Lemma starts_with_sep P R s sep t :
  Forall (fun c => c <> sep) P ->
  starts_with (P ++ R) (s ++ sep :: t) = true ->
  starts_with P s = true.
Proof.
  intros HP. revert s. induction HP as [|a P Ha HP IH]; intros s; [done|].
  destruct s as [|b s]; simpl.
  - intros Hs. apply andb_true_iff in Hs as [Hab _].
    by apply Ascii.eqb_eq in Hab.
  - intros Hs. apply andb_true_iff in Hs as [-> Hs]. simpl. by apply IH.
Qed.

Lemma contains_sep P R s sep t :
  Forall (fun c => c <> sep) P ->
  contains (P ++ R) (s ++ sep :: t) = true ->
  contains P s = true \/ contains (P ++ R) (sep :: t) = true.
Proof.
  intros HP. induction s as [|c s IH]; [by right|].
  cbn [app]. rewrite contains_cons. intros Hc.
  apply orb_true_iff in Hc as [Hc|Hc].
  - left. apply starts_contains.
    by apply (starts_with_sep P R (c :: s) sep t).
  - destruct (IH Hc) as [Hl|Hr]; [|by right].
    left. rewrite contains_cons, Hl. apply orb_true_r.
Qed.

(** A pattern that opens with a literal finds nothing in a lower-case text
    that does not contain the literal. *)
Lemma search_lits_none L r prev q :
  lowered L -> lowered q -> contains L q = false ->
  search_from true (Seq (lits_of L) r) prev q = None.
Proof.
  intros HL. revert prev. induction q as [|c q IH]; intros prev Hq Hc.
  - cbn [search_from match_here rmatch].
    by rewrite rmatch_lits_fail by (done || by apply contains_false_starts).
  - cbn [search_from match_here rmatch].
    rewrite rmatch_lits_fail by (done || by apply contains_false_starts).
    apply IH.
    + by apply lowered_cons in Hq as [_ Hq].
    + by apply contains_false_tail in Hc.
Qed.

Lemma star_loop_lits_none p L prev s cs k :
  lowered L -> lowered s -> contains L s = false ->
  star_loop p prev s cs
    (fun prev' s' cs' => rmatch true (lits_of L) prev' s' cs' k) = None.
Proof.
  intros HL. revert prev. induction s as [|c s IH]; intros prev Hs Hc.
  - cbn [star_loop].
    by rewrite rmatch_lits_fail by (done || by apply contains_false_starts).
  - cbn [star_loop].
    rewrite IH; [| by apply lowered_cons in Hs as [_ Hs]
                 | by apply contains_false_tail in Hc].
    rewrite rmatch_lits_fail by (done || by apply contains_false_starts).
    by destruct (p c).
Qed.

(** The same for a pattern [head.*tail...] and its [tail]. *)
Lemma search_gap_none L1 p L2 r prev q :
  lowered L2 -> lowered q -> contains L2 q = false ->
  search_from true (Seq (lits_of L1) (Seq (Star p) (Seq (lits_of L2) r)))
    prev q = None.
Proof.
  intros HL.
  assert (Hhere : forall prev0 s, lowered s -> contains L2 s = false ->
            match_here true
              (Seq (lits_of L1) (Seq (Star p) (Seq (lits_of L2) r))) prev0 s
            = None).
  { intros prev0 s Hs Hc. unfold match_here. cbn [rmatch].
    match goal with
    | |- rmatch true (lits_of L1) prev0 s [] ?k = None =>
        destruct (rmatch_lits_result true L1 prev0 s [] k)
          as [Hn|(prev' & n & Hr)]; [exact Hn | rewrite Hr]
    end.
    apply star_loop_lits_none; [done | by apply lowered_drop
                                | by apply contains_false_drop]. }
  revert prev. induction q as [|c q IH]; intros prev Hq Hc.
  - cbn [search_from]. by rewrite Hhere.
  - cbn [search_from]. rewrite Hhere by done. apply IH.
    + by apply lowered_cons in Hq as [_ Hq].
    + by apply contains_false_tail in Hc.
Qed.

(** A greedy repetition over text that is all in the class runs to the
    end when the rest of the pattern accepts there. *)
Lemma star_loop_all p prev s cs k m :
  Forall (fun c => p c = true) s ->
  (forall prev', k prev' [] cs = Some m) ->
  star_loop p prev s cs k = Some m.
Proof.
  intros Hs Hk. revert prev. induction Hs as [|c s Hc Hs IH]; intros prev.
  - apply Hk.
  - cbn [star_loop]. by rewrite Hc, IH.
Qed.

Lemma star_loop_all_fail p prev s cs k :
  (forall prev' j, k prev' (drop j s) cs = None) ->
  star_loop p prev s cs k = None.
Proof.
  revert prev. induction s as [|c s IH]; intros prev Hk.
  - apply (Hk prev 0).
  - cbn [star_loop]. rewrite IH.
    + pose proof (Hk prev 0) as H0. cbn [skipn] in H0. rewrite H0.
      by destruct (p c).
    + intros prev' j. apply (Hk prev' (S j)).
Qed.

(** A greedy repetition gives characters back until the rest of the
    pattern accepts: it stops at the longest run that lets it. *)
Lemma star_loop_longest p prev u t cs k m :
  Forall (fun c => p c = true) u ->
  (forall prev', k prev' t cs = Some m) ->
  (forall prev' j, k prev' (drop (S j) t) cs = None) ->
  star_loop p prev (u ++ t) cs k = Some m.
Proof.
  intros Hu Hk Hshort. revert prev.
  induction Hu as [|c u Hc Hu IH]; intros prev.
  - cbn [app]. destruct t as [|c t]; [apply Hk|].
    cbn [star_loop]. rewrite star_loop_all_fail.
    + rewrite Hk. by destruct (p c).
    + intros prev' j. apply (Hshort prev' j).
  - cbn [app star_loop]. by rewrite Hc, IH.
Qed.

Lemma consumed_all s : consumed s [] = s.
Proof. unfold consumed. simpl. rewrite Nat.sub_0_r. apply firstn_all. Qed.

Lemma consumed_app u t : consumed (u ++ t) t = u.
Proof.
  unfold consumed. rewrite length_app.
  replace (length u + length t - length t) with (length u) by lia.
  apply take_app_length.
Qed.

(** A phrase pattern at the front of [prefix ++ x], [x] capturable. *)
Lemma search_phrase_ok (prefix : string) (x : str) :
  x <> [] -> Forall (fun c => loc_class c = true) x ->
  search true (phrase prefix) (py prefix ++ x) = Some ([(1, x)], []).
Proof.
  intros Hne Hx. unfold search. destruct x as [|c x]; [done|].
  assert (Hhere : match_here true (phrase prefix) None (py prefix ++ c :: x)
                  = Some ([(1, c :: x)], [])).
  { unfold match_here, phrase, lits. cbn [rmatch].
    match goal with
    | |- rmatch true (lits_of ?L) None (?L ++ ?rest) [] ?k = _ =>
        destruct (rmatch_lits_ok true L None rest [] k) as [prev' ->]
    end.
    apply Forall_cons in Hx as [Hc Hx]. rewrite Hc.
    apply star_loop_all; [exact Hx|]. intros prev''.
    unfold accept. by rewrite consumed_all. }
  destruct (py prefix ++ c :: x); cbn [search_from]; by rewrite Hhere.
Qed.

(** The reverse pattern on [u ++ " weather"], [u] capturable. *)
Lemma search_reverse_ok (u : str) :
  u <> [] -> Forall (fun c => loc_class c = true) u ->
  exists m rest,
    search false reverse_pattern (u ++ py " weather") = Some (m, rest) /\
    group 1 m = u.
Proof.
  intros Hne Hu. destruct u as [|c u]; [done|].
  apply Forall_cons in Hu as [Hc Hu].
  exists [(2, py "weather"); (1, c :: u)], [].
  split; [|reflexivity].
  unfold search. cbn [app search_from].
  assert (Hhere : match_here false reverse_pattern None
                    (c :: u ++ py " weather")
                  = Some ([(2, py "weather"); (1, c :: u)], [])).
  { unfold match_here, reverse_pattern. cbn [rmatch]. rewrite Hc.
    apply star_loop_longest; [exact Hu | |].
    - intros prev'.
      change (c :: u ++ py " weather") with ((c :: u) ++ py " weather").
      rewrite consumed_app. reflexivity.
    - intros prev' j.
      do 8 (destruct j as [|j]; [reflexivity|]). reflexivity. }
  by rewrite Hhere.
Qed.

End Matching.

Section CaseFolding.

Lemma is_word_lower c : is_word (lower_char c) = is_word c.
Proof. destruct c as [[] [] [] [] [] [] [] []]; reflexivity. Qed.

Lemma is_cased_lower c : is_cased (lower_char c) = is_cased c.
Proof. destruct c as [[] [] [] [] [] [] [] []]; reflexivity. Qed.

Lemma upper_lower c : upper_char (lower_char c) = upper_char c.
Proof. destruct c as [[] [] [] [] [] [] [] []]; reflexivity. Qed.

(** Title-casing does not depend on the case the text came in. *)
Lemma title_from_lower b s : title_from b (lower s) = title_from b s.
Proof.
  revert b. induction s as [|c s IH]; intros b; [done|].
  simpl. rewrite is_cased_lower, IH.
  by rewrite lower_char_idem, upper_lower.
Qed.

Lemma title_lower s : title (lower s) = title s.
Proof. apply title_from_lower. Qed.

Lemma at_boundary_lower prev s :
  at_boundary (lower_char <$> prev) (lower s) = at_boundary prev s.
Proof.
  unfold at_boundary. f_equal.
  - destruct prev; simpl; [apply is_word_lower | done].
  - destruct s; simpl; [done | apply is_word_lower].
Qed.

Lemma char_eq_lower c d : char_eq true c (lower_char d) = char_eq true c d.
Proof. unfold char_eq. by rewrite lower_char_idem. Qed.

(** Under IGNORECASE a pattern of literals matches a text and its
    lower-cased form alike. *)
Lemma rmatch_lower r :
  literal_only r = true ->
  forall prev s cs cs' (k k' : cont),
    (forall p0 s0 c0 c0',
       same_extent (k p0 s0 c0) (k' (lower_char <$> p0) (lower s0) c0')) ->
    same_extent (rmatch true r prev s cs k)
      (rmatch true r (lower_char <$> prev) (lower s) cs' k').
Proof.
  induction r as [|c|p| |r1 IH1 r2 IH2|r1 IH1 r2 IH2|p|p|n r IH];
    intros Hr prev s cs cs' k k' Hk; cbn [literal_only] in Hr;
    try discriminate Hr; cbn [rmatch].
  - apply Hk.
  - destruct s as [|d s]; [done|]. cbn [lower map].
    rewrite char_eq_lower. destruct (char_eq true c d); [|done].
    apply (Hk (Some d)).
  - rewrite at_boundary_lower. destruct (at_boundary prev s); [apply Hk | done].
  - apply andb_true_iff in Hr as [Hr1 Hr2].
    apply IH1; [done|]. intros p0 s0 c0 c0'. by apply IH2.
  - apply andb_true_iff in Hr as [Hr1 Hr2].
    pose proof (IH1 Hr1 prev s cs cs' k k' Hk) as H1.
    destruct (rmatch true r1 prev s cs k) as [[? ?]|],
      (rmatch true r1 (lower_char <$> prev) (lower s) cs' k') as [[? ?]|];
      try done.
    by apply IH2.
  - apply IH; [done|]. intros p0 s0 c0 c0'. apply Hk.
Qed.

Lemma match_here_lower r prev s :
  literal_only r = true ->
  same_extent (match_here true r prev s)
    (match_here true r (lower_char <$> prev) (lower s)).
Proof.
  intros Hr. unfold match_here. apply rmatch_lower; [done|].
  intros p0 s0 c0 c0'. unfold accept, same_extent, lower.
  by rewrite length_map.
Qed.

Lemma sub_from_lower r prev s skip :
  literal_only r = true ->
  sub_from true r (lower_char <$> prev) (lower s) skip
    = lower (sub_from true r prev s skip).
Proof.
  intros Hr. revert prev skip.
  induction s as [|c s IH]; intros prev skip; [done|].
  cbn [lower map sub_from]. destruct skip as [|n].
  - pose proof (match_here_lower r prev (c :: s) Hr) as Hm.
    cbn [lower map] in Hm.
    destruct (match_here true r prev (c :: s)) as [[cs rest]|],
      (match_here true r (lower_char <$> prev) (lower_char c :: map lower_char s))
      as [[cs' rest']|]; try done.
    + unfold same_extent in Hm. cbn [length]. rewrite length_map, <- Hm.
      destruct (S (length s) - length rest) as [|n].
      * cbn [lower map]. f_equal. apply (IH (Some c) 0).
      * apply (IH (Some c) n).
    + cbn [lower map]. f_equal. apply (IH (Some c) 0).
  - apply (IH (Some c) n).
Qed.

(** Removing the stop-words commutes with lower-casing. *)
Lemma cleaned_lower x : Spec.cleaned (lower x) = lower (Spec.cleaned x).
Proof.
  unfold Spec.cleaned, sub_empty.
  rewrite strip_lower.
  pose proof (sub_from_lower stop6 None (strip x) 0 eq_refl) as Hs.
  change (lower_char <$> None) with (@None ascii) in Hs. rewrite Hs.
  apply strip_lower.
Qed.

Lemma cleaned_lower_length x :
  length (Spec.cleaned (lower x)) = length (Spec.cleaned x).
Proof. rewrite cleaned_lower. unfold lower. apply length_map. Qed.

Lemma cleaned_lower_title x :
  title (Spec.cleaned (lower x)) = title (Spec.cleaned x).
Proof. rewrite cleaned_lower. apply title_lower. Qed.

End CaseFolding.

Section PhraseQueries.

Lemma search_phrase_none (prefix : string) (q : str) :
  lowered (py prefix) -> lowered q -> contains (py prefix) q = false ->
  search true (phrase prefix) q = None.
Proof. intros HL Hq Hc. by apply search_lits_none. Qed.

Lemma search_phrase_gap_none (head tail : string) (q : str) :
  lowered (py tail) -> lowered q -> contains (py tail) q = false ->
  search true (phrase_gap head tail) q = None.
Proof. intros HL Hq Hc. by apply search_gap_none. Qed.

(** A literal [A ++ K ++ R] around a keyword [K] does not occur in
    [u ++ " weather"] when [K] does not occur in [u]. *)
Lemma keyword_absent L A K R u :
  L = A ++ K ++ R ->
  Forall (fun c => c <> " "%char) K ->
  contains K u = false ->
  contains (K ++ R) (py " weather") = false ->
  contains L (u ++ py " weather") = false.
Proof.
  intros -> HK Hu Hw.
  destruct (contains (A ++ K ++ R) (u ++ py " weather")) eqn:E; [|done].
  apply contains_app_r in E.
  apply (contains_sep K R u " "%char (py "weather") HK) in E as [E|E];
    [congruence|].
  change (" "%char :: py "weather") with (py " weather") in E. congruence.
Qed.

Lemma cleaned_of_core a m b :
  blank a -> blank b -> trimmed m ->
  strip (lower (a ++ m ++ b)) = lower m /\
  strip (lower (a ++ m)) = lower m /\
  strip (lower (m ++ b)) = lower m.
Proof.
  intros Ha Hb Hm. repeat split.
  - rewrite !lower_app.
    apply strip_sandwich; auto using blank_lower, trimmed_lower.
  - rewrite <- (app_nil_r m) at 1. rewrite !lower_app.
    apply strip_sandwich; auto using blank_lower, trimmed_lower.
    constructor.
  - change (m ++ b) with ([] ++ m ++ b). rewrite !lower_app.
    apply strip_sandwich; auto using blank_lower, trimmed_lower.
    constructor.
Qed.

Lemma cleaned_not_blank X : 2 < length (Spec.cleaned (lower X)) -> ~ blank X.
Proof.
  intros Hlen Hb. unfold Spec.cleaned in Hlen.
  rewrite (blank_strip _ (blank_lower _ Hb)) in Hlen.
  vm_compute in Hlen. lia.
Qed.

Lemma loc_class_lowered x :
  Forall (fun c => loc_class c = true) x ->
  Forall (fun c => loc_class c = true) (lower x).
Proof.
  intros Hx. unfold lower. apply Forall_fmap.
  eapply Forall_impl; [exact Hx|]. intros c Hc. simpl.
  by rewrite loc_class_lower.
Qed.

Lemma trimmed_nonempty m : trimmed m -> m <> [].
Proof. by intros [(c & t & -> & _) _]. Qed.

(** A text that opens with a non-space character and ends with the trimmed
    [m] is trimmed. *)
Lemma trimmed_after c P a m :
  is_space c = false -> trimmed m -> trimmed ((c :: P) ++ a ++ m).
Proof.
  intros Hc [_ (t & d & -> & Hd)]. split.
  - by exists c, (P ++ a ++ t ++ [d]).
  - exists ((c :: P) ++ a ++ t), d. by rewrite <- !app_assoc.
Qed.

Lemma trimmed_before m b P d :
  is_space d = false -> trimmed m -> trimmed (m ++ b ++ P ++ [d]).
Proof.
  intros Hd [(c & t & -> & Hc) _]. split.
  - by exists c, (t ++ b ++ P ++ [d]).
  - exists ((c :: t) ++ b ++ P), d. by rewrite <- !app_assoc.
Qed.

(** "weather in X", "temperature in X": the text the pattern is run on. *)
Lemma phrase_query_lowered (prefix : string) c P a m b :
  py prefix = c :: P -> is_space c = false -> lowered (py prefix) ->
  blank a -> blank b -> trimmed m ->
  lower (strip (py prefix ++ a ++ m ++ b)) = py prefix ++ lower (a ++ m).
Proof.
  intros Hp Hc Hl Ha Hb Hm.
  replace (py prefix ++ a ++ m ++ b) with ([] ++ (py prefix ++ a ++ m) ++ b)
    by by rewrite <- !app_assoc.
  rewrite strip_sandwich; [| constructor | done
                           | rewrite Hp; by apply trimmed_after].
  by rewrite lower_app, Hl.
Qed.

Lemma weather_in_query X :
  Forall (fun c => loc_class c = true) X ->
  2 < length (Spec.cleaned (lower X)) ->
  extract_location (py "weather in " ++ X) = Some (title (Spec.cleaned (lower X))).
Proof.
  intros Hcls Hlen.
  destruct (strip_decompose X) as [Hb|(a & m & b & -> & Ha & Hb & Hm)].
  { by apply cleaned_not_blank in Hlen. }
  destruct (cleaned_of_core a m b Ha Hb Hm) as (Hfull & Hleft & _).
  unfold Spec.cleaned in *. rewrite Hfull in *.
  unfold extract_location.
  change (negb (truthy (py "weather in " ++ a ++ m ++ b))) with false.
  cbn iota.
  rewrite (phrase_query_lowered "weather in " "w" (py "eather in "))
    by done.
  unfold patterns. cbn [try_patterns].
  rewrite search_phrase_ok.
  - cbn [group Nat.eqb]. rewrite Hleft.
    by destruct (Nat.ltb_spec 2 (length (strip (sub_empty true stop6 (lower m)))));
      [|lia].
  - intros Hnil. apply (f_equal length) in Hnil.
    unfold lower in Hnil. rewrite length_map, !length_app in Hnil.
    apply trimmed_nonempty in Hm. destruct m; simpl in *; [done | lia].
  - apply loc_class_lowered. rewrite app_assoc in Hcls.
    by apply Forall_app in Hcls as [Hcls _].
Qed.

(** A character of a literal that is found is in the text. *)
Lemma starts_with_elem K t c :
  starts_with K t = true -> c ∈ K -> c ∈ t.
Proof.
  revert t. induction K as [|k K IH]; intros t Hs Hc; [by inversion Hc|].
  destruct t as [|x t]; [discriminate Hs|]. cbn [starts_with] in Hs.
  apply andb_true_iff in Hs as [Hk Hs]. apply Ascii.eqb_eq in Hk. subst x.
  apply elem_of_cons in Hc as [->|Hc]; [left | right; by apply IH].
Qed.

Lemma contains_elem K t c :
  contains K t = true -> c ∈ K -> c ∈ t.
Proof.
  induction t as [|x t IH]; intros Hs Hc.
  - cbn in Hs. rewrite orb_false_r in Hs. by eapply starts_with_elem.
  - rewrite contains_cons in Hs. apply orb_true_iff in Hs as [Hs|Hs].
    + by eapply starts_with_elem.
    + right. by apply IH.
Qed.

(** A literal that ends with [sep] is not found across the start of a text
    without [sep]. *)
Lemma starts_with_trail K sep s t :
  Forall (fun c => c <> sep) t ->
  starts_with (K ++ [sep]) (s ++ t) = true ->
  starts_with (K ++ [sep]) s = true.
Proof.
  intros Ht. revert s. induction K as [|k K IH]; intros s Hs.
  - destruct s as [|x s]; [|exact Hs]. exfalso.
    rewrite Forall_forall in Ht. apply (Ht sep); [|done].
    eapply starts_with_elem; [exact Hs | left].
  - destruct s as [|x s].
    + exfalso. rewrite Forall_forall in Ht. apply (Ht sep); [|done].
      eapply starts_with_elem; [exact Hs|].
      right. apply elem_of_app. right. left.
    + cbn [app starts_with] in *. apply andb_true_iff in Hs as [Hk Hs].
      rewrite Hk. cbn [andb]. by apply IH.
Qed.

Lemma contains_trail K sep s t :
  Forall (fun c => c <> sep) t ->
  contains (K ++ [sep]) (s ++ t) = false <-> contains (K ++ [sep]) s = false.
Proof.
  intros Ht. split.
  - intros Hc. destruct (contains (K ++ [sep]) s) eqn:E; [|done].
    apply (contains_grow _ _ t) in E. congruence.
  - intros Hc. destruct (contains (K ++ [sep]) (s ++ t)) eqn:E; [|done].
    exfalso. revert Hc E. induction s as [|x s IH]; intros Hc E.
    + rewrite Forall_forall in Ht. apply (Ht sep); [|done].
      eapply contains_elem; [exact E|]. apply elem_of_app. right. left.
    + rewrite contains_cons in Hc. apply orb_false_iff in Hc as [Hs Hc].
      change ((x :: s) ++ t) with (x :: s ++ t) in E.
      rewrite contains_cons in E. apply orb_true_iff in E as [E|E].
      * apply (starts_with_trail K sep (x :: s) t Ht) in E. congruence.
      * by apply IH.
Qed.

(** A literal is not found from inside a prefix that lacks its first
    character. *)
Lemma contains_skip k K P s :
  Forall (fun c => c <> k) P ->
  contains (k :: K) (P ++ s) = contains (k :: K) s.
Proof.
  induction 1 as [|c P Hc HP IH]; [done|].
  change ((c :: P) ++ s) with (c :: P ++ s). rewrite contains_cons, IH.
  cbn [starts_with]. destruct (Ascii.eqb k c) eqn:E; [|done].
  apply Ascii.eqb_eq in E. congruence.
Qed.

(** A literal around one that is not found is not found. *)
Lemma contains_inner A K R s :
  contains K s = false -> contains (A ++ K ++ R) s = false.
Proof.
  intros HK. destruct (contains (A ++ K ++ R) s) eqn:E; [|done].
  apply contains_app_r, contains_app_l in E. congruence.
Qed.

Lemma blank_not_letter a k :
  blank a -> is_space k = false -> Forall (fun c => c <> k) a.
Proof.
  intros Ha Hk. eapply Forall_impl; [exact Ha|].
  intros c Hc ->. simpl in Hc. congruence.
Qed.

Lemma temperature_in_query X :
  Forall (fun c => loc_class c = true) X ->
  2 < length (Spec.cleaned (lower X)) ->
  contains (py "weather in ") (lower (strip X)) = false ->
  contains (py "weather at ") (lower (strip X)) = false ->
  extract_location (py "temperature in " ++ X)
    = Some (title (Spec.cleaned (lower X))).
Proof.
  intros Hcls Hlen Hin Hat.
  rewrite <- strip_lower in Hin, Hat.
  destruct (strip_decompose X) as [Hb|(a & m & b & -> & Ha & Hb & Hm)].
  { by apply cleaned_not_blank in Hlen. }
  destruct (cleaned_of_core a m b Ha Hb Hm) as (Hfull & Hleft & _).
  unfold Spec.cleaned in *. rewrite Hfull in *.
  unfold extract_location.
  change (negb (truthy (py "temperature in " ++ a ++ m ++ b))) with false.
  cbn iota.
  assert (Hq : lowered (lower (strip (py "temperature in " ++ a ++ m ++ b))))
    by apply lowered_lower.
  rewrite (phrase_query_lowered "temperature in " "t" (py "emperature in "))
    in * by done.
  assert (Hskip : forall K,
            contains ("w"%char :: K) (lower m) = false ->
            contains ("w"%char :: K) (py "temperature in " ++ lower (a ++ m))
            = false).
  { intros K HK. rewrite lower_app, app_assoc, contains_skip; [exact HK|].
    apply Forall_app. split.
    - repeat constructor; discriminate.
    - apply blank_not_letter; [by apply blank_lower | reflexivity]. }
  unfold patterns. cbn [try_patterns].
  rewrite (search_phrase_none "weather in ") by (done || by apply Hskip).
  rewrite (search_phrase_none "weather at ") by (done || by apply Hskip).
  rewrite search_phrase_ok.
  - cbn [group Nat.eqb]. rewrite Hleft.
    by destruct (Nat.ltb_spec 2 (length (strip (sub_empty true stop6 (lower m)))));
      [|lia].
  - intros Hnil. apply (f_equal length) in Hnil.
    unfold lower in Hnil. rewrite length_map, !length_app in Hnil.
    apply trimmed_nonempty in Hm. destruct m; simpl in *; [done | lia].
  - apply loc_class_lowered. rewrite app_assoc in Hcls.
    by apply Forall_app in Hcls as [Hcls _].
Qed.

Lemma no_space_in (K : str) :
  forallb (fun c => negb (Ascii.eqb c " ")) K = true ->
  Forall (fun c => c <> " "%char) K.
Proof.
  intros HK. apply Forall_forall. intros c Hc Heq. subst c.
  apply list_elem_of_In in Hc.
  apply (proj1 (forallb_forall _ _) HK) in Hc. discriminate Hc.
Qed.

Lemma weather_after_query X :
  Forall (fun c => loc_class c = true) X ->
  2 < length (Spec.cleaned (lower X)) ->
  contains (py "weather ") (lower X ++ py " ") = false ->
  contains (py "temperature ") (lower X ++ py " ") = false ->
  contains (py "forecast for ") (lower X ++ py " ") = false ->
  extract_location (X ++ py " weather") = Some (title (Spec.cleaned (lower X))).
Proof.
  intros Hcls Hlen Hw Ht Hf.
  destruct (strip_decompose X) as [Hb|(a & m & b & -> & Ha & Hb & Hm)].
  { by apply cleaned_not_blank in Hlen. }
  destruct (cleaned_of_core a m b Ha Hb Hm) as (Hfull & _ & Hright).
  unfold Spec.cleaned in *. rewrite Hfull in *.
  unfold extract_location.
  assert (Htruthy : truthy ((a ++ m ++ b) ++ py " weather") = true).
  { by destruct (a ++ m ++ b). }
  rewrite Htruthy. cbn [negb].
  assert (Hq : lowered (lower (strip ((a ++ m ++ b) ++ py " weather"))))
    by apply lowered_lower.
  assert (Hstrip : lower (strip ((a ++ m ++ b) ++ py " weather"))
                   = lower (m ++ b) ++ py " weather").
  { replace ((a ++ m ++ b) ++ py " weather")
      with (a ++ (m ++ b ++ py " weathe" ++ ["r"%char]) ++ [])
      by (rewrite app_nil_r, <- !app_assoc; reflexivity).
    rewrite strip_sandwich;
      [| done | constructor | by apply trimmed_before].
    rewrite app_assoc, lower_app. reflexivity. }
  rewrite Hstrip in *.
  set (u := lower (m ++ b)) in *.
  assert (Hquery : forall K : string,
            contains (py K ++ [" "%char]) (lower (a ++ m ++ b) ++ py " ")
              = false ->
            contains (py K ++ [" "%char]) (u ++ py " weather") = false).
  { intros K HK.
    change (py " weather") with (py " " ++ py "weather").
    rewrite app_assoc. apply contains_trail.
    { repeat constructor; discriminate. }
    destruct (contains (py K ++ [" "%char]) (u ++ py " ")) eqn:E; [|done].
    apply (contains_suffix _ (lower a)) in E.
    rewrite app_assoc in E. unfold u in E. rewrite <- lower_app in E.
    congruence. }
  apply (Hquery "weather") in Hw.
  apply (Hquery "temperature") in Ht.
  apply (Hquery "forecast for") in Hf.
  change (py "weather" ++ [" "%char]) with (py "weather ") in Hw.
  change (py "temperature" ++ [" "%char]) with (py "temperature ") in Ht.
  change (py "forecast for" ++ [" "%char]) with (py "forecast for ") in Hf.
  assert (Hu : Forall (fun c => loc_class c = true) u).
  { apply loc_class_lowered. by apply Forall_app in Hcls as [_ Hcls]. }
  assert (Hne : u <> []).
  { intros Hnil. apply (f_equal length) in Hnil. unfold u, lower in Hnil.
    rewrite length_map, length_app in Hnil.
    apply trimmed_nonempty in Hm. destruct m; simpl in *; [done | lia]. }
  unfold patterns. cbn [try_patterns].
  rewrite (search_phrase_none "weather in ")
    by (done || exact (contains_inner [] (py "weather ") (py "in ") _ Hw)).
  rewrite (search_phrase_none "weather at ")
    by (done || exact (contains_inner [] (py "weather ") (py "at ") _ Hw)).
  rewrite (search_phrase_none "temperature in ")
    by (done || exact (contains_inner [] (py "temperature ") (py "in ") _ Ht)).
  rewrite (search_phrase_none "forecast for ") by done.
  rewrite (search_phrase_gap_none "what" "weather in ")
    by (done || exact (contains_inner [] (py "weather ") (py "in ") _ Hw)).
  rewrite (search_phrase_gap_none "how" "weather in ")
    by (done || exact (contains_inner [] (py "weather ") (py "in ") _ Hw)).
  rewrite (search_phrase_none "current weather in ")
    by (done ||
        exact (contains_inner (py "current ") (py "weather ") (py "in ") _ Hw)).
  rewrite (search_phrase_none "what's the weather in ")
    by (done ||
        exact (contains_inner (py "what's the ") (py "weather ") (py "in ")
                 _ Hw)).
  rewrite (search_phrase_none "weather ") by done.
  rewrite (search_phrase_none "temperature ") by done.
  destruct (search_reverse_ok u Hne Hu) as (m0 & rest & Hsearch & Hgroup).
  unfold try_reverse. rewrite Hsearch, Hgroup, Hright.
  by destruct (Nat.ltb_spec 2 (length (strip (sub_empty true stop6 (lower m)))));
    [|lia].
Qed.

End PhraseQueries.

(** C7, as stated: any X longer than 2 characters after stripping. With
    X = "goa?" the pattern captures only "goa", and the query
    "weather in goa?" resolves to "Goa", not to "Goa?". *)
Lemma phrase_queries_refuted :
  ~ (forall X : str,
       2 < length (Spec.cleaned X) ->
       extract_location (py "weather in " ++ X)
         = Some (title (Spec.cleaned X)) /\
       extract_location (py "temperature in " ++ X)
         = Some (title (Spec.cleaned X)) /\
       extract_location (X ++ py " weather")
         = Some (title (Spec.cleaned X))).
Proof.
  intros Hall. destruct (Hall (py "goa?")) as [Hgoa _].
  - vm_compute. lia.
  - vm_compute in Hgoa. discriminate Hgoa.
Qed.

(** C7, amended. Let X consist only of the ASCII characters the patterns
    capture (letters, digits, underscore, whitespace, comma, full stop,
    apostrophe, hyphen) and be longer than 2 characters once stripped of the
    stop-words the, at, in, for, near, th and trimmed. Then "weather in X"
    resolves to that stripped text, title-cased; so does "temperature in X"
    unless X, trimmed, contains "weather in " or "weather at ", which an
    earlier pattern matches; so does "X weather" unless X followed by a
    space contains "weather ", "temperature " or "forecast for ", which an
    earlier pattern matches (all in any case). *)
Theorem phrase_queries_resolve (X : str) :
  Forall (fun c => loc_class c = true) X ->
  2 < length (Spec.cleaned X) ->
  extract_location (py "weather in " ++ X) = Some (title (Spec.cleaned X)) /\
  (contains (py "weather in ") (lower (strip X)) = false ->
   contains (py "weather at ") (lower (strip X)) = false ->
   extract_location (py "temperature in " ++ X)
     = Some (title (Spec.cleaned X))) /\
  (contains (py "weather ") (lower X ++ py " ") = false ->
   contains (py "temperature ") (lower X ++ py " ") = false ->
   contains (py "forecast for ") (lower X ++ py " ") = false ->
   extract_location (X ++ py " weather") = Some (title (Spec.cleaned X))).
Proof.
  intros Hcls Hlen.
  rewrite <- cleaned_lower_title. rewrite <- cleaned_lower_length in Hlen.
  auto using weather_in_query, temperature_in_query, weather_after_query.
Qed.

Lemma phrase_queries_resolve_witness :
  extract_location (py "weather in " ++ py "the New York")
    = Some (title (Spec.cleaned (py "the New York"))) /\
  extract_location (py "temperature in " ++ py "the New York")
    = Some (title (Spec.cleaned (py "the New York"))) /\
  extract_location (py "the New York" ++ py " weather")
    = Some (title (Spec.cleaned (py "the New York"))).
Proof.
  destruct (phrase_queries_resolve (py "the New York")) as (H1 & H2 & H3).
  - vm_compute. repeat constructor.
  - vm_compute. lia.
  - split; [exact H1|]. split; [apply H2 | apply H3]; reflexivity.
Defined.

(** A trigger keyword inside the location does no harm by itself; what
    decides is whether an earlier pattern matches. *)
Example keyword_inside_location :
  extract_location (py "temperature in delhi weather")
    = Some (py "Delhi Weather") /\
  extract_location (py "weatherford weather") = Some (py "Weatherford") /\
  extract_location (py "temperature in delhi weather in goa")
    = Some (py "Goa") /\
  extract_location (py "new weather weather") = Some (py "Weather") /\
  extract_location (py "forecast for rome weather")
    = Some (py "Rome Weather").
Proof. by vm_compute. Qed.

Example new_york_three_ways :
  extract_location (py "weather in the New York") = Some (py "New York") /\
  extract_location (py "temperature in the New York") = Some (py "New York") /\
  extract_location (py "the New York weather") = Some (py "New York").
Proof. by vm_compute. Qed.

(** * Further properties *)

(** ** Location extraction, whatever the query *)

Section Extraction.

Lemma truthy_lower q : truthy (lower q) = truthy q.
Proof. by destruct q. Qed.

Lemma strip_trimmed s : strip s = [] \/ trimmed (strip s).
Proof.
  destruct (strip_decompose s) as [Hb|(a & m & b & -> & Ha & Hb & Hm)].
  - left. by apply blank_strip.
  - right. by rewrite strip_sandwich.
Qed.

Lemma strip_idem s : strip (strip s) = strip s.
Proof.
  destruct (strip_trimmed s) as [->|Hm]; [reflexivity|].
  rewrite <- (app_nil_r (strip s)) at 1.
  change (strip s ++ []) with ([] ++ strip s ++ []).
  apply strip_sandwich; [constructor | constructor | exact Hm].
Qed.









Lemma extract_location_blank query :
  strip query = [] -> extract_location query = None.
Proof.
  intros Hs. unfold extract_location. rewrite Hs.
  by destruct (negb (truthy query)).
Qed.

End Extraction.

(** X1. The location found does not depend on the case of the letters of
    the query, nor on whitespace around it. *)
Theorem extract_location_ignores_case_and_margins (query : str) :
  extract_location (lower query) = extract_location query /\
  extract_location (strip query) = extract_location query.
Proof.
  split.
  - unfold extract_location. rewrite truthy_lower, strip_lower.
    by rewrite (lowered_lower (strip query)).
  - destruct (strip query) as [|c s] eqn:Hs.
    { by rewrite (extract_location_blank query Hs). }
    unfold extract_location. rewrite <- Hs, strip_idem, Hs.
    destruct query; [discriminate Hs | reflexivity].
Qed.



(** X3. Follow-up detection looks for its terms anywhere in the message and
    in any case: text added before or after a follow-up, or lower-casing it,
    leaves it a follow-up. *)
Theorem followup_survives_context (q a b : str) :
  is_weather_followup q = true ->
  is_weather_followup (a ++ q ++ b) = true /\
  is_weather_followup (lower q) = true.
Proof.
  unfold is_weather_followup. intros Hq.
  destruct q as [|c q]; [discriminate Hq|]. cbn [truthy negb] in Hq.
  assert (Hmono : forall terms : list string,
            existsb (fun w => contains (py w) (lower (c :: q))) terms = true ->
            existsb (fun w => contains (py w) (lower (a ++ (c :: q) ++ b))) terms
            = true).
  { intros terms Ht. apply existsb_exists in Ht as (w & Hw & Hc).
    apply existsb_exists. exists w. split; [exact Hw|].
    rewrite !lower_app. by apply contains_suffix, contains_grow. }
  split.
  - assert (Hne : truthy (a ++ (c :: q) ++ b) = true) by by destruct a.
    rewrite Hne. cbn [negb].
    apply orb_true_iff in Hq as [Hq|Hq]; apply orb_true_iff;
      [left | right]; by apply Hmono.
  - rewrite truthy_lower. cbn [truthy negb].
    by rewrite (lowered_lower (c :: q)).
Qed.

Lemma followup_survives_context_witness :
  is_weather_followup (py "ok, " ++ py "What About" ++ py " sunday?") = true /\
  is_weather_followup (lower (py "What About")) = true.
Proof.
  apply (followup_survives_context (py "What About")). reflexivity.
Defined.

(** ** Chat titles *)

Section Titles.

Lemma split_acc_nil w s : split_acc w s = [] <-> w = [] /\ blank s.
Proof.
  revert w. induction s as [|c s IH]; intros w.
  - simpl. destruct w; split; try done.
    + intros _. split; [done | constructor].
    + by intros [? _].
  - cbn [split_acc]. destruct (is_space c) eqn:Hc.
    + destruct w as [|x w].
      * rewrite IH. split; intros [_ Hb]; (split; [done|]).
        -- by constructor.
        -- by apply Forall_cons in Hb as [_ Hb].
      * split; [done | by intros [? _]].
    + rewrite IH. split.
      * intros [Hw _]. by destruct w.
      * intros [_ Hb]. apply Forall_cons in Hb as [Hb _]. congruence.
Qed.

Lemma split_acc_head w s x l : split_acc w s = x :: l -> x <> [].
Proof.
  revert w. induction s as [|c s IH]; intros w.
  - simpl. destruct w; [done|]. by intros [= <- _].
  - cbn [split_acc]. destruct (is_space c).
    + destruct w as [|y w]; [apply IH | by intros [= <- _]].
    + apply IH.
Qed.

Lemma join_head_nonempty sep x l : x <> [] -> join sep (x :: l) <> [].
Proof. intros Hx. destruct x; [done|]. by destruct l. Qed.

End Titles.

(** X4. A chat title is never longer than 30 characters. *)
Theorem chat_title_at_most_30 (text : str) :
  length (Title.generate_chat_title text) <= 30.
Proof.
  unfold Title.generate_chat_title.
  destruct (negb (truthy text)); [vm_compute; lia|]. cbn zeta.
  destruct (Nat.leb_spec (length (join (py " ") (take 4 (split text)))) 30)
    as [Hle|Hgt]; [exact Hle|].
  rewrite length_app, length_take. cbn [length py list_ascii_of_string]. lia.
Qed.

(** X5. The title is empty exactly for a text that is not empty but holds
    only whitespace; the empty text gets "New Chat". *)
Theorem chat_title_empty_iff_blank (text : str) :
  (Title.generate_chat_title text = [] <-> text <> [] /\ blank text) /\
  Title.generate_chat_title [] = py "New Chat".
Proof.
  split; [|reflexivity].
  unfold Title.generate_chat_title.
  destruct text as [|c text]; [split; [discriminate | by intros [? _]]|].
  cbn [truthy negb]. cbn zeta. set (s := c :: text).
  destruct (split s) as [|x l] eqn:Hsplit.
  - apply split_acc_nil in Hsplit as [_ Hb]. simpl. by split.
  - apply split_acc_head in Hsplit as Hx.
    assert (Hne : join (py " ") (take 4 (x :: l)) <> [])
      by (cbn [take]; by apply join_head_nonempty).
    assert (Hnb : ~ blank s).
    { intros Hb. assert (Hn : split s = []) by by apply split_acc_nil.
      congruence. }
    split; [|by intros [_ ?]].
    destruct (length _ <=? 30); [done|].
    intros Happ. apply app_eq_nil in Happ as [_ Hdots]. discriminate Hdots.
Qed.

(** ** The user of a request *)

Section Users.
Context `{Auth.Jose}.

Lemma lower_char_keeps_space c :
  Ascii.eqb " " (lower_char c) = true -> Ascii.eqb c " " = true.
Proof. destruct c as [[] [] [] [] [] [] [] []]; try reflexivity; discriminate. Qed.

Lemma lower_char_not_space x c :
  Ascii.eqb x (lower_char c) = true -> Ascii.eqb x " " = false ->
  Ascii.eqb c " " = false.
Proof.
  intros Hx Hn. destruct (Ascii.eqb c " ") eqn:Hc; [|done].
  apply Ascii.eqb_eq in Hc. subst c. apply Ascii.eqb_eq in Hx. subst x.
  discriminate Hn.
Qed.

(** After the prefix "bearer " in any case, [split(" ", 1)] has two
    pieces. *)
Lemma split_once_bearer h :
  starts_with (py "bearer ") (lower h) = true ->
  Auth.split_once " " h = [take 6 h; drop 7 h].
Proof.
  intros Hs.
  destruct h as [|c0 [|c1 [|c2 [|c3 [|c4 [|c5 [|c6 h]]]]]]];
    cbn [lower map py list_ascii_of_string starts_with] in Hs;
    rewrite ?andb_false_r in Hs; try discriminate Hs.
  repeat (apply andb_true_iff in Hs as [? Hs]).
  unfold Auth.split_once. cbn [Auth.split_once_acc].
  repeat (erewrite lower_char_not_space by (eassumption || reflexivity)).
  rewrite lower_char_keeps_space by assumption.
  reflexivity.
Qed.

Lemma find_token_cookie r t :
  Auth.cookies r (py "access_token") = Some t -> truthy t = true ->
  Auth.find_token r = inr (Some t).
Proof. intros Hc Ht. unfold Auth.find_token. by rewrite Hc; cbn; rewrite Ht. Qed.

Lemma find_token_bearer r h :
  truthy_opt (Auth.cookies r (py "access_token")) = false ->
  Auth.headers r (py "authorization") = Some h ->
  starts_with (py "bearer ") (lower h) = true ->
  Auth.find_token r = inr (Some (strip (drop 7 h))).
Proof.
  intros Hc Hh Hs. unfold Auth.find_token. rewrite Hc. cbn [negb].
  assert (Ht : truthy h = true) by (by destruct h).
  unfold Auth.or_opt. rewrite Hh. cbn [truthy_opt]. rewrite Ht, Hs.
  rewrite ?Ht. cbn [andb]. by rewrite (split_once_bearer h Hs).
Qed.

Lemma find_token_never_fails r : exists token, Auth.find_token r = inr token.
Proof.
  unfold Auth.find_token.
  destruct (negb _); [|by eexists].
  destruct (Auth.or_opt _ _) as [h|]; [|by eexists].
  destruct (truthy h && starts_with (py "bearer ") (lower h)) eqn:Hb;
    [|by eexists].
  apply andb_true_iff in Hb as [_ Hs].
  rewrite (split_once_bearer h Hs). by eexists.
Qed.

End Users.

(** X6. [get_current_user_id] fails only with an HTTP 401: the header split
    cannot go out of range. When it returns an id, that id is what [int]
    makes of the non-empty [sub] of a token that is not empty, not a
    placeholder, and that decodes. *)
Theorem get_current_user_id_outcomes `{Auth.Jose} (request : Auth.request) :
  match Auth.get_current_user_id request with
  | Auth.Return n =>
      exists t u,
        truthy t = true /\ Auth.placeholder t = false /\
        Auth.jwt_decode t = Auth.Payload (Some u) /\
        truthy u = true /\ Auth.int_of_str u = Some n
  | Auth.Raise (Auth.HTTPException status_code _) => status_code = 401%Z
  | Auth.Raise Auth.IndexError => False
  end.
Proof.
  unfold Auth.get_current_user_id.
  destruct (find_token_never_fails request) as [token ->].
  unfold Auth.check_token, Auth.unauthorized.
  destruct token as [t|]; [|done].
  destruct (truthy t) eqn:Ht; [|done]. cbn [negb orb].
  destruct (Auth.placeholder t) eqn:Hp; [done|].
  destruct (Auth.jwt_decode t) as [| |[u|]] eqn:Hd; try done.
  destruct (truthy u) eqn:Hu; [|done]. cbn [negb].
  destruct (Auth.int_of_str u) as [n|] eqn:Hn; [|done].
  by exists t, u.
Qed.

(** X7. A non-empty [access_token] cookie decides alone: two requests with
    that cookie get the same answer, whatever their headers. *)
Theorem cookie_takes_precedence `{Auth.Jose} (r r' : Auth.request) (t : str) :
  Auth.cookies r (py "access_token") = Some t ->
  Auth.cookies r' (py "access_token") = Some t ->
  truthy t = true ->
  Auth.get_current_user_id r' = Auth.get_current_user_id r.
Proof.
  intros Hr Hr' Ht. unfold Auth.get_current_user_id.
  by rewrite (find_token_cookie r t Hr Ht), (find_token_cookie r' t Hr' Ht).
Qed.

Lemma cookie_takes_precedence_witness :
  Auth.get_current_user_id (H := Cases.jose)
    (Cases.with_both "tok42" "Bearer old")
  = Auth.get_current_user_id (H := Cases.jose) (Cases.with_cookie "tok42").
Proof.
  apply (cookie_takes_precedence (H := Cases.jose)
           (Cases.with_cookie "tok42") (Cases.with_both "tok42" "Bearer old")
           (py "tok42")); reflexivity.
Defined.

(** X8. Without a cookie, a header that starts with "bearer " in any case
    stands for the cookie whose value is the header after its first seven
    characters, stripped. *)
Theorem bearer_header_stands_for_cookie `{Auth.Jose} (r : Auth.request)
    (h : str) :
  truthy_opt (Auth.cookies r (py "access_token")) = false ->
  Auth.headers r (py "authorization") = Some h ->
  starts_with (py "bearer ") (lower h) = true ->
  Auth.get_current_user_id r =
  Auth.get_current_user_id
    {| Auth.cookies := fun _ => Some (strip (drop 7 h));
       Auth.headers := fun _ => None |}.
Proof.
  intros Hc Hh Hs. unfold Auth.get_current_user_id.
  rewrite (find_token_bearer r h Hc Hh Hs).
  destruct (truthy (strip (drop 7 h))) eqn:Ht.
  - by rewrite (find_token_cookie
                  {| Auth.cookies := fun _ => Some (strip (drop 7 h));
                     Auth.headers := fun _ => None |}
                  (strip (drop 7 h)) eq_refl Ht).
  - unfold Auth.find_token. cbn [Auth.cookies Auth.headers truthy_opt].
    rewrite Ht. reflexivity.
Qed.

Lemma bearer_header_stands_for_cookie_witness :
  Auth.get_current_user_id (H := Cases.jose)
    (Cases.with_header "BEARER   tok42 ")
  = Auth.get_current_user_id (H := Cases.jose)
      {| Auth.cookies := fun _ => Some (strip (drop 7 (py "BEARER   tok42 ")));
         Auth.headers := fun _ => None |}.
Proof.
  apply (bearer_header_stands_for_cookie (H := Cases.jose)
           (Cases.with_header "BEARER   tok42 ")); reflexivity.
Defined.

(** ** The connection pool *)

(** X9. [get_db_connection] lets no error of the driver out: it answers with
    no connection instead. A call builds at most one pool, and none while
    one is held; a connection handed out was given by the pool that is held
    afterwards. *)
Theorem get_db_connection_contains_driver_errors `{Database.Driver}
    (p : Database.process) :
  let r := Database.get_db_connection p in
  r.1 <> Database.Error /\
  Database.pools_built p <= Database.pools_built r.2 /\
  Database.pools_built r.2 <= S (Database.pools_built p) /\
  (is_Some (Database.POOL p) ->
   Database.pools_built r.2 = Database.pools_built p) /\
  (forall c, r.1 = Database.Ok (Some c) ->
     exists pl, Database.POOL r.2 = Some pl /\
       Database.pool_get_connection pl (Database.connections_asked p)
       = Database.Ok (Some c)).
Proof.
  unfold Database.get_db_connection, Database.init_pool, Database.on_error.
  destruct p as [[pl|] built asked]; cbn [Database.POOL Database.pools_built
    Database.connections_asked].
  - destruct (Database.pool_get_connection pl asked) as [[c|]| |] eqn:Hc;
      cbn; repeat split; try done; try lia.
    intros c' [= <-]. by exists pl.
  - destruct (Database.MySQLConnectionPool built) as [pl| |]; cbn;
      try (repeat split; try done; try lia; by intros []).
    destruct (Database.pool_get_connection pl asked) as [[c|]| |] eqn:Hc;
      cbn; repeat split; try done; try lia; try (by intros []).
    intros c' [= <-]. by exists pl.
Qed.

(** X10. With a driver that does not fail, any number of calls builds one
    pool at most, and asks it for one connection per call. *)
Theorem pool_built_once `{Database.Driver} (n : nat) (p : Database.process) :
  (forall k, exists pl, Database.MySQLConnectionPool k = Database.Ok pl) ->
  (forall pl k, exists c, Database.pool_get_connection pl k = Database.Ok c) ->
  Database.pools_built (Database.after_calls n p)
    <= S (Database.pools_built p) /\
  (is_Some (Database.POOL p) ->
   Database.pools_built (Database.after_calls n p) = Database.pools_built p) /\
  Database.connections_asked (Database.after_calls n p)
    = n + Database.connections_asked p /\
  (0 < n -> is_Some (Database.POOL (Database.after_calls n p))).
Proof.
  intros Hbuild Hget.
  assert (Hstep : forall q,
    let q' := (Database.get_db_connection q).2 in
    is_Some (Database.POOL q') /\
    Database.connections_asked q' = S (Database.connections_asked q) /\
    Database.pools_built q' <= S (Database.pools_built q) /\
    (is_Some (Database.POOL q) ->
     Database.pools_built q' = Database.pools_built q)).
  { intros [[pl|] built asked]; unfold Database.get_db_connection,
      Database.init_pool; cbn [Database.POOL Database.pools_built
      Database.connections_asked].
    - destruct (Hget pl asked) as [[c|] ->]; cbn; repeat split; eauto.
    - destruct (Hbuild built) as [pl ->]. cbn [Database.POOL
        Database.pools_built Database.connections_asked].
      destruct (Hget pl asked) as [[c|] ->]; cbn; repeat split; eauto;
        by intros []. }
  assert (Hheld : forall m q, is_Some (Database.POOL q) ->
    Database.pools_built (Database.after_calls m q) = Database.pools_built q /\
    is_Some (Database.POOL (Database.after_calls m q))).
  { induction m as [|m IH]; intros q Hq; [done|].
    cbn [Database.after_calls].
    destruct (Hstep q) as (Hsome & _ & _ & Hsame).
    destruct (IH _ Hsome) as [Hb Hp]. split; [|exact Hp].
    rewrite Hb. by apply Hsame. }
  split; [|split; [|split]].
  - destruct n as [|n]; [cbn; lia|]. cbn [Database.after_calls].
    destruct (Hstep p) as (Hsome & _ & Hle & _).
    destruct (Hheld n _ Hsome) as [-> _]. exact Hle.
  - intros Hp. by apply Hheld.
  - revert p. induction n as [|n IH]; intros p; [done|].
    cbn [Database.after_calls]. rewrite IH.
    destruct (Hstep p) as (_ & -> & _). lia.
  - intros Hn. destruct n as [|n]; [lia|]. cbn [Database.after_calls].
    destruct (Hstep p) as (Hsome & _). by apply Hheld.
Qed.

Lemma pool_built_once_witness :
  Database.pools_built
      (Database.after_calls (H := Cases.steady) 5 Cases.cold) <= 1 /\
  (is_Some (Database.POOL Cases.cold) ->
   Database.pools_built (Database.after_calls (H := Cases.steady) 5 Cases.cold)
   = 0) /\
  Database.connections_asked
      (Database.after_calls (H := Cases.steady) 5 Cases.cold) = 5 /\
  (0 < 5 -> is_Some (Database.POOL
                       (Database.after_calls (H := Cases.steady) 5 Cases.cold))).
Proof.
  apply (pool_built_once (H := Cases.steady) 5 Cases.cold).
  - intros k. by exists k.
  - intros pl k. by eexists.
Defined.

(** X11. When the driver raises its error, at the construction of the pool
    or at the request of a connection, the caller gets no connection, no
    pool is held any more, and the next call constructs a new one. *)
Theorem driver_error_resets_pool `{Database.Driver} (p : Database.process) :
  Database.driver_error p ->
  let r := Database.get_db_connection p in
  r.1 = Database.Ok None /\
  Database.POOL r.2 = None /\
  Database.pools_built (Database.get_db_connection r.2).2
    = S (Database.pools_built r.2).
Proof.
  unfold Database.driver_error, Database.get_db_connection,
    Database.init_pool, Database.on_error.
  destruct p as [[pl|] built asked]; cbn [Database.POOL Database.pools_built
    Database.connections_asked].
  - intros ->. cbn. repeat case_match; simplify_eq/=; done.
  - destruct (Database.MySQLConnectionPool built) as [pl| |] eqn:Hb;
      cbn; [intros ->; cbn| |done].
    + repeat case_match; simplify_eq/=; done.
    + intros _. repeat case_match; simplify_eq/=; done.
Qed.

Lemma driver_error_resets_pool_witness :
  let r := Database.get_db_connection (H := Cases.flaky) Cases.cold in
  r.1 = Database.Ok None /\
  Database.POOL r.2 = None /\
  Database.pools_built (Database.get_db_connection (H := Cases.flaky) r.2).2
    = S (Database.pools_built r.2).
Proof.
  apply (driver_error_resets_pool (H := Cases.flaky) Cases.cold).
  exact I.
Defined.

(** ** What the weather lookups change *)

Section Effects.
Context `{Platform}.

Ltac run_steps :=
  repeat first
    [ rewrite run_bind
    | rewrite run_try
    | rewrite run_ret
    | rewrite run_http
    | rewrite run_key
    | progress cbn [raise still_fresh _now_ts
        http_get get_geo_cache get_current_cache get_forecast_cache
        get_aqi_cache set_geo_cache set_current_cache set_forecast_cache
        set_aqi_cache first_description fst snd negb
        _geo_cache _current_cache _forecast_cache _aqi_cache ticks calls] ].

Ltac close_effect :=
  eexists _, _; (split; [reflexivity|]);
  unfold Frame.tier_effect, Frame.sent; run_steps;
  repeat split; eauto;
  try (eexists; split; [apply lookup_insert_eq | by right]).

Lemma geocode_effect location w :
  exists r w',
    geocode_location location w = (Return r, w') /\
    Frame.tier_effect _geo_cache (lower (strip location)) (GeoReq location)
      r w w' /\
    _current_cache w' = _current_cache w /\
    _forecast_cache w' = _forecast_cache w /\
    _aqi_cache w' = _aqi_cache w.
Proof.
  unfold geocode_location.
  destruct (negb (truthy_opt OWM_KEY)); [close_effect|]. run_steps.
  destruct (_geo_cache w !! lower (strip location)) as [[v t]|] eqn:Hlook;
    run_steps.
  - destruct (Qltb _ _); run_steps.
    { eexists _, _. split; [reflexivity|].
      unfold Frame.tier_effect, Frame.sent. run_steps.
      repeat split; eauto. }
    destruct (requests_get (length (calls w)) (GeoReq location))
      as [|status [|[|top data]|d|items|l]];
      run_steps; try destruct (status =? 200)%Z; run_steps; close_effect.
  - destruct (requests_get (length (calls w)) (GeoReq location))
      as [|status [|[|top data]|d|items|l]];
      run_steps; try destruct (status =? 200)%Z; run_steps; close_effect.
Qed.

Lemma current_effect (lat lon : Q) w :
  exists r w',
    _fetch_current_weather_by_coord lat lon w = (Return r, w') /\
    Frame.tier_effect _current_cache (coord_key "cur:" lat lon)
      (CurrentReq lat lon) r w w' /\
    _geo_cache w' = _geo_cache w /\
    _forecast_cache w' = _forecast_cache w /\
    _aqi_cache w' = _aqi_cache w.
Proof.
  unfold _fetch_current_weather_by_coord.
  destruct (negb (truthy_opt OWM_KEY)); [close_effect|]. run_steps.
  destruct (_current_cache w !! coord_key "cur:" lat lon) as [[v t]|] eqn:Hlook;
    run_steps.
  - destruct (Qltb _ _); run_steps.
    { eexists _, _. split; [reflexivity|].
      unfold Frame.tier_effect, Frame.sent. run_steps.
      repeat split; eauto. }
    destruct (requests_get (length (calls w)) (CurrentReq lat lon))
      as [|status [|data|d|items|l]];
      run_steps; try destruct (status =? 200)%Z; run_steps;
      try destruct (raw_weather d) as [[|d0 ds]|]; run_steps; close_effect.
  - destruct (requests_get (length (calls w)) (CurrentReq lat lon))
      as [|status [|data|d|items|l]];
      run_steps; try destruct (status =? 200)%Z; run_steps;
      try destruct (raw_weather d) as [[|d0 ds]|]; run_steps; close_effect.
Qed.

Ltac run_aggregate :=
  try (match goal with
       | |- context [aggregate ?i ?d ?w0] =>
           let Hw := fresh "Hw" in
           pose proof (aggregate_world i d w0) as Hw;
           destruct (aggregate i d w0) as [[?|?] ?];
           cbn [snd] in Hw; subst
       end; run_steps).

Lemma forecast_effect (lat lon : Q) days w :
  exists r w',
    _fetch_forecast_by_coord lat lon days w = (Return r, w') /\
    Frame.tier_effect _forecast_cache
      (coord_key "fc:" lat lon ++ py ":" ++ format_int days)
      (ForecastReq lat lon) r w w' /\
    _geo_cache w' = _geo_cache w /\
    _current_cache w' = _current_cache w /\
    _aqi_cache w' = _aqi_cache w.
Proof.
  unfold _fetch_forecast_by_coord.
  destruct (negb (truthy_opt OWM_KEY)); [close_effect|]. run_steps.
  destruct (_forecast_cache w !! _) as [[v t]|] eqn:Hlook; run_steps.
  - destruct (Qltb _ _); run_steps.
    { eexists _, _. split; [reflexivity|].
      unfold Frame.tier_effect, Frame.sent. run_steps.
      repeat split; eauto. }
    destruct (requests_get (length (calls w)) (ForecastReq lat lon))
      as [|status [|data|d|items|l]];
      run_steps; try destruct (status =? 200)%Z; run_steps;
      run_aggregate; close_effect.
  - destruct (requests_get (length (calls w)) (ForecastReq lat lon))
      as [|status [|data|d|items|l]];
      run_steps; try destruct (status =? 200)%Z; run_steps;
      run_aggregate; close_effect.
Qed.

Lemma aqi_effect (lat lon : Q) w :
  exists r w',
    _fetch_aqi_by_coord lat lon w = (Return r, w') /\
    Frame.tier_effect _aqi_cache (coord_key "aqi:" lat lon)
      (AqiReq lat lon) r w w' /\
    _geo_cache w' = _geo_cache w /\
    _current_cache w' = _current_cache w /\
    _forecast_cache w' = _forecast_cache w.
Proof.
  unfold _fetch_aqi_by_coord.
  destruct (negb (truthy_opt OWM_KEY)); [close_effect|]. run_steps.
  destruct (_aqi_cache w !! coord_key "aqi:" lat lon) as [[v t]|] eqn:Hlook;
    run_steps.
  - destruct (Qltb _ _); run_steps.
    { eexists _, _. split; [reflexivity|].
      unfold Frame.tier_effect, Frame.sent. run_steps.
      repeat split; eauto. }
    destruct (requests_get (length (calls w)) (AqiReq lat lon))
      as [|status [|data|d|items|[[|el l]|]]];
      run_steps; try destruct (status =? 200)%Z; run_steps; close_effect.
  - destruct (requests_get (length (calls w)) (AqiReq lat lon))
      as [|status [|data|d|items|[[|el l]|]]];
      run_steps; try destruct (status =? 200)%Z; run_steps; close_effect.
Qed.

(** Two coordinates of which the key can be written are numbers. *)
Lemma key_error_none lat lon :
  key_error lat lon = None -> exists la lo : Q, lat = Number la /\ lon = Number lo.
Proof. destruct lat, lon; try discriminate; eauto. Qed.

(** The error of a key is one of the three the format raises. *)
Lemma key_error_kind lat lon e :
  key_error lat lon = Some e ->
  e = ValueError \/ e = TypeError \/ e = OverflowError.
Proof. destruct lat, lon; cbn; intros [= <-]; auto. Qed.

(** At coordinates whose key cannot be written a lookup leaves the process
    as it is: it returns nothing without a provider key, and raises with
    one. *)
Lemma fetch_unwritable lat lon days e w :
  key_error lat lon = Some e ->
  (_fetch_current_weather_by_coord lat lon w).2 = w /\
  (_fetch_forecast_by_coord lat lon days w).2 = w /\
  (_fetch_aqi_by_coord lat lon w).2 = w.
Proof.
  intros He.
  unfold _fetch_current_weather_by_coord, _fetch_forecast_by_coord,
    _fetch_aqi_by_coord.
  destruct (negb (truthy_opt OWM_KEY)); [done|]. rewrite !run_bind.
  pose proof (key_of_cases "cur:" lat lon w) as H1.
  pose proof (key_of_cases "fc:" lat lon w) as H2.
  pose proof (key_of_cases "aqi:" lat lon w) as H3.
  rewrite He in H1, H2, H3. by rewrite H1, H2, H3.
Qed.

End Effects.

Section Frames.
Context `{Platform}.

Lemma keeps_refl {V} (c : gmap str V) : Frame.keeps c c.
Proof. by intros k. Qed.

Lemma keeps_trans {V} (a b c : gmap str V) :
  Frame.keeps a b -> Frame.keeps b c -> Frame.keeps a c.
Proof. intros Hab Hbc k Hk. by apply Hbc, Hab. Qed.

Lemma keeps_eq {V} (c c' : gmap str V) : c' = c -> Frame.keeps c c'.
Proof. intros ->. apply keeps_refl. Qed.

Lemma tier_effect_keeps {V} (cache : world -> gmap str (V * Q)) key rq r w w' :
  Frame.tier_effect cache key rq r w w' -> Frame.keeps (cache w) (cache w').
Proof.
  intros [_ Hr]. destruct r as [v|]; [|by apply keeps_eq].
  destruct Hr as (t & _ & [->| ->]); [apply keeps_refl|].
  intros k Hk. apply lookup_insert_is_Some.
  destruct (decide (key = k)); [by left | by right].
Qed.

Lemma caches_kept_trans a b c :
  Frame.caches_kept a b -> Frame.caches_kept b c -> Frame.caches_kept a c.
Proof.
  intros (H1 & H2 & H3 & H4) (G1 & G2 & G3 & G4).
  repeat split; eauto using keeps_trans.
Qed.

Lemma tick_keeps w r w' :
  _now_ts w = (Return r, w') -> Frame.caches_kept w w' /\ Frame.sent [] w w'.
Proof. intros [= _ <-]. repeat split; apply keeps_refl. Qed.

(** The requests of one step, put before those of the steps so far. *)
Lemma sent_step new rq w1 w2 w3 :
  Frame.sent new w1 w2 ->
  Frame.sent [] w2 w3 \/ Frame.sent [rq] w2 w3 ->
  exists step, Frame.sent (step ++ new) w1 w3 /\ (step = [] \/ step = [rq]).
Proof.
  unfold Frame.sent. intros H12 [H23|H23].
  - exists []. split; [|by left]. by rewrite H23, H12.
  - exists [rq]. split; [|by right]. by rewrite H23, H12.
Qed.

Lemma sublist_step {A} (step l m : list A) x :
  step = [] \/ step = [x] -> l `sublist_of` m ->
  step ++ l `sublist_of` x :: m.
Proof.
  intros [->| ->] Hl; [by apply sublist_cons | by apply sublist_skip].
Qed.

Section Keyless.
Hypothesis no_key : truthy_opt OWM_KEY = false.

Lemma geocode_keyless location w :
  geocode_location location w = (Return None, w).
Proof. unfold geocode_location. by rewrite no_key. Qed.

Lemma build_weather_packet_keyless location days w :
  build_weather_packet location days w = (Return None, w).
Proof.
  unfold build_weather_packet. destruct (negb (truthy location)); [done|].
  by rewrite run_bind, geocode_keyless.
Qed.

Lemma summary_keyless location days w :
  get_weather_summary_for_prompt location days w = (Return None, w).
Proof.
  unfold get_weather_summary_for_prompt.
  by rewrite run_bind, build_weather_packet_keyless.
Qed.

End Keyless.
End Frames.

(** X12. A lookup that comes back empty leaves all four caches as they
    were: failures are not cached, and a stale entry is not dropped. *)
Theorem failed_lookup_leaves_caches `{Platform} (w : world) :
  (forall location,
     let r := geocode_location location w in
     r.1 = Return None -> Frame.same_caches w r.2) /\
  (forall lat lon,
     let r := _fetch_current_weather_by_coord lat lon w in
     r.1 = Return None -> Frame.same_caches w r.2) /\
  (forall lat lon days,
     let r := _fetch_forecast_by_coord lat lon days w in
     r.1 = Return None -> Frame.same_caches w r.2) /\
  (forall lat lon,
     let r := _fetch_aqi_by_coord lat lon w in
     r.1 = Return None -> Frame.same_caches w r.2).
Proof.
  unfold Frame.same_caches. split; [|split; [|split]].
  - intros location.
    destruct (geocode_effect location w) as (r & w' & -> & [_ Hr] & Ho).
    cbn. intros [= ->]. destruct Ho as (? & ? & ?). by repeat split.
  - intros lat lon. destruct (key_error lat lon) as [e|] eqn:He.
    { destruct (fetch_unwritable lat lon 0 e w He) as (-> & _). done. }
    destruct (key_error_none lat lon He) as (la & lo & -> & ->).
    destruct (current_effect la lo w) as (r & w' & -> & [_ Hr] & Ho).
    cbn. intros [= ->]. destruct Ho as (? & ? & ?). by repeat split.
  - intros lat lon days. destruct (key_error lat lon) as [e|] eqn:He.
    { destruct (fetch_unwritable lat lon days e w He) as (_ & -> & _). done. }
    destruct (key_error_none lat lon He) as (la & lo & -> & ->).
    destruct (forecast_effect la lo days w) as (r & w' & -> & [_ Hr] & Ho).
    cbn. intros [= ->]. destruct Ho as (? & ? & ?). by repeat split.
  - intros lat lon. destruct (key_error lat lon) as [e|] eqn:He.
    { destruct (fetch_unwritable lat lon 0 e w He) as (_ & _ & ->). done. }
    destruct (key_error_none lat lon He) as (la & lo & -> & ->).
    destruct (aqi_effect la lo w) as (r & w' & -> & [_ Hr] & Ho).
    cbn. intros [= ->]. destruct Ho as (? & ? & ?). by repeat split.
Qed.


Lemma build_weather_packet_effect `{Platform} (location : str) (days : Z)
    (w : world) :
  exists o w' new,
    build_weather_packet location days w = (o, w') /\
    Frame.caches_kept w w' /\
    Frame.sent new w w' /\
    match o with
    | Return (Some pkt) =>
        new `sublist_of`
          [AqiReq (Weather.lat pkt) (Weather.lon pkt);
           ForecastReq (Weather.lat pkt) (Weather.lon pkt);
           CurrentReq (Weather.lat pkt) (Weather.lon pkt);
           GeoReq location]
    | Return None => new `sublist_of` [GeoReq location]
    | Raise e =>
        new `sublist_of` [GeoReq location] /\
        (e = ValueError \/ e = TypeError \/ e = OverflowError)
    end.
Proof.
  assert (Hrefl : forall w0, Frame.caches_kept w0 w0)
    by (intros w0; repeat split; apply keeps_refl).
  unfold build_weather_packet. destruct (negb (truthy location)).
  { exists (Return None), w, []. split; [done|]. split; [apply Hrefl|].
    split; [done | apply sublist_nil_l]. }
  rewrite run_bind.
  destruct (geocode_effect location w)
    as (geo & w1 & Hrun & Hgeo & Hg1 & Hg2 & Hg3).
  rewrite Hrun.
  assert (Hk1 : Frame.caches_kept w w1).
  { split; [by eapply tier_effect_keeps|].
    repeat split; by apply keeps_eq. }
  destruct Hgeo as [Hs1 _].
  destruct (sent_step [] (GeoReq location) w w w1 eq_refl Hs1)
    as (s1 & Hsent1 & Hstep1).
  rewrite app_nil_r in Hsent1.
  assert (Hnone : s1 `sublist_of` [GeoReq location]).
  { rewrite <- (app_nil_r s1). apply sublist_step; [done | apply sublist_nil_l]. }
  destruct geo as [g|]; [|by exists (Return None), w1, s1].
  destruct (geo_lat g) as [lat|]; [|by exists (Return None), w1, s1].
  destruct (geo_lon g) as [lon|]; [|by exists (Return None), w1, s1].
  destruct (key_error lat lon) as [e|] eqn:Herr.
  { destruct (fetch_raises_on_key lat lon days e w1
                (geocode_some_key _ _ _ _ Hrun) Herr) as (Hcur & _).
    rewrite run_bind, Hcur. exists (Raise e), w1, s1.
    split; [done|]. split; [done|]. split; [done|].
    split; [done | by eapply key_error_kind]. }
  destruct (key_error_none lat lon Herr) as (la & lo & -> & ->).
  rewrite run_bind.
  destruct (current_effect la lo w1)
    as (cur & w2 & -> & Hcur & Hc1 & Hc2 & Hc3).
  rewrite run_bind.
  destruct (forecast_effect la lo days w2)
    as (fc & w3 & -> & Hfc & Hf1 & Hf2 & Hf3).
  rewrite run_bind.
  destruct (aqi_effect la lo w3)
    as (aq & w4 & -> & Haq & Ha1 & Ha2 & Ha3).
  rewrite run_bind. cbn [_now_ts]. rewrite run_ret.
  assert (Hk2 : Frame.caches_kept w1 w2).
  { split; [by apply keeps_eq|]. split; [by eapply tier_effect_keeps|].
    split; by apply keeps_eq. }
  assert (Hk3 : Frame.caches_kept w2 w3).
  { split; [by apply keeps_eq|]. split; [by apply keeps_eq|].
    split; [by eapply tier_effect_keeps | by apply keeps_eq]. }
  assert (Hk4 : Frame.caches_kept w3 w4).
  { split; [by apply keeps_eq|]. split; [by apply keeps_eq|].
    split; [by apply keeps_eq | by eapply tier_effect_keeps]. }
  destruct Hcur as [Hs2 _], Hfc as [Hs3 _], Haq as [Hs4 _].
  destruct (sent_step _ _ _ _ _ Hsent1 Hs2) as (s2 & Hsent2 & Hstep2).
  destruct (sent_step _ _ _ _ _ Hsent2 Hs3) as (s3 & Hsent3 & Hstep3).
  destruct (sent_step _ _ _ _ _ Hsent3 Hs4) as (s4 & Hsent4 & Hstep4).
  eexists (Return (Some _)), _, (s4 ++ s3 ++ s2 ++ s1).
  split; [reflexivity|].
  split.
  { eapply caches_kept_trans; [|exact Hk4].
    eapply caches_kept_trans; [|exact Hk3].
    eapply caches_kept_trans; [exact Hk1 | exact Hk2]. }
  split; [exact Hsent4|].
  cbn [Weather.lat Weather.lon].
  by repeat apply sublist_step.
Qed.

(** X14. Building a packet sends at most four requests: the geocoding one,
    then those for current conditions, forecast and air quality at the
    coordinates of the packet, in that order and each at most once; when no
    packet comes back nothing but the geocoding request was sent. That
    includes the one way it raises, with the error of the key format on a
    coordinate that is not a number. No cache loses an entry. *)
Theorem packet_requests_in_order `{Platform} (location : str) (days : Z)
    (w : world) :
  let res := build_weather_packet location days w in
  Frame.caches_kept w res.2 /\
  exists new,
    Frame.sent new w res.2 /\
    match res.1 with
    | Return (Some pkt) =>
        new `sublist_of`
          [AqiReq (Weather.lat pkt) (Weather.lon pkt);
           ForecastReq (Weather.lat pkt) (Weather.lon pkt);
           CurrentReq (Weather.lat pkt) (Weather.lon pkt);
           GeoReq location]
    | Return None => new `sublist_of` [GeoReq location]
    | Raise e =>
        new `sublist_of` [GeoReq location] /\
        (e = ValueError \/ e = TypeError \/ e = OverflowError)
    end.
Proof.
  destruct (build_weather_packet_effect location days w)
    as (o & w' & new & -> & Hkept & Hsent & Hnew).
  cbn [fst snd]. split; [exact Hkept|]. exists new. by split.
Qed.

(** X24. A whole chat turn sends at most four requests to the provider and
    loses no cache entry, whatever the message, the stored location and the
    history. *)
Theorem turn_sends_at_most_four `{Platform} `{Json} (msg : str)
    (chat_last_location : option str) (history : list (str * str))
    (w : world) :
  let res := prepare msg chat_last_location history w in
  Frame.caches_kept w res.2 /\
  exists new, Frame.sent new w res.2 /\ length new <= 4.
Proof.
  assert (Hrefl : Frame.caches_kept w w /\
                  exists new, Frame.sent new w w /\ length new <= 4).
  { split; [repeat split; apply keeps_refl|]. exists []. split; [done|].
    cbn. lia. }
  assert (Hmsgs : forall tw w0, (build_messages tw history msg w0).2 = w0).
  { intros tw w0. unfold build_messages.
    destruct (weather_packet tw) as [pkt|]; [|done].
    by destruct (truthy_opt (weather_summary tw)). }
  assert (Hturn :
    Frame.caches_kept w (weather_for_turn msg chat_last_location w).2 /\
    (exists tw, (weather_for_turn msg chat_last_location w).1 = Return tw) /\
    exists new,
      Frame.sent new w (weather_for_turn msg chat_last_location w).2 /\
      length new <= 4).
  { unfold weather_for_turn.
    destruct (resolve_location msg chat_last_location) as [loc|];
      [|cbn; destruct Hrefl; eauto].
    destruct (truthy loc); [|cbn; destruct Hrefl; eauto].
    rewrite run_try. unfold get_weather_summary_for_prompt.
    rewrite !run_bind.
    destruct (build_weather_packet_effect loc 5 w)
      as (o & w' & new & -> & Hkept & Hsent & Hnew).
    assert (Hlen : length new <= 4).
    { destruct o as [[pkt|]|e]; [| |destruct Hnew as [Hnew _]];
        apply sublist_length in Hnew; cbn in Hnew; lia. }
    destruct o as [[pkt|]|e]; cbn;
      (split; [exact Hkept|]; split; [by eexists | by exists new]). }
  destruct Hturn as (Hkept & [tw Htw] & Hsent).
  unfold prepare. rewrite run_bind.
  destruct (weather_for_turn msg chat_last_location w) as [o w1].
  cbn [fst snd] in *. subst o. by rewrite Hmsgs.
Qed.

(** X15. A place that [geocode_location] returns is in the geocoding cache
    under the lower-cased, stripped name; a lookup of any spelling with the
    same normal form, made within the time-to-live of that entry, returns it
    without a request. *)
Theorem geocoded_place_is_cached `{Platform} (location : str) (g : geo)
    (w w1 : world) :
  geocode_location location w = (Return (Some g), w1) ->
  exists t,
    _geo_cache w1 !! lower (strip location) = Some (g, t) /\
    forall location',
      lower (strip location') = lower (strip location) ->
      (time_time (ticks w1) - t < GEO_TTL)%Q ->
      geocode_location location' w1 = (Return (Some g), Ttl.tick w1).
Proof.
  intros Hrun.
  destruct (truthy_opt OWM_KEY) eqn:Hkey.
  2:{ by rewrite (geocode_keyless Hkey) in Hrun. }
  destruct (geocode_effect location w) as (r & w' & Hrun' & [_ Hr] & _).
  rewrite Hrun in Hrun'. injection Hrun' as <- <-.
  destruct Hr as (t & Hlook & _). exists t. split; [exact Hlook|].
  intros location' Hsame Hfresh.
  apply (geocode_serves_fresh location' Hkey w1 g t); [|exact Hfresh].
  etrans; [|exact Hlook]. f_equal. exact Hsame.
Qed.

Lemma geocoded_place_is_cached_witness :
  exists t,
    _geo_cache (geocode_location (H := Sample.platform) (py "Goa") fresh).2
      !! lower (strip (py "Goa")) = Some (Sample.goa, t) /\
    forall location',
      lower (strip location') = lower (strip (py "Goa")) ->
      (time_time (Platform := Sample.platform)
         (ticks (geocode_location (H := Sample.platform) (py "Goa") fresh).2)
       - t < GEO_TTL)%Q ->
      geocode_location (H := Sample.platform) location'
        (geocode_location (H := Sample.platform) (py "Goa") fresh).2
      = (Return (Some Sample.goa),
         Ttl.tick (geocode_location (H := Sample.platform) (py "Goa") fresh).2).
Proof.
  apply (geocoded_place_is_cached (H := Sample.platform) (py "Goa")
           Sample.goa fresh).
  vm_compute. reflexivity.
Defined.

(** X16. Without a provider key nothing is looked up: the four lookups,
    the packet and the summary all come back empty, and the process is as
    it was: no request, no clock reading, no cache entry. *)
Theorem no_key_no_lookup `{Platform} :
  truthy_opt OWM_KEY = false ->
  forall (location : str) (lat lon : coord) (days : Z) (w : world),
    geocode_location location w = (Return None, w) /\
    _fetch_current_weather_by_coord lat lon w = (Return None, w) /\
    _fetch_forecast_by_coord lat lon days w = (Return None, w) /\
    _fetch_aqi_by_coord lat lon w = (Return None, w) /\
    build_weather_packet location days w = (Return None, w) /\
    get_weather_summary_for_prompt location days w = (Return None, w).
Proof.
  intros Hkey location lat lon days w.
  split; [by apply geocode_keyless|].
  split; [unfold _fetch_current_weather_by_coord; by rewrite Hkey|].
  split; [unfold _fetch_forecast_by_coord; by rewrite Hkey|].
  split; [unfold _fetch_aqi_by_coord; by rewrite Hkey|].
  split; [by apply build_weather_packet_keyless | by apply summary_keyless].
Qed.

Lemma no_key_no_lookup_witness :
  geocode_location (H := Cases.keyless) (py "Goa") fresh = (Return None, fresh) /\
  _fetch_current_weather_by_coord (H := Cases.keyless) 15.3%Q 74.08%Q fresh
    = (Return None, fresh) /\
  _fetch_forecast_by_coord (H := Cases.keyless) 15.3%Q 74.08%Q 5 fresh
    = (Return None, fresh) /\
  _fetch_aqi_by_coord (H := Cases.keyless) 15.3%Q 74.08%Q fresh
    = (Return None, fresh) /\
  build_weather_packet (H := Cases.keyless) (py "Goa") 5 fresh
    = (Return None, fresh) /\
  get_weather_summary_for_prompt (H := Cases.keyless) (py "Goa") 5 fresh
    = (Return None, fresh).
Proof.
  apply (no_key_no_lookup (H := Cases.keyless)). reflexivity.
Defined.

(** X17. Without a provider key the model gets the rules, the history and
    the message, whatever the message asks, and the turn changes nothing in
    the weather process. *)
Theorem no_key_plain_prompt `{Platform} `{Json} (msg : str)
    (chat_last_location : option str) (history : list (str * str))
    (w : world) :
  truthy_opt OWM_KEY = false ->
  prepare msg chat_last_location history w =
  (Return
     ([{| role := py "system"; content := system_prompt |}]
        ++ map (fun row => {| role := row.2; content := row.1 |}) history
        ++ [{| role := py "user"; content := msg |}]),
   w).
Proof.
  intros Hkey. unfold prepare. rewrite run_bind.
  assert (Hturn : exists tw,
            weather_for_turn msg chat_last_location w = (Return tw, w) /\
            weather_packet tw = None).
  { unfold weather_for_turn.
    destruct (resolve_location msg chat_last_location) as [loc|];
      [|by eexists].
    destruct (truthy loc); [|by eexists].
    rewrite run_try, run_bind, (summary_keyless Hkey), run_ret.
    by eexists. }
  destruct Hturn as (tw & -> & Hpkt).
  unfold build_messages. rewrite Hpkt, run_bind, !run_ret. reflexivity.
Qed.

Lemma no_key_plain_prompt_witness :
  prepare (H := Cases.keyless) (H0 := Sample.json) (py "weather in Goa") None
    [(py "hello", py "user")] fresh =
  (Return
     ([{| role := py "system"; content := system_prompt |}]
        ++ map (fun row => {| role := row.2; content := row.1 |})
             [(py "hello", py "user")]
        ++ [{| role := py "user"; content := py "weather in Goa" |}]),
   fresh).
Proof.
  apply (no_key_plain_prompt (H := Cases.keyless) (H0 := Sample.json)).
  reflexivity.
Defined.

(** ** Forecasts that cannot be read, and odd day counts *)

Section Forecasts.
Context `{Platform}.

(** The first loop stops at the first entry it cannot read, and only
    there. *)
Lemma group_by_day_outcome items daily w :
  match (group_by_day items daily w).1 with
  | Return _ => Forall Stats.readable items
  | Raise e => e = IndexError /\ Exists (fun it => weather it = Some []) items
  end.
Proof.
  revert daily. induction items as [|it items IH]; intros daily; [by cbn|].
  cbn [group_by_day]. rewrite run_bind. unfold add_sample at 1.
  rewrite run_bind. unfold Stats.readable in *.
  destruct (weather it) as [[|d l]|] eqn:Hw; cbn [first_description raise].
  - cbn. split; [done|]. by apply Exists_cons_hd.
  - rewrite !run_ret.
    match goal with |- context [group_by_day items ?D w] =>
      specialize (IH D); destruct (group_by_day items D w) as [[D'|e] w']
    end; cbn [fst] in *.
    + constructor; [by rewrite Hw | exact IH].
    + destruct IH as [-> Hex]. split; [done|]. by apply Exists_cons_tl.
  - rewrite !run_ret.
    match goal with |- context [group_by_day items ?D w] =>
      specialize (IH D); destruct (group_by_day items D w) as [[D'|e] w']
    end; cbn [fst] in *.
    + constructor; [by rewrite Hw | exact IH].
    + destruct IH as [-> Hex]. split; [done|]. by apply Exists_cons_tl.
Qed.

Lemma aggregate_unreadable items days w it :
  it ∈ items -> weather it = Some [] ->
  aggregate items days w = (Raise IndexError, w).
Proof.
  intros Hin Hw. unfold aggregate. rewrite run_bind.
  pose proof (group_by_day_outcome items ∅ w) as Hout.
  pose proof (group_by_day_world items ∅ w) as Hworld.
  destruct (group_by_day items ∅ w) as [[D|e] w']; cbn [fst snd] in *.
  - exfalso. rewrite Forall_forall in Hout. by apply (Hout it Hin).
  - destruct Hout as [-> _]. by subst w'.
Qed.

End Forecasts.

(** X18. One forecast entry with an empty [weather] list loses the whole
    forecast: the aggregation raises, and a lookup that fetched such a list
    returns nothing and stores nothing. *)
Theorem unreadable_entry_drops_forecast `{Platform} (items : list fc_item)
    (it : fc_item) (lat lon : Q) (days : Z) (w : world) :
  it ∈ items -> weather it = Some [] ->
  aggregate items days w = (Raise IndexError, w) /\
  (requests_get (length (calls w)) (ForecastReq lat lon)
     = Response 200 (ForecastBody items) ->
   Frame.sent [ForecastReq lat lon] w
     (_fetch_forecast_by_coord lat lon days w).2 ->
   (_fetch_forecast_by_coord lat lon days w).1 = Return None /\
   Frame.same_caches w (_fetch_forecast_by_coord lat lon days w).2).
Proof.
  intros Hin Hw. split; [by eapply aggregate_unreadable|].
  intros Hresp Hsent.
  destruct (forecast_effect lat lon days w)
    as (r & w' & Hrun & [_ Hr] & H1 & H2 & H3).
  rewrite Hrun in *. cbn [fst snd] in *.
  assert (Hnone : r = None).
  { revert Hrun Hsent. unfold _fetch_forecast_by_coord, Frame.sent.
    assert (Hno : forall (l : list request) rq, l <> rq :: l).
    { intros l rq Hl. apply (f_equal length) in Hl. cbn in Hl. lia. }
    destruct (negb (truthy_opt OWM_KEY)).
    { rewrite run_ret. intros [= <- <-] Hs. by apply Hno in Hs. }
    rewrite run_bind, run_key. cbn zeta.
    rewrite !run_bind. cbn [get_forecast_cache].
    assert (Hmiss : forall w0, calls w0 = calls w ->
              try_except
                (r ← http_get (ForecastReq lat lon);
                 if negb (r.1 =? 200)%Z then mret None
                 else
                   items ← match r.2 with
                           | ForecastBody items => mret items
                           | _ => raise JSONDecodeError
                           end;
                   result ← aggregate items days;
                   now ← _now_ts;
                   set_forecast_cache
                     (coord_key "fc:" lat lon ++ py ":" ++ format_int days)
                     (result, now);;
                   mret (Some result))
                (mret None) w0 = (Return r, w') -> r = None).
    { intros w0 Hcalls. rewrite run_try, run_bind, run_http, Hcalls, Hresp.
      cbn [fst snd Z.eqb Pos.eqb negb]. rewrite !run_bind, run_ret.
      rewrite run_bind, (aggregate_unreadable items days _ it Hin Hw).
      cbn [mret M_ret]. by intros [= <- _]. }
    destruct (_forecast_cache w !! _) as [[v t]|]; cbn [still_fresh].
    - rewrite !run_bind. cbn [_now_ts]. rewrite run_ret.
      destruct (Qltb _ _).
      + rewrite run_ret. intros [= <- <-] Hs. cbn in Hs. by apply Hno in Hs.
      + intros Hrun _. by eapply Hmiss; [|exact Hrun].
    - rewrite run_bind, run_ret. intros Hrun _.
      by eapply Hmiss; [|exact Hrun]. }
  subst r. split; [done|]. by repeat split.
Qed.

Lemma unreadable_entry_drops_forecast_witness :
  aggregate (H := Cases.broken_forecast) Cases.broken_items 5 fresh
    = (Raise IndexError, fresh) /\
  (requests_get (Platform := Cases.broken_forecast) (length (calls fresh))
     (ForecastReq 15.3%Q 74.08%Q)
     = Response 200 (ForecastBody Cases.broken_items) ->
   Frame.sent [ForecastReq 15.3%Q 74.08%Q] fresh
     (_fetch_forecast_by_coord (H := Cases.broken_forecast)
        15.3%Q 74.08%Q 5 fresh).2 ->
   (_fetch_forecast_by_coord (H := Cases.broken_forecast)
      15.3%Q 74.08%Q 5 fresh).1 = Return None /\
   Frame.same_caches fresh
     (_fetch_forecast_by_coord (H := Cases.broken_forecast)
        15.3%Q 74.08%Q 5 fresh).2).
Proof.
  apply (unreadable_entry_drops_forecast (H := Cases.broken_forecast)
           Cases.broken_items
           {| dt := 1699974000; main_temp := Some 25%Q; main_humidity := None;
              weather := Some []; wind_speed := None |}).
  - unfold Cases.broken_items. apply list_elem_of_further, list_elem_of_here.
  - reflexivity.
Defined.

(** X20. A negative day count is no error: of the days on which entries
    fall, in ascending order, the last [-days] are left out. *)
Theorem negative_days_drop_latest `{Platform} (items : list fc_item)
    (days : Z) (w : world) :
  (days < 0)%Z ->
  Forall Stats.readable items ->
  exists result,
    aggregate items days w = (Return result, w) /\
    StronglySorted Stats.str_lt (date <$> result) /\
    length result = size (Stats.days_of items) - Z.to_nat (- days) /\
    (forall e d, e ∈ result -> d ∈ Stats.days_of items ->
                 d ∉ date <$> result -> Stats.str_lt (date e) d).
Proof.
  intros Hdays Hall.
  destruct (aggregate_readable items days w Hall)
    as (result & Hagg & (D & Hdom & Hdates) & _).
  exists result. split; [exact Hagg|].
  assert (Hslice : date <$> result
                   = take (length (sorted (keys D)) - Z.to_nat (- days))
                       (sorted (keys D))).
  { rewrite Hdates. unfold slice_to.
    destruct (Z.ltb_spec days 0); [done | lia]. }
  pose proof (keys_sorted_strict D) as Hsorted.
  set (k := length (sorted (keys D)) - Z.to_nat (- days)) in *.
  split; [|split].
  - rewrite Hslice. by apply strongly_sorted_take.
  - rewrite <- (length_fmap date), Hslice, length_take.
    unfold k. rewrite length_sorted_keys, Hdom. lia.
  - intros e d He Hd Hnot.
    rewrite <- Hdom in Hd. apply elem_of_sorted_keys in Hd.
    rewrite <- (take_drop k (sorted (keys D))) in Hd, Hsorted.
    rewrite <- Hslice in Hd, Hsorted.
    apply elem_of_app in Hd as [Hd|Hd]; [done|].
    eapply StronglySorted_app_1_elem_of; [exact Hsorted | | exact Hd].
    apply list_elem_of_fmap. eauto.
Qed.

Lemma negative_days_drop_latest_witness :
  exists result,
    aggregate (H := Sample.platform) Sample.forecast_items (-1) fresh
      = (Return result, fresh) /\
    StronglySorted Stats.str_lt (date <$> result) /\
    length result
      = size (Stats.days_of (H := Sample.platform) Sample.forecast_items)
        - Z.to_nat (- -1) /\
    (forall e d, e ∈ result ->
       d ∈ Stats.days_of (H := Sample.platform) Sample.forecast_items ->
       d ∉ date <$> result -> Stats.str_lt (date e) d).
Proof.
  apply (negative_days_drop_latest (H := Sample.platform)).
  - lia.
  - unfold Sample.forecast_items, Stats.readable.
    repeat constructor; discriminate.
Defined.

(** ** The relay: errors, empty tokens, chunk boundaries *)

Section Relays.
Variable decode : list Byte.byte -> str.
Variable json_token : str -> line_json.

Lemma relay_chunks_read_error pre e post full out :
  Forall live pre ->
  relay_chunks decode json_token (pre ++ ReadError e :: post) full out =
  {| yielded :=
       yielded (relay_chunks decode json_token pre full out) ++ [error_token e];
     inserted := None |}.
Proof.
  intros Hlive. revert full out.
  induction Hlive as [|ev pre Hev Hlive IH]; intros full out; [done|].
  cbn [app relay_chunks]. destruct ev as [[|] d|e']; try done.
  destruct (relay_lines json_token (split_on "010" (decode d)) full out)
    as [full' out'].
  apply IH.
Qed.

Lemma relay_lines_app l1 l2 full out :
  relay_lines json_token (l1 ++ l2) full out =
  relay_lines json_token l2 (relay_lines json_token l1 full out).1
    (relay_lines json_token l1 full out).2.
Proof.
  revert full out. induction l1 as [|line l1 IH]; intros full out; [done|].
  cbn [app relay_lines]. destruct (negb (truthy (strip line))); [apply IH|].
  destruct (json_token line) as [|token]; [apply IH|].
  destruct (truthy token); apply IH.
Qed.

Lemma split_on_acc_app d w a b :
  split_on_acc d w (a ++ d :: b) = split_on_acc d w a ++ split_on d b.
Proof.
  revert w. induction a as [|c a IH]; intros w.
  - cbn. by rewrite Ascii.eqb_refl.
  - cbn [app split_on_acc]. destruct (Ascii.eqb c d).
    + cbn [app]. f_equal. apply IH.
    + apply IH.
Qed.

Lemma relay_lines_nonempty lines full out :
  Forall (fun t => t <> []) out ->
  Forall (fun t => t <> []) (relay_lines json_token lines full out).2.
Proof.
  revert full out. induction lines as [|line lines IH]; intros full out Hout;
    [done|].
  cbn [relay_lines]. destruct (negb (truthy (strip line))) eqn:Hblank;
    [by apply IH|].
  assert (Hline : line <> []).
  { intros ->. discriminate Hblank. }
  destruct (json_token line) as [|token].
  - apply IH. apply Forall_app. split; [done|]. by constructor.
  - destruct (truthy token) eqn:Ht; [|by apply IH].
    apply IH. apply Forall_app. split; [done|].
    constructor; [|done]. by destruct token.
Qed.

Lemma error_token_nonempty e : error_token e <> [].
Proof. by destruct e. Qed.

Lemma relay_chunks_nonempty chunks full out :
  Forall (fun t => t <> []) out ->
  Forall (fun t => t <> [])
    (yielded (relay_chunks decode json_token chunks full out)).
Proof.
  revert full out. induction chunks as [|ev chunks IH]; intros full out Hout;
    [done|].
  cbn [relay_chunks]. destruct ev as [[|] d|e]; [done| |].
  - pose proof (relay_lines_nonempty (split_on "010" (decode d)) full out Hout)
      as Hne.
    destruct (relay_lines json_token (split_on "010" (decode d)) full out)
      as [full' out'].
    by apply IH.
  - cbn. apply Forall_app. split; [done|].
    constructor; [apply error_token_nonempty | done].
Qed.

End Relays.

(** X21. When reading the body fails after some chunks, the client has the
    tokens of those chunks and then one error line; what comes after is not
    read and nothing is stored. The same holds when the connection fails at
    once or the model answers with another status than 200: one line, and
    nothing stored. *)
Theorem read_error_ends_stream (decode : list Byte.byte -> str)
    (json_token : str -> line_json) :
  (forall text pre e post,
     Forall live pre ->
     generate decode json_token (Opened 200 text (pre ++ ReadError e :: post)) =
     {| yielded :=
          yielded (generate decode json_token (Opened 200 text pre))
            ++ [error_token e];
        inserted := None |}) /\
  (forall e,
     generate decode json_token (ConnectError e) =
     {| yielded := [error_token e]; inserted := None |}) /\
  (forall status_code text chunks,
     status_code <> 200%Z ->
     exists line,
       generate decode json_token (Opened status_code text chunks) =
       {| yielded := [line]; inserted := None |}).
Proof.
  split; [|split].
  - intros text pre e post Hlive. cbn [generate Z.eqb Pos.eqb negb].
    by apply relay_chunks_read_error.
  - done.
  - intros status_code text chunks Hs. cbn [generate].
    destruct (Z.eqb_spec status_code 200); [done|]. by eexists.
Qed.

(** X22. No token sent to the client is empty: not a token of the model,
    not a line passed on unparsed, not an error line. *)
Theorem no_empty_token (decode : list Byte.byte -> str)
    (json_token : str -> line_json) (b : backend) :
  Forall (fun t => t <> []) (yielded (generate decode json_token b)).
Proof.
  destruct b as [e|status_code text chunks]; cbn [generate].
  - cbn. constructor; [apply error_token_nonempty | done].
  - destruct (negb (status_code =? 200)%Z).
    + cbn. constructor; [|done]. discriminate.
    + by apply relay_chunks_nonempty.
Qed.

(** X23. Where the body is cut into chunks does not matter as long as the
    cut falls after a newline and the two parts decode separately as they
    do together: the two chunks give what the one chunk gives. *)
Theorem chunk_cut_after_newline (decode : list Byte.byte -> str)
    (json_token : str -> line_json) (d1 d2 : list Byte.byte) (t : str)
    (rest : list body_event) (text : option str) :
  decode (d1 ++ d2) = decode d1 ++ decode d2 ->
  decode d1 = t ++ ["010"%char] ->
  generate decode json_token
    (Opened 200 text (Chunk false d1 :: Chunk false d2 :: rest)) =
  generate decode json_token
    (Opened 200 text (Chunk false (d1 ++ d2) :: rest)).
Proof.
  intros Hcat Hnl. cbn [generate Z.eqb Pos.eqb negb relay_chunks].
  rewrite Hcat, Hnl. rewrite <- app_assoc. cbn [app].
  unfold split_on at 1 3.
  rewrite (split_on_acc_app "010" [] t (decode d2)).
  rewrite <- (app_nil_r t) at 1. rewrite <- app_assoc. cbn [app].
  rewrite (split_on_acc_app "010" [] t []).
  rewrite !relay_lines_app.
  destruct (relay_lines json_token (split_on_acc "010" [] t) [] [])
    as [full out]. cbn [fst snd].
  reflexivity.
Qed.

Lemma chunk_cut_after_newline_witness :
  generate Sample.as_text Sample.brace_token
    (Opened 200 None
       (Sample.chunk_of false "{The
" :: Sample.chunk_of false "{ sky" :: Sample.last_six)) =
  generate Sample.as_text Sample.brace_token
    (Opened 200 None
       (Chunk false (map byte_of_ascii (py "{The
") ++ map byte_of_ascii (py "{ sky")) :: Sample.last_six)).
Proof.
  apply (chunk_cut_after_newline Sample.as_text Sample.brace_token
           (map byte_of_ascii (py "{The
")) (map byte_of_ascii (py "{ sky")) (py "{The")).
  - unfold Sample.as_text. apply map_app.
  - reflexivity.
Defined.
